(** * Railway intelligence: the batched fetch service and the aggregation
      reducers

    A shallow embedding of [src/Railwayapiservice.js] (class
    [RailwayApiService]) and of the reducers of [src/Dataprocessing.js],
    with the properties of the specification that concern them.

    Conventions of the embedding
    - a row field delivered by the upstream JSON is absent, [null] or a
      text; JavaScript numbers are integers or [NaN] (the code only ever
      produces numbers through [parseInt], [getMonth], [getFullYear] and
      counters);
    - a JavaScript [Map] whose iteration order is observed is an
      association list in insertion order; the cache, whose order is never
      observed by the operations modelled here, is a [gmap];
    - arrays that are shared by reference (the arrays stored in the cache)
      live in a heap and are passed around as addresses;
    - [async] code is run by an explicit scheduler: a pending [fetch] is
      answered at a later step, chosen by the environment. *)

From Stdlib Require Import ZArith Ascii String List Lia Bool Sorted.
From stdpp Require Import base option list gmap strings pretty.

Import ListNotations.
Local Open Scope string_scope.
Local Open Scope Z_scope.

(** ** JavaScript values that the code manipulates *)

Module Js.

(** A field of an upstream row. *)
Inductive field :=
| Undefined
| Null
| Str (s : string).

(** A number: the integers the code can produce, and [NaN]. *)
Inductive number :=
| NaN
| Int (z : Z).

(** A [Date] object holds a time value (milliseconds since the epoch)
  or is an Invalid Date. *)
Inductive date :=
| InvalidDate
| ValidDate (t : Z).

(** A thrown value: an [Error] object with its name and message. *)
Record exn := Exn { exn_name : string; exn_message : string }.

(** A settled computation: it returned, or it threw. *)
Inductive result (A : Type) :=
| Ok (a : A)
| Throw (e : exn).
Arguments Ok {A} a.
Arguments Throw {A} e.

#[global] Instance field_eq_dec : EqDecision field.
Proof. solve_decision. Defined.
#[global] Instance number_eq_dec : EqDecision number.
Proof. solve_decision. Defined.
#[global] Instance date_eq_dec : EqDecision date.
Proof. solve_decision. Defined.

(** ToBoolean on a field: [undefined], [null] and the empty text are
  falsy. *)
Definition truthy (v : field) : bool :=
  match v with
  | Str s => negb (String.eqb s "")
  | _ => false
  end.

(** [a || b] on fields. *)
Definition or (a b : field) : field := if truthy a then a else b.

(** [v || "fallback"]: the fallback is a text, so the result is one. *)
Definition or_text (v : field) (fallback : string) : string :=
  match v with
  | Str s => if String.eqb s "" then fallback else s
  | _ => fallback
  end.

(** [v || 0]: the argument handed to [parseInt], a text or the number 0. *)
Definition or_zero (v : field) : string + Z :=
  match v with
  | Str s => if String.eqb s "" then inr 0 else inl s
  | _ => inr 0
  end.

(** [n || 0] on a number: [NaN] and [0] are falsy. *)
Definition num_or_zero (n : number) : Z :=
  match n with
  | NaN => 0
  | Int z => z
  end.

(** *** [parseInt(text, 10)] *)

(** White space that [parseInt] strips (the ASCII part of
  StrWhiteSpaceChar: TAB, LF, VT, FF, CR, SP). *)
Definition is_space (c : ascii) : bool :=
  let n := nat_of_ascii c in
  ((9 <=? n) && (n <=? 13) || (n =? 32))%nat.

Fixpoint skip_space (s : string) : string :=
  match s with
  | String c r => if is_space c then skip_space r else s
  | EmptyString => s
  end.

Definition digit (c : ascii) : option Z :=
  let n := nat_of_ascii c in
  if ((48 <=? n) && (n <=? 57))%nat then Some (Z.of_nat n - 48) else None.

(** The longest prefix of decimal digits, read as an integer; [None]
  when the text does not start with a digit. *)
Fixpoint digits (s : string) (acc : option Z) : option Z :=
  match s with
  | String c r =>
    match digit c with
    | Some d => digits r (Some (10 * default 0 acc + d))
    | None => acc
    end
  | EmptyString => acc
  end.

(** The value is the mathematical integer read; the code's later
  rounding to a double is not modelled. *)
Definition parseInt_text (s : string) : number :=
  let s1 := skip_space s in
  let '(sign, s2) :=
  match s1 with
  | String "-" r => (-1, r)
  | String "+" r => (1, r)
  | _ => (1, s1)
  end in
  match digits s2 None with
  | Some n => Int (sign * n)
  | None => NaN
  end.

(** [parseInt(x, 10)] where [x] is a text or an integer number. *)
Definition parseInt (x : string + Z) : number :=
  match x with
  | inl s => parseInt_text s
  | inr z => Int z
  end.

(** [text.split(":")[0]]: the part before the first colon. *)
Fixpoint before_colon (s : string) : string :=
  match s with
  | String c r => if Ascii.eqb c ":" then "" else String c (before_colon r)
  | EmptyString => ""
  end.

(** *** [Array.prototype.slice(0, limit)] *)

(** A negative limit counts from the end of the array. *)
Definition slice0 {A} (l : list A) (limit : Z) : list A :=
  let len := Z.of_nat (length l) in
  let final := if limit <? 0 then Z.max (len + limit) 0 else Z.min limit len in
  take (Z.to_nat final) l.

(** *** [Array.prototype.sort(compare)] *)

(** The sort is stable: an element is placed before the first element
  that does not compare strictly before it. *)
Section Sort.
Context {A : Type} (compare : A -> A -> Z).

Fixpoint insert_sorted (x : A) (l : list A) : list A :=
  match l with
  | [] => [x]
  | y :: r => if compare x y <=? 0 then x :: l else y :: insert_sorted x r
  end.

Definition sort (l : list A) : list A := foldr insert_sorted [] l.

End Sort.

(** *** An insertion-ordered [Map] *)

Section Map.
Context {K V : Type} `{EqDecision K}.

Definition jsmap := list (K * V).

Fixpoint map_get (m : jsmap) (k : K) : option V :=
  match m with
  | [] => None
  | (k', v) :: r => if decide (k' = k) then Some v else map_get r k
  end.

Definition map_has (m : jsmap) (k : K) : bool :=
  match map_get m k with Some _ => true | None => false end.

(** [set] keeps the position of a key that is present and appends a
    new key. *)
Fixpoint map_set (m : jsmap) (k : K) (v : V) : jsmap :=
  match m with
  | [] => [(k, v)]
  | (k', v') :: r =>
      if decide (k' = k) then (k, v) :: r else (k', v') :: map_set r k v
  end.

Definition map_values (m : jsmap) : list V := m.*2.
End Map.
Arguments jsmap : clear implicits.

End Js.

Import Js.


(** ** Upstream rows and canonical records *)

(** The named fields of an upstream row that the code reads.  A row may
    carry more fields; the object spread copies them and nothing reads
    them. *)
Record RawRow := {
  dvsn : field; sttnfrom : field; dmnddate : field; dmndtime : field;
  time : field; csnr : field; cnsg : field; cmdt : field;
  rakecmdt : field; dstn : field; pc : field; indttype : field;
  indtunit : field; indt8w : field; ostgunit : field; ostg8w : field }.

(** The object built by the [map] callback of [fetchZoneData]: the row's
    own fields ([...row]) and the fields written after the spread, which
    override a field of the same name in the row. *)
Record CanonicalRecord := {
  row : RawRow;
  qry : string;
  zone : string;
  demandDateObj : option date;
  month : option number;
  year : option number;
  rakeUnits : number;
  rake8w : number }.

#[global] Instance RawRow_eq_dec : EqDecision RawRow.
Proof. solve_decision. Defined.
#[global] Instance CanonicalRecord_eq_dec : EqDecision CanonicalRecord.
Proof. solve_decision. Defined.

(** What the JavaScript engine provides for dates: the parser behind
    [new Date(text)] and the local-time accessors behind [getMonth] and
    [getFullYear] on a valid time value. *)
Record DateRuntime := {
  Date_parse : string -> date;
  MonthFromTime : Z -> Z;
  YearFromTime : Z -> Z }.

Definition getMonth (rt : DateRuntime) (d : date) : number :=
  match d with
  | InvalidDate => NaN
  | ValidDate t => Int (MonthFromTime rt t)
  end.

Definition getFullYear (rt : DateRuntime) (d : date) : number :=
  match d with
  | InvalidDate => NaN
  | ValidDate t => Int (YearFromTime rt t)
  end.

(** [v ? f(new Date(v)) : null] *)
Definition with_date {A} (rt : DateRuntime) (v : field) (f : date -> A)
  : option A :=
  match v with
  | Str s => if String.eqb s "" then None else Some (f (Date_parse rt s))
  | _ => None
  end.

(** Railwayapiservice.js, lines 99-111: the [map] callback. *)
Definition normalize (rt : DateRuntime) (queryType zone_ : string)
    (r : RawRow) : CanonicalRecord :=
  {| row := r;
     qry := queryType;
     zone := zone_;
     demandDateObj := with_date rt (dmnddate r) id;
     month := with_date rt (dmnddate r) (getMonth rt);
     year := with_date rt (dmnddate r) (getFullYear rt);
     rakeUnits := parseInt (or_zero (Js.or (indtunit r) (ostgunit r)));
     rake8w := parseInt (or_zero (Js.or (indt8w r) (ostg8w r))) |}.

(** The parsed body of a response, as far as the code distinguishes it.
    An element [None] of the array is a [null] row. *)
Inductive json :=
| JNull
| JNoData
| JNotArray
| JRows (rows : list (option RawRow)).

Definition TypeError (msg : string) : exn := Exn "TypeError" msg.

(** Line 98: [.filter((row) => row.dvsn !== "TOTAL")]; reading [dvsn] of a
    [null] row throws. *)
Fixpoint filter_total (rows : list (option RawRow)) : result (list RawRow) :=
  match rows with
  | [] => Ok []
  | None :: _ =>
      Throw (TypeError "Cannot read properties of null (reading 'dvsn')")
  | Some r :: rest =>
      match filter_total rest with
      | Ok kept => Ok (if decide (dvsn r = Str "TOTAL") then kept else r :: kept)
      | Throw e => Throw e
      end
  end.

(** Lines 97-111: [(response.data || []).filter(...).map(...)]. *)
Definition processData (rt : DateRuntime) (queryType zone_ : string)
    (response : json) : result (list CanonicalRecord) :=
  match response with
  | JNull => Throw (TypeError "Cannot read properties of null (reading 'data')")
  | JNoData => Ok []
  | JNotArray => Throw (TypeError "(response.data || []).filter is not a function")
  | JRows rows =>
      match filter_total rows with
      | Ok kept => Ok (normalize rt queryType zone_ <$> kept)
      | Throw e => Throw e
      end
  end.

(** *** A reference date runtime

    The date-only form [YYYY-MM-DD] of the ECMAScript date-time format,
    read as UTC, with UTC as the local time zone.  Every other text is an
    Invalid Date here; the theorems about the service hold for every
    runtime, this one serves to evaluate the code on concrete rows. *)
Module IsoDate.

Definition msPerDay : Z := 86400000.

Definition days_from_civil (y m d : Z) : Z :=
  let y := if m <=? 2 then y - 1 else y in
  let era := y / 400 in
  let yoe := y - era * 400 in
  let doy := (153 * (if 2 <? m then m - 3 else m + 9) + 2) / 5 + d - 1 in
  let doe := yoe * 365 + yoe / 4 - yoe / 100 + doy in
  era * 146097 + doe - 719468.

(** Year and month (1-12) of a day number. *)
Definition civil_from_days (z : Z) : Z * Z :=
  let z := z + 719468 in
  let era := z / 146097 in
  let doe := z - era * 146097 in
  let yoe := (doe - doe / 1460 + doe / 36524 - doe / 146096) / 365 in
  let doy := doe - (365 * yoe + yoe / 4 - yoe / 100) in
  let mp := (5 * doy + 2) / 153 in
  let m := if mp <? 10 then mp + 3 else mp - 9 in
  (yoe + era * 400 + (if m <=? 2 then 1 else 0), m).

Definition is_leap (y : Z) : bool :=
  (y mod 4 =? 0) && (negb (y mod 100 =? 0) || (y mod 400 =? 0)).

Definition days_in_month (y m : Z) : Z :=
  if m =? 2 then (if is_leap y then 29 else 28)
  else if (m =? 4) || (m =? 6) || (m =? 9) || (m =? 11) then 30 else 31.

(** A fixed number of decimal digits. *)
Fixpoint number_of (cs : list ascii) (acc : Z) : option Z :=
  match cs with
  | [] => Some acc
  | c :: r =>
      match digit c with
      | Some d => number_of r (10 * acc + d)
      | None => None
      end
  end.

Definition parse (s : string) : date :=
  match list_ascii_of_string s with
  | [y1; y2; y3; y4; "-"; m1; m2; "-"; d1; d2]%char =>
      match number_of [y1; y2; y3; y4] 0, number_of [m1; m2] 0,
            number_of [d1; d2] 0 with
      | Some y, Some m, Some d =>
          if (1 <=? m) && (m <=? 12) && (1 <=? d) && (d <=? days_in_month y m)
          then ValidDate (days_from_civil y m d * msPerDay)
          else InvalidDate
      | _, _, _ => InvalidDate
      end
  | _ => InvalidDate
  end.

Definition runtime : DateRuntime :=
  {| Date_parse := parse;
     MonthFromTime := fun t => snd (civil_from_days (t / msPerDay)) - 1;
     YearFromTime := fun t => fst (civil_from_days (t / msPerDay)) |}.

End IsoDate.

(** ** The reducers of Dataprocessing.js

    Each reducer folds the records into a [Map] from a grouping key to a
    summary object, then ranks the values.  The summary objects are
    mutated through the reference [map.get] returns; here the entry is
    written back under its key, which keeps its position in the map. *)

(** [{ name, orders, units }] *)
Module OrdersEntry.
Record t := mk { name : string; orders : Z; units : Z }.
End OrdersEntry.

(** [{ name, shipments, units }] *)
Module ShipmentsEntry.
Record t := mk { name : string; shipments : Z; units : Z }.
End ShipmentsEntry.

(** [{ name, units, count }] *)
Module RakeTypeEntry.
Record t := mk { name : string; units : Z; count : Z }.
End RakeTypeEntry.

(** [{ route, origin, destination, shipments, units }] *)
Module RouteEntry.
Record t := mk {
  route : string; origin : string; destination : string;
  shipments : Z; units : Z }.
End RouteEntry.

(** [{ hour, orders }] *)
Module HourEntry.
Record t := mk { hour : string; orders : Z }.
End HourEntry.

(** [record.rakeUnits || 0] *)
Definition unitsOf (record : CanonicalRecord) : Z :=
  num_or_zero (rakeUnits record).

(** Lines 76-96. *)
Definition getTopConsignors (data : list CanonicalRecord) (limit : option Z)
  : list OrdersEntry.t :=
  let limit := default 10 limit in
  let consignorMap :=
    foldl (fun (m : jsmap string OrdersEntry.t) record =>
      let consignor := or_text (csnr (row record)) "Unknown" in
      let m := if map_has m consignor then m
               else map_set m consignor (OrdersEntry.mk consignor 0 0) in
      match map_get m consignor with
      | Some entry =>
          map_set m consignor
            (OrdersEntry.mk (OrdersEntry.name entry)
               (OrdersEntry.orders entry + 1)
               (OrdersEntry.units entry + unitsOf record))
      | None => m
      end) [] data in
  slice0
    (sort (fun a b => OrdersEntry.orders b - OrdersEntry.orders a)
       (map_values consignorMap))
    limit.

(** Lines 101-121. *)
Definition getTopDestinations (data : list CanonicalRecord) (limit : option Z)
  : list ShipmentsEntry.t :=
  let limit := default 10 limit in
  let destinationMap :=
    foldl (fun (m : jsmap string ShipmentsEntry.t) record =>
      let destination := or_text (dstn (row record)) "Unknown" in
      let m := if map_has m destination then m
               else map_set m destination (ShipmentsEntry.mk destination 0 0) in
      match map_get m destination with
      | Some entry =>
          map_set m destination
            (ShipmentsEntry.mk (ShipmentsEntry.name entry)
               (ShipmentsEntry.shipments entry + 1)
               (ShipmentsEntry.units entry + unitsOf record))
      | None => m
      end) [] data in
  slice0
    (sort (fun a b => ShipmentsEntry.shipments b - ShipmentsEntry.shipments a)
       (map_values destinationMap))
    limit.

(** Lines 149-169. *)
Definition aggregateByRakeType (data : list CanonicalRecord) (limit : option Z)
  : list RakeTypeEntry.t :=
  let limit := default 10 limit in
  let rakeTypeMap :=
    foldl (fun (m : jsmap string RakeTypeEntry.t) record =>
      let rakeType := or_text (indttype (row record)) "Unknown" in
      let m := if map_has m rakeType then m
               else map_set m rakeType (RakeTypeEntry.mk rakeType 0 0) in
      match map_get m rakeType with
      | Some entry =>
          map_set m rakeType
            (RakeTypeEntry.mk (RakeTypeEntry.name entry)
               (RakeTypeEntry.units entry + unitsOf record)
               (RakeTypeEntry.count entry + 1))
      | None => m
      end) [] data in
  slice0
    (sort (fun a b => RakeTypeEntry.units b - RakeTypeEntry.units a)
       (map_values rakeTypeMap))
    limit.

(** Lines 204-224. *)
Definition getConsigneeAnalysis (data : list CanonicalRecord) (limit : option Z)
  : list OrdersEntry.t :=
  let limit := default 10 limit in
  let consigneeMap :=
    foldl (fun (m : jsmap string OrdersEntry.t) record =>
      let consignee := or_text (cnsg (row record)) "Unknown" in
      let m := if map_has m consignee then m
               else map_set m consignee (OrdersEntry.mk consignee 0 0) in
      match map_get m consignee with
      | Some entry =>
          map_set m consignee
            (OrdersEntry.mk (OrdersEntry.name entry)
               (OrdersEntry.orders entry + 1)
               (OrdersEntry.units entry + unitsOf record))
      | None => m
      end) [] data in
  slice0
    (sort (fun a b => OrdersEntry.orders b - OrdersEntry.orders a)
       (map_values consigneeMap))
    limit.

(** Lines 353-370: the [forEach] callback of [getRouteAnalysis]. *)
Definition routeStep (m : jsmap string RouteEntry.t) (record : CanonicalRecord)
  : jsmap string RouteEntry.t :=
  let origin := or_text (sttnfrom (row record)) "Unknown" in
  let destination := or_text (dstn (row record)) "Unknown" in
  let route := origin ++ " → " ++ destination in
  let m := if map_has m route then m
           else map_set m route (RouteEntry.mk route origin destination 0 0) in
  match map_get m route with
  | Some entry =>
      map_set m route
        (RouteEntry.mk (RouteEntry.route entry) (RouteEntry.origin entry)
           (RouteEntry.destination entry)
           (RouteEntry.shipments entry + 1)
           (RouteEntry.units entry + unitsOf record))
  | None => m
  end.

(** Lines 372-373: the ranking, before it is cut. *)
Definition rankedRoutes (data : list CanonicalRecord) : list RouteEntry.t :=
  sort (fun a b => RouteEntry.shipments b - RouteEntry.shipments a)
    (map_values (foldl routeStep [] data)).

(** Lines 350-375. *)
Definition getRouteAnalysis (data : list CanonicalRecord) (limit : option Z)
  : list RouteEntry.t :=
  let limit := default 15 limit in
  slice0 (rankedRoutes data) limit.

(** [String(i).padStart(2, "0")] *)
Definition padStart2 (s : string) : string :=
  if (String.length s <? 2)%nat then
    (if (String.length s <? 1)%nat then "00" else "0" ++ s)
  else s.

(** Lines 256-261: [hourMap] with all hours set, in the order 0 to 23. *)
Definition initialHours : jsmap Z HourEntry.t :=
  foldl (fun m i => map_set m i (HourEntry.mk (padStart2 (pretty i) ++ ":00") 0))
    [] (seqZ 0 24).

(** Lines 263-272: the [forEach] callback.  The comparison
    [hour >= 0 && hour < 24] is false for [NaN]. *)
Definition hourStep (hourMap : jsmap Z HourEntry.t) (record : CanonicalRecord)
  : jsmap Z HourEntry.t :=
  match Js.or (dmndtime (row record)) (time (row record)) with
  | Str timeStr =>
      if String.eqb timeStr "" then hourMap
      else
        match parseInt_text (before_colon timeStr) with
        | Int hour =>
            if (0 <=? hour) && (hour <? 24) then
              match map_get hourMap hour with
              | Some entry =>
                  map_set hourMap hour
                    (HourEntry.mk (HourEntry.hour entry)
                       (HourEntry.orders entry + 1))
              | None => hourMap
              end
            else hourMap
        | NaN => hourMap
        end
  | _ => hourMap
  end.

(** Lines 252-275. *)
Definition getTimeDistribution (data : list CanonicalRecord)
  : list HourEntry.t :=
  map_values (foldl hourStep initialHours data).

(** ** The service of Railwayapiservice.js *)

(** [API_CONFIG], lines 7-36. *)
Module API_CONFIG.
Definition zones : list string :=
  ["CR"; "DFCCR"; "EC"; "ECO"; "ER"; "KR"; "NC"; "NE"; "NR"; "NW"; "SC";
   "SE"; "SEC"; "SR"; "SW"; "WC"; "WR"].
Definition queryTypes : list string :=
  ["MATURED_INDENTS"; "ODR_RK_OTSG"; "DEMAND_REGISTERED"].
Definition retryAttempts : nat := 3.
End API_CONFIG.

(** The address of an array in the heap. *)
Abbreviation aref := nat.

(** What the network does with one request. *)
Inductive Response :=
| NetworkError (msg : string)
| Http (status : Z) (body : option json).

(** One call of the global [fetch]: the partition named in the request
    body, the number of earlier calls for the same partition, and whether
    the request left (it does not when the signal is already aborted). *)
Record FetchCall := {
  fc_zone : string; fc_qry : string; fc_seq : nat; fc_sent : bool }.

(** The object handed to [onProgress], lines 150-159 and 166-175.  The
    field [percentage] is a rounded floating-point quotient and is left
    out. *)
Record ProgressEvent := {
  completed : nat;
  total : nat;
  pzone : string;
  pqueryType : string;
  recordsFetched : option nat;
  error : option string }.

(** What the service does to the outside, in order: a partition's [map]
    callback starts, [fetch] is called, [onProgress] is called, and
    [cancelFetch] aborts the controller. *)
Inductive Effect :=
| EStart (zone_ queryType : string)
| EFetch (c : FetchCall)
| EProgress (p : ProgressEvent)
| ECancel.

#[global] Instance FetchCall_eq_dec : EqDecision FetchCall.
Proof. solve_decision. Defined.
#[global] Instance ProgressEvent_eq_dec : EqDecision ProgressEvent.
Proof. solve_decision. Defined.
#[global] Instance Effect_eq_dec : EqDecision Effect.
Proof. solve_decision. Defined.

(** The fields of the service object ([cache], [isFetching],
    [abortController]) and the part of the program state they refer to:
    the heap of arrays, the abort flags of the controllers created so
    far, the effects so far, and the number of scheduler steps taken. *)
Record World := {
  cache : gmap string aref;
  isFetching : bool;
  abortController : option nat;
  heap : list (list CanonicalRecord);
  controllers : list bool;
  trace : list Effect;
  now : nat }.

(** [new RailwayApiService()], lines 39-43, in an empty program state. *)
Definition initial : World :=
  {| cache := ∅; isFetching := false; abortController := None;
     heap := []; controllers := []; trace := []; now := 0 |}.

Definition set_cache (c : gmap string aref) (w : World) : World :=
  {| cache := c; isFetching := isFetching w;
     abortController := abortController w; heap := heap w;
     controllers := controllers w; trace := trace w; now := now w |}.

Definition set_isFetching (b : bool) (w : World) : World :=
  {| cache := cache w; isFetching := b;
     abortController := abortController w; heap := heap w;
     controllers := controllers w; trace := trace w; now := now w |}.

Definition emit (e : Effect) (w : World) : World :=
  {| cache := cache w; isFetching := isFetching w;
     abortController := abortController w; heap := heap w;
     controllers := controllers w; trace := trace w ++ [e]; now := now w |}.

Definition tick (w : World) : World :=
  {| cache := cache w; isFetching := isFetching w;
     abortController := abortController w; heap := heap w;
     controllers := controllers w; trace := trace w; now := S (now w) |}.

(** A new array. *)
Definition alloc (a : list CanonicalRecord) (w : World) : aref * World :=
  (length (heap w),
   {| cache := cache w; isFetching := isFetching w;
      abortController := abortController w; heap := heap w ++ [a];
      controllers := controllers w; trace := trace w; now := now w |}).

(** The contents of an array. *)
Definition array (r : aref) (w : World) : list CanonicalRecord :=
  default [] (heap w !! r).

(** A caller that holds the address of an array changes it in place
    ([push], [pop], [length = 0], [sort], ...). *)
Definition mutate (r : aref)
    (f : list CanonicalRecord -> list CanonicalRecord) (w : World) : World :=
  {| cache := cache w; isFetching := isFetching w;
     abortController := abortController w;
     heap := <[r := f (array r w)]> (heap w);
     controllers := controllers w; trace := trace w; now := now w |}.

(** [new AbortController()], stored in [this.abortController]. *)
Definition newAbortController (w : World) : nat * World :=
  (length (controllers w),
   {| cache := cache w; isFetching := isFetching w;
      abortController := Some (length (controllers w)); heap := heap w;
      controllers := controllers w ++ [false]; trace := trace w;
      now := now w |}).

(** [signal.aborted]; a call without a signal cannot be aborted. *)
Definition aborted (signal : option nat) (w : World) : bool :=
  match signal with
  | Some c => default false (controllers w !! c)
  | None => false
  end.

(** Lines 257-262. *)
Definition cancelFetch (w : World) : World :=
  match abortController w with
  | Some c =>
      {| cache := cache w; isFetching := false;
         abortController := abortController w; heap := heap w;
         controllers := <[c := true]> (controllers w);
         trace := trace w ++ [ECancel]; now := now w |}
  | None => w
  end.


(** Lines 274-283. *)
Definition getCacheSize (w : World) : nat * nat :=
  (size (cache w),
   map_fold (fun _ r total_ => (total_ + length (array r w))%nat) 0%nat (cache w)).

Definition is_fetch_of (zone_ queryType : string) (e : Effect) : bool :=
  match e with
  | EFetch c => bool_decide (fc_zone c = zone_ /\ fc_qry c = queryType)
  | _ => false
  end.

Definition is_fetch (e : Effect) : option FetchCall :=
  match e with EFetch c => Some c | _ => None end.

Definition is_progress (e : Effect) : option ProgressEvent :=
  match e with EProgress p => Some p | _ => None end.

Definition is_start (e : Effect) : option (string * string) :=
  match e with EStart z q => Some (z, q) | _ => None end.

(** The calls of [fetch], the calls of [onProgress] and the partitions
    started, in order. *)
Definition fetchLog (w : World) : list FetchCall := omap is_fetch (trace w).
Definition progressLog (w : World) : list ProgressEvent :=
  omap is_progress (trace w).
Definition startLog (w : World) : list (string * string) :=
  omap is_start (trace w).

(** The states in which an invocation of [fetchZoneData] waits, and its
    settled state. *)
Inductive ZoneFetch :=
| InFlight (attempt : nat) (c : FetchCall)
| Backoff (attempt : nat)
| Returned (r : result aref).

(** The [map] callback of [fetchBatchData] for one zone: it awaits
    [fetchZoneData], or its promise is fulfilled with an array. *)
Inductive TaskState :=
| Awaiting (f : ZoneFetch)
| Fulfilled (data : aref).

Record Task := { t_zone : string; t_qry : string; t_state : TaskState }.

(** The local variables of [fetchBatchData] that change, with the
    program state. *)
Record Batch := {
  world : World;
  completedRequests : nat;
  allData : list CanonicalRecord }.

(** The object [fetchAllData] and [fetchSelectedZones] resolve with; the
    field [timestamp] of the success case is the wall clock and is left
    out. *)
Record FetchResult := {
  success : bool;
  error_ : option string;
  data : list CanonicalRecord;
  totalRecords : nat }.

(** What is outside the program: the date functions of the engine, the
    answer of the network to the [n]-th request for a partition, the
    choice of the pending task that is resumed next, and the number of
    completed partitions after which the user cancels, if ever. *)
Record Env := {
  dates : DateRuntime;
  network : string -> string -> nat -> Response;
  schedule : nat -> nat;
  cancelAt : option nat }.

Section Service.
Context (env : Env).

(** Line 74. *)
Definition cacheKey (zone_ queryType : string) : string :=
  zone_ ++ "-" ++ queryType.

(** The call [fetch(url, options)] of line 50; the answer comes at a
    later step. *)
Definition fetch (zone_ queryType : string) (signal : option nat) (w : World)
  : FetchCall * World :=
  let c := {| fc_zone := zone_; fc_qry := queryType;
              fc_seq := length (List.filter (is_fetch_of zone_ queryType) (trace w));
              fc_sent := negb (aborted signal w) |} in
  (c, emit (EFetch c) w).

Definition AbortError : exn :=
  Exn "AbortError" "signal is aborted without reason".

(** Lines 50-57: what the [try] block of [fetchWithRetry] yields once the
    request is answered.  An aborted signal rejects the call. *)
Definition answer (signal : option nat) (c : FetchCall) (w : World)
  : result json :=
  if aborted signal w then Throw AbortError
  else
    match network env (fc_zone c) (fc_qry c) (fc_seq c) with
    | NetworkError msg => Throw (TypeError msg)
    | Http status body =>
        if (200 <=? status) && (status <=? 299) then
          match body with
          | Some response => Ok response
          | None => Throw (Exn "SyntaxError" "Unexpected token in JSON")
          end
        else Throw (Exn "Error" ("HTTP error! status: " ++ pretty status))
    end.

(** Lines 117-123: the [catch] of [fetchZoneData] returns a new empty
    array. *)
Definition fetchZoneData_catch (e : exn) (w : World) : ZoneFetch * World :=
  let '(r, w) := alloc [] w in (Returned (Ok r), w).

(** Lines 73-95, up to the first [await]: the cache is consulted and, on
    a miss, the first request is made. *)
Definition fetchZoneData_begin (zone_ queryType : string)
    (signal : option nat) (w : World) : ZoneFetch * World :=
  match cache w !! cacheKey zone_ queryType with
  | Some r => (Returned (Ok r), w)
  | None =>
      let '(c, w) := fetch zone_ queryType signal w in (InFlight 1 c, w)
  end.

(** One resumption of a waiting [fetchZoneData].
    - The pending request is answered: a failure is retried after a
      delay while [attempt < retryAttempts] (lines 58-67) and otherwise
      reaches the [catch] of [fetchZoneData]; a success is processed,
      cached and returned (lines 97-116), and an exception thrown by the
      processing reaches the same [catch].
    - The retry timer fires: [fetchWithRetry] is entered again with
      [attempt + 1]. *)
Definition fetchZoneData_resume (zone_ queryType : string)
    (signal : option nat) (f : ZoneFetch) (w : World) : ZoneFetch * World :=
  match f with
  | InFlight attempt c =>
      match answer signal c w with
      | Throw e =>
          if (attempt <? API_CONFIG.retryAttempts)%nat then (Backoff attempt, w)
          else fetchZoneData_catch e w
      | Ok response =>
          match processData (dates env) queryType zone_ response with
          | Ok processedData =>
              let '(r, w) := alloc processedData w in
              (Returned (Ok r),
               set_cache (<[cacheKey zone_ queryType := r]> (cache w)) w)
          | Throw e => fetchZoneData_catch e w
          end
      end
  | Backoff attempt =>
      let '(c, w) := fetch zone_ queryType signal w in
      (InFlight (S attempt) c, w)
  | Returned r => (Returned r, w)
  end.

(** [await] of a single [fetchZoneData] while nothing else runs. *)
Fixpoint fetchZoneData_await (fuel : nat) (zone_ queryType : string)
    (signal : option nat) (f : ZoneFetch) (w : World)
  : option (result aref * World) :=
  match f with
  | Returned r => Some (r, w)
  | _ =>
      match fuel with
      | O => None
      | S fuel =>
          let '(f, w) := fetchZoneData_resume zone_ queryType signal f w in
          fetchZoneData_await fuel zone_ queryType signal f w
      end
  end.

(** Lines 73-124, called on its own. *)
Definition fetchZoneData (zone_ queryType : string) (signal : option nat)
    (w : World) : option (result aref * World) :=
  let '(f, w) := fetchZoneData_begin zone_ queryType signal w in
  fetchZoneData_await (2 * API_CONFIG.retryAttempts) zone_ queryType signal f w.

(** The user cancels when [cancelAt] partitions have completed, once. *)
Definition userCancel (signal : option nat) (b : Batch) : Batch :=
  if bool_decide (cancelAt env = Some (completedRequests b))
     && negb (aborted signal (world b))
  then {| world := cancelFetch (world b);
          completedRequests := completedRequests b;
          allData := allData b |}
  else b.

Section Batch.
Context (onProgress : bool) (totalRequests : nat) (signal : option nat).

(** Lines 145-178: the rest of the [map] callback once [fetchZoneData]
    has settled. *)
Definition afterFetch (zone_ queryType : string) (r : result aref) (b : Batch)
  : aref * Batch :=
  let completedRequests := S (completedRequests b) in
  match r with
  | Ok data_ =>
      let w :=
        if onProgress then
          emit (EProgress
            {| completed := completedRequests; total := totalRequests;
               pzone := zone_; pqueryType := queryType;
               recordsFetched := Some (length (array data_ (world b)));
               error := None |}) (world b)
        else world b in
      (data_, {| world := w; completedRequests := completedRequests;
                 allData := allData b |})
  | Throw e =>
      let w :=
        if onProgress then
          emit (EProgress
            {| completed := completedRequests; total := totalRequests;
               pzone := zone_; pqueryType := queryType;
               recordsFetched := None;
               error := Some (exn_message e) |}) (world b)
        else world b in
      let '(r, w) := alloc [] w in
      (r, {| world := w; completedRequests := completedRequests;
             allData := allData b |})
  end.

(** Line 144, the synchronous part of one [map] callback. *)
Definition startTask (queryType : string) (b : Batch) (zone_ : string)
  : Task * Batch :=
  let '(f, w) :=
    fetchZoneData_begin zone_ queryType signal (emit (EStart zone_ queryType) (world b)) in
  ({| t_zone := zone_; t_qry := queryType; t_state := Awaiting f |},
   {| world := w; completedRequests := completedRequests b;
      allData := allData b |}).

(** One resumption of a task.  When [fetchZoneData] settles, the rest of
    the callback runs at once; the user may cancel right after it. *)
Definition stepTask (t : Task) (b : Batch) : Task * Batch :=
  match t_state t with
  | Fulfilled _ => (t, b)
  | Awaiting f =>
      let '(f, w) :=
        fetchZoneData_resume (t_zone t) (t_qry t) signal f (world b) in
      let b := {| world := w; completedRequests := completedRequests b;
                  allData := allData b |} in
      match f with
      | Returned r =>
          let '(data_, b) := afterFetch (t_zone t) (t_qry t) r b in
          ({| t_zone := t_zone t; t_qry := t_qry t;
              t_state := Fulfilled data_ |},
           userCancel signal b)
      | _ =>
          ({| t_zone := t_zone t; t_qry := t_qry t; t_state := Awaiting f |}, b)
      end
  end.

(** A task whose [fetchZoneData] has settled runs before anything that
    waits for the network or a timer. *)
Definition isReady (t : Task) : bool :=
  match t_state t with Awaiting (Returned _) => true | _ => false end.

Definition isWaiting (t : Task) : bool :=
  match t_state t with Awaiting _ => true | Fulfilled _ => false end.

Fixpoint indicesWhere (p : Task -> bool) (i : nat) (ts : list Task)
  : list nat :=
  match ts with
  | [] => []
  | t :: r =>
      if p t then i :: indicesWhere p (S i) r else indicesWhere p (S i) r
  end.

(** The next task to resume: the first one that is ready, else the
    waiting one that the environment chooses. *)
Definition pickTask (ts : list Task) (n : nat) : option nat :=
  match indicesWhere isReady 0 ts with
  | i :: _ => Some i
  | [] =>
      let waiting := indicesWhere isWaiting 0 ts in
      waiting !! (schedule env n `mod` length waiting)%nat
  end.

Definition tickBatch (b : Batch) : Batch :=
  {| world := tick (world b); completedRequests := completedRequests b;
     allData := allData b |}.

(** The resumptions a task can still need. *)
Definition work (t : Task) : nat :=
  match t_state t with
  | Fulfilled _ => 0
  | Awaiting (Returned _) => 1
  | Awaiting (InFlight attempt _) =>
      2 * (API_CONFIG.retryAttempts - attempt) + 1
  | Awaiting (Backoff attempt) =>
      2 * (API_CONFIG.retryAttempts - S attempt) + 2
  end%nat.

(** The event loop while [Promise.all] waits (line 181).  Between two
    resumptions the user may cancel, though not while a settled task is
    still queued. *)
Fixpoint runTasks (fuel : nat) (ts : list Task) (b : Batch)
  : list Task * Batch :=
  match fuel with
  | O => (ts, b)
  | S fuel =>
      let b := if existsb isReady ts then b else userCancel signal b in
      match pickTask ts (now (world b)) with
      | None => (ts, b)
      | Some i =>
          match ts !! i with
          | None => (ts, b)
          | Some t =>
              let '(t, b) := stepTask t (tickBatch b) in
              runTasks fuel (<[i := t]> ts) b
          end
      end
  end.

(** Line 144: [zoneBatch.map(async (zone) => ...)] runs each callback up
    to its first [await], in the order of the zones. *)
Fixpoint startTasks (queryType : string) (zoneBatch : list string) (b : Batch)
  : list Task * Batch :=
  match zoneBatch with
  | [] => ([], b)
  | zone_ :: rest =>
      let '(t, b) := startTask queryType b zone_ in
      let '(ts, b) := startTasks queryType rest b in
      (t :: ts, b)
  end.

(** The arrays [Promise.all] resolves with, in the order of the zones;
    [None] while a task is not fulfilled. *)
Definition batchResults (ts : list Task) : option (list aref) :=
  mapM (fun t => match t_state t with
                 | Fulfilled r => Some r
                 | Awaiting _ => None
                 end) ts.

(** Lines 143-188, the body of the inner loop for one query type: start
    the callbacks, await them all, append their arrays to [allData].
    [None]: [Promise.all] never resolves.  The 500 ms pause that follows
    (lines 185-187) has no effect on the state. *)
Definition runGroup (zoneBatch : list string) (b : Batch) (queryType : string)
  : option Batch :=
  let '(ts, b) := startTasks queryType zoneBatch b in
  let '(ts, b) := runTasks (list_sum (work <$> ts)) ts b in
  match batchResults ts with
  | Some rs =>
      Some {| world := world b; completedRequests := completedRequests b;
              allData := allData b ++ concat ((fun r => array r (world b)) <$> rs) |}
  | None => None
  end.

End Batch.

(** A loop whose body may not return. *)
Fixpoint forM {A} (body : Batch -> A -> option Batch) (l : list A) (b : Batch)
  : option Batch :=
  match l with
  | [] => Some b
  | x :: r =>
      match body b x with
      | Some b => forM body r b
      | None => None
      end
  end.

Definition batchSize : nat := 3.

(** Lines 140-141: the slices [zones.slice(i, i + batchSize)] for
    [i = 0, batchSize, 2 * batchSize, ...] while [i < zones.length]. *)
Definition zoneBatches (zones : list string) : list (list string) :=
  (fun j => take batchSize (drop (j * batchSize) zones))
    <$> seq 0 ((length zones + batchSize - 1) / batchSize)%nat.

(** Lines 129-192. *)
Definition fetchBatchData (zones queryTypes : list string) (onProgress : bool)
    (w : World) : option (list CanonicalRecord * World) :=
  let '(c, w) := newAbortController w in
  let signal := Some c in
  let totalRequests := (length zones * length queryTypes)%nat in
  match
    forM (fun b zoneBatch =>
            forM (runGroup onProgress totalRequests signal zoneBatch)
              queryTypes b)
      (zoneBatches zones)
      {| world := w; completedRequests := 0; allData := [] |}
  with
  | Some b => Some (allData b, world b)
  | None => None
  end.

(** Lines 229-252.  Nothing in [fetchBatchData] throws (the callbacks
    catch, and the progress callback is an observer that returns), so
    the [catch] branch, which would resolve with [success: false], has
    no way in. *)
Definition fetchSelectedZones (zones queryTypes : list string)
    (onProgress : bool) (w : World) : option (FetchResult * World) :=
  let w := set_isFetching true w in
  match fetchBatchData zones queryTypes onProgress w with
  | Some (data_, w) =>
      Some ({| success := true; error_ := None; data := data_;
               totalRecords := length data_ |},
            set_isFetching false w)
  | None => None
  end.

(** Lines 197-224: the same with the zones and query types of
    [API_CONFIG]. *)
Definition fetchAllData (onProgress : bool) (w : World)
  : option (FetchResult * World) :=
  let w := set_isFetching true w in
  match fetchBatchData API_CONFIG.zones API_CONFIG.queryTypes onProgress w with
  | Some (data_, w) =>
      Some ({| success := true; error_ := None; data := data_;
               totalRecords := length data_ |},
            set_isFetching false w)
  | None => None
  end.

End Service.

(** ** Reference definitions and sample inputs *)

(** A row of the outstanding-demand schema, used to evaluate the code. *)
Definition sampleRow : RawRow :=
  {| dvsn := Str "BSL"; sttnfrom := Str "BSL"; dmnddate := Str "2024-03-15";
     dmndtime := Str "07:30"; time := Undefined; csnr := Str "ACME";
     cnsg := Null; cmdt := Str "COAL"; rakecmdt := Undefined;
     dstn := Str "NGP"; pc := Str "C"; indttype := Str "BOXN";
     indtunit := Undefined; indt8w := Undefined; ostgunit := Str "2";
     ostg8w := Str "58" |}.


Definition with_dmnddate (v : field) (r : RawRow) : RawRow :=
  {| dvsn := dvsn r; sttnfrom := sttnfrom r; dmnddate := v;
     dmndtime := dmndtime r; time := time r; csnr := csnr r; cnsg := cnsg r;
     cmdt := cmdt r; rakecmdt := rakecmdt r; dstn := dstn r; pc := pc r;
     indttype := indttype r; indtunit := indtunit r; indt8w := indt8w r;
     ostgunit := ostgunit r; ostg8w := ostg8w r |}.

Definition with_sttnfrom (v : field) (r : RawRow) : RawRow :=
  {| dvsn := dvsn r; sttnfrom := v; dmnddate := dmnddate r;
     dmndtime := dmndtime r; time := time r; csnr := csnr r; cnsg := cnsg r;
     cmdt := cmdt r; rakecmdt := rakecmdt r; dstn := dstn r; pc := pc r;
     indttype := indttype r; indtunit := indtunit r; indt8w := indt8w r;
     ostgunit := ostgunit r; ostg8w := ostg8w r |}.




(** Thirteen records with thirteen different routes. *)
Definition thirteenRoutes : list CanonicalRecord :=
  (fun i => normalize IsoDate.runtime "ODR_RK_OTSG" "CR"
              (with_sttnfrom (Str (pretty i)) sampleRow)) <$> seqZ 0 13.

(** The partitions of one group: the zones of a batch with one query
    type. *)
Definition group (zoneBatch : list string) (q : string)
  : list (string * string) :=
  (fun z : string => (z, q)) <$> zoneBatch.

(** The partitions of one zone batch: a group for each query type. *)
Definition batchPartitions (queryTypes zoneBatch : list string)
  : list (string * string) :=
  concat (group zoneBatch <$> queryTypes).

(** The partitions in the order of the loops of [fetchBatchData]: zone
    batches outermost, query types within a batch, zones innermost. *)
Definition partitions (zones queryTypes : list string)
  : list (string * string) :=
  concat (batchPartitions queryTypes <$> zoneBatches zones).


(** The batch after [Promise.all] has resolved with the arrays [rs]
    (line 182). *)
Definition collect (rs : list aref) (b : Batch) : Batch :=
  {| world := world b; completedRequests := completedRequests b;
     allData := allData b ++ concat ((fun r => array r (world b)) <$> rs) |}.

(** A network that answers every request with one row, and an
    environment in which the user never cancels. *)
Definition oneRowNetwork (zone_ queryType : string) (n : nat) : Response :=
  Http 200 (Some (JRows [Some sampleRow])).

Definition calmEnv : Env :=
  {| dates := IsoDate.runtime; network := oneRowNetwork;
     schedule := fun _ => 0%nat; cancelAt := None |}.

(** The state after a first, successful [fetchZoneData]. *)
Definition afterFirstFetch : World :=
  match fetchZoneData calmEnv "CR" "ODR_RK_OTSG" None initial with
  | Some (_, w) => w
  | None => initial
  end.

(** Every request for the partition fails: the signal is aborted, or the
    network never answers it with a successful response that is JSON. *)
Definition rejects (env : Env) (signal : option nat) (w : World)
    (zone_ queryType : string) : Prop :=
  aborted signal w = true \/
  forall n,
    match network env zone_ queryType n with
    | Http status (Some _) => (200 <=? status) && (status <=? 299) = false
    | _ => True
    end.




(** A network on which every request fails, and one user who cancels
    before anything has completed. *)
Definition deadNetwork (zone_ queryType : string) (n : nat) : Response :=
  NetworkError "Failed to fetch".

Definition deadEnv : Env :=
  {| dates := IsoDate.runtime; network := deadNetwork;
     schedule := fun n => n; cancelAt := None |}.

Definition cancelledEnv : Env :=
  {| dates := IsoDate.runtime; network := oneRowNetwork;
     schedule := fun n => n; cancelAt := Some 0%nat |}.

(** A pending request of a [fetchZoneData] is for its partition. *)
Definition pending_for (zone_ queryType : string) (f : ZoneFetch) : Prop :=
  forall a c, f = InFlight a c -> fc_zone c = zone_ /\ fc_qry c = queryType.

(** Scenario C: two zones, two query types, and a network on which
    every request for the partition (ER, MATURED_INDENTS) fails. *)
Definition scenarioC_network (zone_ queryType : string) (n : nat) : Response :=
  if String.eqb zone_ "ER" && String.eqb queryType "MATURED_INDENTS"
  then NetworkError "Failed to fetch"
  else Http 200 (Some (JRows [Some sampleRow])).

Definition scenarioC : Env :=
  {| dates := IsoDate.runtime; network := scenarioC_network;
     schedule := fun n => n; cancelAt := None |}.

(** No call of [onProgress] so far carried an error message. *)
Definition no_error_reported (w : World) : Prop :=
  Forall (fun p => error p = None) (progressLog w).

(** The task has not settled with an exception. *)
Definition task_settles_ok (t : Task) : Prop :=
  match t_state t with
  | Awaiting (Returned (Throw _)) => False
  | _ => True
  end.

(** The groups of a batch run, in the order of the loops: for each zone
    batch, one group per query type. *)
Definition groups (zones queryTypes : list string)
  : list (list (string * string)) :=
  concat ((fun zoneBatch => group zoneBatch <$> queryTypes) <$> zoneBatches zones).

(** The starts and the completions in a trace: a partition's callback
    starts, or [onProgress] is called with a count of completed
    requests. *)
Inductive Mark :=
| Started (zone_ queryType : string)
| Completed (n : nat).

Definition mark (e : Effect) : option Mark :=
  match e with
  | EStart z q => Some (Started z q)
  | EProgress p => Some (Completed (completed p))
  | _ => None
  end.

Definition marks (w : World) : list Mark := omap mark (trace w).

(** Group after group: the partitions of the group start, then (when
    there is a progress callback) as many completions are reported,
    numbered on from the count so far. *)
Fixpoint groupMarks (onProgress : bool) (offset : nat)
    (gs : list (list (string * string))) : list Mark :=
  match gs with
  | [] => []
  | g :: rest =>
      ((fun p : string * string => Started p.1 p.2) <$> g)
      ++ (if onProgress then Completed <$> seq (S offset) (length g) else [])
      ++ groupMarks onProgress (offset + length g) rest
  end.


Definition completedOf (m : Mark) : option nat :=
  match m with
  | Started _ _ => None
  | Completed n => Some n
  end.

(** Four zones (two zone batches) and two query types. *)
Definition fourZones : list string := ["CR"; "ER"; "NR"; "SR"].
Definition twoQueryTypes : list string := ["MATURED_INDENTS"; "ODR_RK_OTSG"].



(** No request leaves after a cancellation: every call of [fetch] that
    follows a cancellation is rejected by the aborted signal. *)
Definition unsent_after_cancel (l : list Effect) : Prop :=
  forall l1 l2 c, l = (l1 ++ ECancel :: l2)%list -> EFetch c ∈ l2 ->
    fc_sent c = false.

(** Every completion reported after a cancellation reports no records. *)
Definition empty_after_cancel (l : list Effect) : Prop :=
  forall l1 l2 p, l = (l1 ++ ECancel :: l2)%list -> EProgress p ∈ l2 ->
    recordsFetched p = Some 0%nat.

(** The partition of a task, and the cache key of a partition. *)
Definition part (t : Task) : string * string := (t_zone t, t_qry t).
Definition keyOf (p : string * string) : string := cacheKey p.1 p.2.

(** The records the cache holds for a key, none when it has no entry. *)
Definition cachedRecords (w : World) (k : string) : list CanonicalRecord :=
  match cache w !! k with
  | Some r => array r w
  | None => []
  end.

(** None of the partitions is cached before the batch, and no two of
    them share a cache key. *)
Definition fresh (w : World) (plan : list (string * string)) : Prop :=
  NoDup (keyOf <$> plan) /\
  forall p, p ∈ plan -> cache w !! keyOf p = None.

(** What holds of a task of a batch none of whose partitions was cached:
    a task that waits has no cache entry and [fetchZoneData] has not
    settled for it; a fulfilled task holds a valid array, the one the
    cache holds for its partition if any and an empty one otherwise. *)
Definition task_ok (w : World) (t : Task) : Prop :=
  match t_state t with
  | Fulfilled r =>
      (r < length (heap w))%nat /\ array r w = cachedRecords w (keyOf (part t))
  | Awaiting (Returned _) => False
  | Awaiting _ => cache w !! keyOf (part t) = None
  end.

(** ** Measures and invariants of a running batch *)

(** Every state [fetchZoneData] settles in is a returned array: the
    [catch] of lines 117-123 leaves no exception. *)
Definition settles_ok (f : ZoneFetch) : Prop :=
  match f with
  | Returned (Throw _) => False
  | _ => True
  end.

(** The resumptions a waiting [fetchZoneData] can still need. *)
Definition fetchWork (f : ZoneFetch) : nat :=
  match f with
  | Returned _ => 0
  | InFlight a _ => 2 * (API_CONFIG.retryAttempts - a) + 1
  | Backoff a => 2 * (API_CONFIG.retryAttempts - S a) + 2
  end%nat.

(** The states of a waiting [fetchZoneData] for the partition. *)
Definition waits_for (z q : string) (f : ZoneFetch) : Prop :=
  match f with
  | InFlight _ c => fc_zone c = z /\ fc_qry c = q
  | Backoff _ => True
  | Returned _ => False
  end.

(** The number of tasks of a group that are not fulfilled. *)
Definition waitingCount (ts : list Task) : nat :=
  list_sum ((fun t => if isWaiting t then 1%nat else 0%nat) <$> ts).

(** While a group runs: the completions reported since its start are
    numbered on from the count at its start, and each task is either
    waiting or counted. *)
Definition groupInv (onProgress : bool) (marks0 : list Mark) (count0 size : nat)
    (allData0 : list CanonicalRecord) (started : list (string * string)) (ts : list Task)
    (b : Batch) : Prop :=
  allData b = allData0 /\
  (completedRequests b + waitingCount ts = count0 + size)%nat /\
  (count0 <= completedRequests b)%nat /\
  marks (world b)
  = (marks0 ++ (if onProgress
                then Completed <$> seq (S count0) (completedRequests b - count0)
                else []))%list.

(** While a batch runs: no error message was reported and no task has
    settled with an exception. *)
Definition noErrorInv (started : list (string * string)) (ts : list Task)
    (b : Batch) : Prop :=
  no_error_reported (world b) /\ Forall task_settles_ok ts.


(** While a batch runs whose partitions were not cached: [l] are its
    effects so far; no request left and no records were reported after a
    cancellation; a cancellation has aborted the signal; the cache
    entries of the batch's partitions belong to partitions that have
    started and hold valid arrays; and the records merged so far are
    those the cache holds for the partitions of the groups that are
    complete. *)
Definition cancelInv (c0 : nat) (w0 : World) (plan : list (string * string))
    (started : list (string * string)) (ts : list Task)
    (b : Batch) : Prop :=
  exists l done_,
    trace (world b) = (trace w0 ++ l)%list /\
    abortController (world b) = Some c0 /\
    (c0 < length (controllers (world b)))%nat /\
    unsent_after_cancel l /\ empty_after_cancel l /\
    (ECancel ∈ l -> aborted (Some c0) (world b) = true) /\
    (exists rest, plan = (started ++ rest)%list) /\
    (forall k r, cache (world b) !! k = Some r -> k ∈ keyOf <$> plan ->
       k ∈ keyOf <$> started /\ (r < length (heap (world b)))%nat) /\
    started = (done_ ++ (part <$> ts))%list /\
    allData b = concat (cachedRecords (world b) ∘ keyOf <$> done_) /\
    Forall (task_ok (world b)) ts.




(** ** The other reducers and helpers of Dataprocessing.js *)

(** [{ month, year, monthNum, demands, units }]; [month] is [undefined]
    when [monthNames] has no element at the record's month. *)
Module MonthEntry.
Record t := mk {
  month : option string; year : option number; monthNum : number;
  demands : Z; units : Z }.
End MonthEntry.

(** [{ name, value, units }] *)
Module CommodityEntry.
Record t := mk { name : string; value : Z; units : Z }.
End CommodityEntry.

(** [{ zone, orders, units }] *)
Module ZoneEntry.
Record t := mk { zone : string; orders : Z; units : Z }.
End ZoneEntry.

(** [{ division, orders, totalUnits, avgUnits }] *)
Module DivisionEntry.
Record t := mk { division : string; orders : Z; totalUnits : Z; avgUnits : Z }.
End DivisionEntry.

(** [{ name, count, units }] *)
Module QueryTypeEntry.
Record t := mk { name : string; count : Z; units : Z }.
End QueryTypeEntry.

(** [{ name, count }] *)
Module PriorityEntry.
Record t := mk { name : string; count : Z }.
End PriorityEntry.

(** Lines 10-23. *)
Definition monthNames : list string :=
  ["Jan"; "Feb"; "Mar"; "Apr"; "May"; "Jun"; "Jul"; "Aug"; "Sep"; "Oct";
   "Nov"; "Dec"].

(** A number, and a number or [null], inside a template literal. *)
Definition number_text (n : number) : string :=
  match n with
  | NaN => "NaN"
  | Int z => pretty z
  end.

Definition nullable_text (v : option number) : string :=
  match v with
  | None => "null"
  | Some n => number_text n
  end.

(** [monthNames[n]]: [undefined] unless [n] is an index of the array. *)
Definition monthName (n : number) : option string :=
  match n with
  | Int z => if z <? 0 then None else monthNames !! Z.to_nat z
  | NaN => None
  end.

(** [a !== b] on numbers that may be [null]: [NaN] differs from itself. *)
Definition strict_neq (a b : option number) : bool :=
  match a, b with
  | None, None => false
  | Some (Int x), Some (Int y) => negb (x =? y)
  | _, _ => true
  end.

(** [a - b]; [null] converts to 0. *)
Definition to_number (v : option number) : number :=
  match v with
  | None => Int 0
  | Some n => n
  end.

Definition sub (a b : number) : number :=
  match a, b with
  | Int x, Int y => Int (x - y)
  | _, _ => NaN
  end.

(** What [sort] makes of the value its comparator returns: [NaN] counts
    as 0. *)
Definition sortCompare (v : number) : Z :=
  match v with
  | NaN => 0
  | Int z => z
  end.

(** Lines 44-47: the comparator of [aggregateByMonth]. *)
Definition compareMonths (a b : MonthEntry.t) : number :=
  if strict_neq (MonthEntry.year a) (MonthEntry.year b)
  then sub (to_number (MonthEntry.year a)) (to_number (MonthEntry.year b))
  else sub (MonthEntry.monthNum a) (MonthEntry.monthNum b).

(** Lines 26-42: the [forEach] callback of [aggregateByMonth]. *)
Definition monthStep (m : jsmap string MonthEntry.t) (record : CanonicalRecord)
  : jsmap string MonthEntry.t :=
  match month record with
  | None => m
  | Some mo =>
      let key := nullable_text (year record) ++ "-" ++ number_text mo in
      let m := if map_has m key then m
               else map_set m key
                      (MonthEntry.mk (monthName mo) (year record) mo 0 0) in
      match map_get m key with
      | Some entry =>
          map_set m key
            (MonthEntry.mk (MonthEntry.month entry) (MonthEntry.year entry)
               (MonthEntry.monthNum entry)
               (MonthEntry.demands entry + 1)
               (MonthEntry.units entry + unitsOf record))
      | None => m
      end
  end.

(** Lines 9-48.  The order [sort] gives is that of a stable sort when the
    comparator is consistent, which it is on entries whose years and
    months are integers; with a [NaN] among them the engine may order
    the entries differently. *)
Definition aggregateByMonth (data : list CanonicalRecord)
  : list MonthEntry.t :=
  sort (fun a b => sortCompare (compareMonths a b))
    (map_values (foldl monthStep [] data)).

(** Lines 53-71. *)
Definition aggregateByCommodity (data : list CanonicalRecord)
  : list CommodityEntry.t :=
  let commodityMap :=
    foldl (fun (m : jsmap string CommodityEntry.t) record =>
      let commodity :=
        or_text (Js.or (cmdt (row record)) (rakecmdt (row record))) "Unknown" in
      let m := if map_has m commodity then m
               else map_set m commodity (CommodityEntry.mk commodity 0 0) in
      match map_get m commodity with
      | Some entry =>
          map_set m commodity
            (CommodityEntry.mk (CommodityEntry.name entry)
               (CommodityEntry.value entry + 1)
               (CommodityEntry.units entry + unitsOf record))
      | None => m
      end) [] data in
  sort (fun a b => CommodityEntry.value b - CommodityEntry.value a)
    (map_values commodityMap).

(** Lines 126-144.  The zone of a record is the text [fetchZoneData]
    wrote. *)
Definition aggregateByZone (data : list CanonicalRecord) : list ZoneEntry.t :=
  let zoneMap :=
    foldl (fun (m : jsmap string ZoneEntry.t) record =>
      let zone_ := or_text (Str (zone record)) "Unknown" in
      let m := if map_has m zone_ then m
               else map_set m zone_ (ZoneEntry.mk zone_ 0 0) in
      match map_get m zone_ with
      | Some entry =>
          map_set m zone_
            (ZoneEntry.mk (ZoneEntry.zone entry)
               (ZoneEntry.orders entry + 1)
               (ZoneEntry.units entry + unitsOf record))
      | None => m
      end) [] data in
  sort (fun a b => ZoneEntry.orders b - ZoneEntry.orders a)
    (map_values zoneMap).

(** [Math.round(a / b)] for integers [a] and [b > 0]: the integer nearest
    to the quotient, the larger one of two that are equally near.  (The
    quotient the code rounds is a double; it rounds to the same integer
    as the exact quotient while [|a| < 2^52].) *)
Definition round_quotient (a b : Z) : Z := (2 * a + b) / (2 * b).

(** Lines 193-196: the [forEach] callback that fills [avgUnits]. *)
Definition withAverage (entry : DivisionEntry.t) : DivisionEntry.t :=
  DivisionEntry.mk (DivisionEntry.division entry) (DivisionEntry.orders entry)
    (DivisionEntry.totalUnits entry)
    (if 0 <? DivisionEntry.orders entry
     then round_quotient (DivisionEntry.totalUnits entry)
            (DivisionEntry.orders entry)
     else 0).

(** Lines 174-199. *)
Definition aggregateByDivision (data : list CanonicalRecord)
  : list DivisionEntry.t :=
  let divisionMap :=
    foldl (fun (m : jsmap string DivisionEntry.t) record =>
      let division := or_text (dvsn (row record)) "Unknown" in
      let m := if map_has m division then m
               else map_set m division (DivisionEntry.mk division 0 0 0) in
      match map_get m division with
      | Some entry =>
          map_set m division
            (DivisionEntry.mk (DivisionEntry.division entry)
               (DivisionEntry.orders entry + 1)
               (DivisionEntry.totalUnits entry + unitsOf record)
               (DivisionEntry.avgUnits entry))
      | None => m
      end) [] data in
  let result := withAverage <$> map_values divisionMap in
  sort (fun a b => DivisionEntry.orders b - DivisionEntry.orders a) result.

(** Lines 229-247. *)
Definition getQueryTypeDistribution (data : list CanonicalRecord)
  : list QueryTypeEntry.t :=
  let queryTypeMap :=
    foldl (fun (m : jsmap string QueryTypeEntry.t) record =>
      let queryType := or_text (Str (qry record)) "Unknown" in
      let m := if map_has m queryType then m
               else map_set m queryType (QueryTypeEntry.mk queryType 0 0) in
      match map_get m queryType with
      | Some entry =>
          map_set m queryType
            (QueryTypeEntry.mk (QueryTypeEntry.name entry)
               (QueryTypeEntry.count entry + 1)
               (QueryTypeEntry.units entry + unitsOf record))
      | None => m
      end) [] data in
  sort (fun a b => QueryTypeEntry.count b - QueryTypeEntry.count a)
    (map_values queryTypeMap).

(** Lines 280-295. *)
Definition getPriorityDistribution (data : list CanonicalRecord)
  : list PriorityEntry.t :=
  let pcMap :=
    foldl (fun (m : jsmap string PriorityEntry.t) record =>
      let pc_ := or_text (pc (row record)) "Unknown" in
      let m := if map_has m pc_ then m
               else map_set m pc_ (PriorityEntry.mk pc_ 0) in
      match map_get m pc_ with
      | Some entry =>
          map_set m pc_
            (PriorityEntry.mk (PriorityEntry.name entry)
               (PriorityEntry.count entry + 1))
      | None => m
      end) [] data in
  sort (fun a b => PriorityEntry.count b - PriorityEntry.count a)
    (map_values pcMap).

(** [new Set(values).size]: the number of different values. *)
Definition set_size {A} `{EqDecision A} (values : list A) : nat :=
  length (remove_dups values).

(** The object [calculateSummaryStats] returns, lines 316-326.  The field
    [avgUnitsPerOrder] is a decimal fraction read back from a text of two
    decimals and is left out. *)
Record SummaryStats := {
  totalOrders : nat;
  totalUnits : Z;
  uniqueConsignors : nat;
  uniqueConsignees : nat;
  uniqueDestinations : nat;
  uniqueCommodities : nat;
  uniqueDivisions : nat;
  uniqueZones : nat }.

(** Lines 300-327. *)
Definition calculateSummaryStats (data : list CanonicalRecord)
  : SummaryStats :=
  {| totalOrders := length data;
     totalUnits := foldl (fun sum record => sum + unitsOf record) 0 data;
     uniqueConsignors := set_size ((fun r => csnr (row r)) <$> data);
     uniqueConsignees := set_size ((fun r => cnsg (row r)) <$> data);
     uniqueDestinations := set_size ((fun r => dstn (row r)) <$> data);
     uniqueCommodities :=
       set_size ((fun r => Js.or (cmdt (row r)) (rakecmdt (row r))) <$> data);
     uniqueDivisions := set_size ((fun r => dvsn (row r)) <$> data);
     uniqueZones := set_size (zone <$> data) |}.

(** [v ? new Date(v) : null] for a bound given as a text, [null] or
    [undefined]. *)
Definition dateBound (rt : DateRuntime) (v : field) : option date :=
  with_date rt v id.

(** [a < b] on [Date] objects compares their time values and is false
    when one of them is an Invalid Date. *)
Definition date_lt (a b : date) : bool :=
  match a, b with
  | ValidDate x, ValidDate y => x <? y
  | _, _ => false
  end.

(** Lines 336-344: the [filter] callback.  A [Date] object is truthy,
    an Invalid Date too. *)
Definition inDateRange (start end_ : option date) (record : CanonicalRecord)
  : bool :=
  match demandDateObj record with
  | None => false
  | Some recordDate =>
      if match start with
         | Some s => date_lt recordDate s
         | None => false
         end
      then false
      else if match end_ with
              | Some e => date_lt e recordDate
              | None => false
              end
      then false
      else true
  end.

(** Lines 332-345. *)
Definition filterByDateRange (rt : DateRuntime) (data : list CanonicalRecord)
    (startDate endDate : field) : list CanonicalRecord :=
  let start := dateBound rt startDate in
  let end_ := dateBound rt endDate in
  List.filter (inDateRange start end_) data.

(** [array.slice(start, end)] for integers: a negative index counts from
    the end. *)
Definition slice {A} (l : list A) (start end_ : Z) : list A :=
  let len := Z.of_nat (length l) in
  let k := if start <? 0 then Z.max (len + start) 0 else Z.min start len in
  let final := if end_ <? 0 then Z.max (len + end_) 0 else Z.min end_ len in
  take (Z.to_nat (final - k)) (drop (Z.to_nat k) l).

(** Lines 382-384: the loop of [chunkArray], from the index [i] on.
    [None]: the loop has not ended after [fuel] rounds. *)
Fixpoint chunkArray_loop {A} (fuel : nat) (array_ : list A) (chunkSize i : Z)
    (chunks : list (list A)) : option (list (list A)) :=
  if i <? Z.of_nat (length array_) then
    match fuel with
    | O => None
    | S fuel =>
        chunkArray_loop fuel array_ chunkSize (i + chunkSize)
          (chunks ++ [slice array_ i (i + chunkSize)])
    end
  else Some chunks.

(** Lines 380-386, for an integer chunk size.  A loop that ends takes at
    most one round for each element, so [None] is a loop that never
    ends. *)
Definition chunkArray {A} (array_ : list A) (chunkSize : option Z)
  : option (list (list A)) :=
  chunkArray_loop (length array_) array_ (default 1000 chunkSize) 0 [].

(** ** Reference definitions for the reducers *)

(** The values of a list, each once, at the place of its first
    occurrence: the order in which a [Map] first sees its keys. *)
Fixpoint firstOccurrences {K} `{EqDecision K} (l : list K) : list K :=
  match l with
  | [] => []
  | k :: r => k :: filter (fun x => x <> k) (firstOccurrences r)
  end.

(** The records whose key no earlier record has: the records at which a
    [Map] keyed by [key] gets a new entry. *)
Fixpoint firstRecords {R K} `{EqDecision K} (key : R -> K) (l : list R)
  : list R :=
  match l with
  | [] => []
  | r :: rest => r :: filter (fun x => key x <> key r) (firstRecords key rest)
  end.

(** The shape of the [forEach] callbacks of the reducers: the entry of
    the record's key is created from the record when the key is new, and
    then updated. *)
Definition groupStep {R K V} `{EqDecision K} (key : R -> K) (init : R -> V)
    (upd : V -> R -> V) (m : jsmap K V) (record : R) : jsmap K V :=
  let k := key record in
  let m := if map_has m k then m else map_set m k (init record) in
  match map_get m k with
  | Some entry => map_set m k (upd entry record)
  | None => m
  end.

(** The map such a callback builds: the keys in the order of their first
    occurrence, each with the entry created from the first record of the
    key and updated by the records of the key. *)
Definition grouped {R K V} `{EqDecision K} (key : R -> K) (init : R -> V)
    (upd : V -> R -> V) (data : list R) : jsmap K V :=
  (fun r0 => (key r0,
              foldl upd (init r0) (filter (fun r => key r = key r0) data)))
    <$> firstRecords key data.

(** The sum of a list of integers, and the units of a list of records
    ([NaN] counting as 0). *)
Definition sumZ (l : list Z) : Z := foldr Z.add 0 l.

Definition unitsIn (data : list CanonicalRecord) : Z :=
  sumZ (unitsOf <$> data).

(** The number of records, as the counters of the reducers hold it. *)
Definition countOf (data : list CanonicalRecord) : Z :=
  Z.of_nat (length data).

(** A list ranked by a measure: in descending order of it. *)
Definition descendingBy {A} (f : A -> Z) (l : list A) : Prop :=
  forall i j a b, (i < j)%nat -> l !! i = Some a -> l !! j = Some b ->
    f b <= f a.

(** The grouping keys of the reducers. *)
Definition consignorOf (record : CanonicalRecord) : string :=
  or_text (csnr (row record)) "Unknown".
Definition consigneeOf (record : CanonicalRecord) : string :=
  or_text (cnsg (row record)) "Unknown".
Definition destinationOf (record : CanonicalRecord) : string :=
  or_text (dstn (row record)) "Unknown".
Definition originOf (record : CanonicalRecord) : string :=
  or_text (sttnfrom (row record)) "Unknown".
Definition rakeTypeOf (record : CanonicalRecord) : string :=
  or_text (indttype (row record)) "Unknown".
Definition routeOf (record : CanonicalRecord) : string :=
  originOf record ++ " → " ++ destinationOf record.
Definition commodityOf (record : CanonicalRecord) : string :=
  or_text (Js.or (cmdt (row record)) (rakecmdt (row record))) "Unknown".
Definition zoneOf (record : CanonicalRecord) : string :=
  or_text (Str (zone record)) "Unknown".
Definition divisionOf (record : CanonicalRecord) : string :=
  or_text (dvsn (row record)) "Unknown".
Definition queryTypeOf (record : CanonicalRecord) : string :=
  or_text (Str (qry record)) "Unknown".
Definition priorityOf (record : CanonicalRecord) : string :=
  or_text (pc (row record)) "Unknown".

(** The records of a key. *)
Definition recordsOf {K} `{EqDecision K} (key : CanonicalRecord -> K) (k : K)
    (data : list CanonicalRecord) : list CanonicalRecord :=
  filter (fun r => key r = k) data.

(** What a ranking reducer returns: entries in descending order of their
    rank, no two for the same key, and entries of equal rank in the
    order in which the data first shows their keys. *)
Definition rankedGroups {E K} (name : E -> K) (rank : E -> Z)
    (keys : list K) (res : list E) : Prop :=
  descendingBy rank res /\
  NoDup (name <$> res) /\
  forall v, (name <$> filter (fun e => rank e = v) res) `sublist_of` keys.

(** The number of entries [slice(0, limit)] keeps of [n]. *)
Definition kept (limit : Z) (n : nat) : nat :=
  if limit <? 0 then n - Z.to_nat (- limit) else Nat.min (Z.to_nat limit) n.

(** A record to evaluate the reducers on: the sample row as
    [fetchZoneData] normalizes it. *)
Definition sampleRecord : CanonicalRecord :=
  normalize IsoDate.runtime "ODR_RK_OTSG" "CR" sampleRow.

(** A text without the character [-]. *)
Fixpoint dashfree (s : string) : bool :=
  match s with
  | EmptyString => true
  | String c r => negb (Ascii.eqb c "-") && dashfree r
  end.

(** The texts of the key: an optional sign and a body without a dash. *)
Definition signed (s : string) : Prop :=
  exists body, dashfree body = true /\ body <> "" /\
    (s = body \/ s = String "-" body).

(** The records [aggregateByMonth] counts, the month of such a record,
    the key it is counted under, and the records of a year and month. *)
Definition hasMonth (record : CanonicalRecord) : Prop := month record <> None.

Definition monthOf (record : CanonicalRecord) : number :=
  default NaN (month record).

Definition monthKeyOf (record : CanonicalRecord) : string :=
  nullable_text (year record) ++ "-" ++ number_text (monthOf record).

Definition inMonth (y : option number) (m : number)
    (record : CanonicalRecord) : Prop :=
  year record = y /\ month record = Some m.

#[global] Instance hasMonth_dec record : Decision (hasMonth record).
Proof. unfold hasMonth. apply _. Defined.

#[global] Instance inMonth_dec y m record : Decision (inMonth y m record).
Proof. unfold inMonth. apply _. Defined.

(** Entries in the order of the calendar: by year, and by month within
    a year. *)
Definition chronological (l : list MonthEntry.t) : Prop :=
  forall i j a b, (i < j)%nat -> l !! i = Some a -> l !! j = Some b ->
    exists ya ma yb mb,
      MonthEntry.year a = Some (Int ya) /\ MonthEntry.monthNum a = Int ma /\
      MonthEntry.year b = Some (Int yb) /\ MonthEntry.monthNum b = Int mb /\
      (ya < yb \/ (ya = yb /\ ma < mb)).

(** A record without a date, or with a date the engine could parse. *)
Definition wellDated (record : CanonicalRecord) : Prop :=
  month record = None \/
  exists y m, year record = Some (Int y) /\ month record = Some (Int m).

(** The sample record without a date, and with a date that is not one. *)
Definition undatedRecord : CanonicalRecord :=
  normalize IsoDate.runtime "ODR_RK_OTSG" "CR" (with_dmnddate Null sampleRow).

Definition misdatedRecord : CanonicalRecord :=
  normalize IsoDate.runtime "ODR_RK_OTSG" "CR"
    (with_dmnddate (Str "not a date") sampleRow).

(** The sample record with another date. *)
Definition recordOn (date_ : string) : CanonicalRecord :=
  normalize IsoDate.runtime "ODR_RK_OTSG" "CR"
    (with_dmnddate (Str date_) sampleRow).

(** The chunks of a list: consecutive pieces of [size] elements, the last
    one shorter when the length is not a multiple of [size]. *)
Definition chunksOf {A} (size : nat) (l : list A) : list (list A) :=
  (fun j => take size (drop (j * size) l))
    <$> seq 0 ((length l + size - 1) / size)%nat.

(** ** Reference definitions for the batches *)

(** The partition a progress event reports, and the partitions of the
    tasks that still wait. *)
Definition eventPart (p : ProgressEvent) : string * string :=
  (pzone p, pqueryType p).

Definition waitingParts (ts : list Task) : list (string * string) :=
  part <$> filter (fun t => isWaiting t = true) ts.

(** While a batch runs: [ps] are the completions reported since its
    start, each with the total of the batch; with a progress callback
    the partitions reported and the partitions that still wait are the
    partitions started, each once; without one nothing is reported. *)
Definition reportInv (onProgress : bool) (tot : nat) (w0 : World)
    (started : list (string * string)) (ts : list Task) (b : Batch) : Prop :=
  exists ps,
    progressLog (world b) = (progressLog w0 ++ ps)%list /\
    Forall (fun p => total p = tot) ps /\
    if onProgress then (eventPart <$> ps) ++ waitingParts ts ≡ₚ started
    else ps = [].

(** While a batch runs in which the user does not cancel: the abort flags
    are those at its start, and every call of [fetch] made since has
    left. *)
Definition sentInv (ctl : list bool) (w0 : World)
    (started : list (string * string)) (ts : list Task) (b : Batch) : Prop :=
  controllers (world b) = ctl /\
  exists cs,
    fetchLog (world b) = (fetchLog w0 ++ cs)%list /\
    Forall (fun c => fc_sent c = true) cs.

(** A task whose partition is cached with the array [fetchZoneData]
    returned for it. *)
Definition servedFromCache (w0 : World) (t : Task) : Prop :=
  exists r, cache w0 !! keyOf (part t) = Some r /\
    (t_state t = Awaiting (Returned (Ok r)) \/ t_state t = Fulfilled r).

(** While a batch runs all of whose partitions are cached: the cache and
    the heap are those at its start, no call of [fetch] was made, and the
    records merged so far are the cached records of the partitions of the
    groups that are complete. *)
Definition warmInv (w0 : World) (started : list (string * string))
    (ts : list Task) (b : Batch) : Prop :=
  cache (world b) = cache w0 /\ heap (world b) = heap w0 /\
  fetchLog (world b) = fetchLog w0 /\
  (exists done_,
     started = (done_ ++ (part <$> ts))%list /\
     allData b = concat (cachedRecords w0 ∘ keyOf <$> done_)) /\
  Forall (servedFromCache w0) ts.

(** The state after a first batch for one partition that succeeded. *)
Definition afterFirstBatch : World :=
  match fetchSelectedZones calmEnv ["CR"] ["ODR_RK_OTSG"] true initial with
  | Some (_, w) => w
  | None => initial
  end.

(** The arrays the cache refers to are in the heap. *)
Definition heapValid (w : World) : Prop :=
  forall k r, cache w !! k = Some r -> (r < length (heap w))%nat.

(** The records the progress events report ([recordsFetched], which an
    event with an error does not carry), and the records of the array a
    task is fulfilled with. *)
Definition reportedRecords (ps : list ProgressEvent) : nat :=
  list_sum ((fun p => default 0%nat (recordsFetched p)) <$> ps).

Definition heldBy (w : World) (t : Task) : nat :=
  match t_state t with
  | Fulfilled r => length (array r w)
  | Awaiting _ => 0%nat
  end.

(** The array a task holds is in the heap. *)
Definition taskValid (w : World) (t : Task) : Prop :=
  forall r,
    t_state t = Fulfilled r \/ t_state t = Awaiting (Returned (Ok r)) ->
    (r < length (heap w))%nat.

(** While a batch with a progress callback runs: the records reported
    since its start are the records merged so far and the records of the
    arrays of the tasks of the running group that are fulfilled. *)
Definition recordsInv (w0 : World) (started : list (string * string))
    (ts : list Task) (b : Batch) : Prop :=
  heapValid (world b) /\ Forall (taskValid (world b)) ts /\
  exists ps,
    progressLog (world b) = (progressLog w0 ++ ps)%list /\
    reportedRecords ps
    = (length (allData b) + list_sum (heldBy (world b) <$> ts))%nat.

(** The keys of the cache are keys it had at the start of the batch or
    keys of partitions that have started. *)
Definition cacheWithin (w0 : World) (started : list (string * string))
    (w : World) : Prop :=
  forall k, is_Some (cache w !! k) ->
    is_Some (cache w0 !! k) \/ k ∈ keyOf <$> started.

(** While a batch runs: the cache has no keys but those, and the tasks of
    the running group are for partitions that have started. *)
Definition domInv (w0 : World) (started : list (string * string))
    (ts : list Task) (b : Batch) : Prop :=
  cacheWithin w0 started (world b) /\ Forall (fun t => part t ∈ started) ts.

(** The calls of [fetch] a waiting [fetchZoneData] can still make: one
    for each attempt up to [retryAttempts] that has not started. *)
Definition attemptsLeft (f : ZoneFetch) : nat :=
  match f with
  | InFlight attempt _ => (API_CONFIG.retryAttempts - attempt)%nat
  | Backoff attempt => (API_CONFIG.retryAttempts - attempt)%nat
  | Returned _ => 0%nat
  end.

(** A delay is only awaited before an attempt that may still start. *)
Definition mayRetry (f : ZoneFetch) : Prop :=
  match f with
  | Backoff attempt => (attempt < API_CONFIG.retryAttempts)%nat
  | _ => True
  end.

(** A network whose successful responses carry a [data] field that is not
    an array. *)
Definition malformedNetwork (zone_ queryType : string) (n : nat) : Response :=
  Http 200 (Some JNotArray).

Definition malformedEnv : Env :=
  {| dates := IsoDate.runtime; network := malformedNetwork;
     schedule := fun n => n; cancelAt := None |}.

(** * Properties *)

(** ** The JavaScript library functions *)

Lemma length_insert_sorted {A} (compare : A -> A -> Z) x l :
  length (insert_sorted compare x l) = S (length l).
Proof.
  induction l as [|y r IH]; simpl; [done|].
  destruct (compare x y <=? 0); simpl; [done|]. by rewrite IH.
Qed.

Lemma length_sort {A} (compare : A -> A -> Z) l :
  length (sort compare l) = length l.
Proof.
  induction l as [|x r IH]; simpl; [done|].
  by rewrite length_insert_sorted, IH.
Qed.

Lemma slice0_nonneg {A} (l : list A) limit :
  0 <= limit -> slice0 l limit = take (Z.to_nat limit) l.
Proof.
  intros Hl. unfold slice0.
  destruct (limit <? 0) eqn:E; [lia|].
  destruct (Z.min_spec limit (Z.of_nat (length l))) as [[? ->]|[? ->]]; [done|].
  rewrite Nat2Z.id, firstn_all. symmetry. apply take_ge. lia.
Qed.

Example parseInt_examples :
  (parseInt_text "42", parseInt_text "  -7 rakes", parseInt_text "3.5",
   parseInt_text "abc", parseInt_text "", parseInt_text "+")
  = (Int 42, Int (-7), Int 3, NaN, NaN, NaN).
Proof. reflexivity. Qed.

Example IsoDate_examples :
  let d1 := IsoDate.parse "2024-03-15" in
  let d2 := IsoDate.parse "1999-12-31" in
  (getMonth IsoDate.runtime d1, getFullYear IsoDate.runtime d1,
   getMonth IsoDate.runtime d2, getFullYear IsoDate.runtime d2,
   IsoDate.parse "not a date", IsoDate.parse "2023-02-29")
  = (Int 2, Int 2024, Int 11, Int 1999, InvalidDate, InvalidDate).
Proof. reflexivity. Qed.

(** ** The normalizer *)

Lemma or_text_truthy v fallback :
  or_text v fallback = match Js.or v (Str fallback) with Str s => s | _ => "" end.
Proof.
  destruct v as [| |s]; simpl; try done.
  unfold Js.or; simpl. by destruct (String.eqb s "").
Qed.

Lemma filter_total_all_rows (rows : list RawRow) :
  filter_total (Some <$> rows)
  = Ok (List.filter (fun r => negb (bool_decide (dvsn r = Str "TOTAL"))) rows).
Proof.
  induction rows as [|r rows IH]; [done|].
  rewrite fmap_cons. cbn [filter_total List.filter]. rewrite IH.
  destruct (decide (dvsn r = Str "TOTAL")) as [E|E].
  - by rewrite bool_decide_eq_true_2.
  - by rewrite bool_decide_eq_false_2.
Qed.

(** Rows that are objects are never the cause of an exception. *)
Lemma processData_rows rt q z (rows : list RawRow) :
  processData rt q z (JRows (Some <$> rows))
  = Ok (normalize rt q z
          <$> List.filter (fun r => negb (bool_decide (dvsn r = Str "TOTAL"))) rows).
Proof. cbn [processData]. by rewrite filter_total_all_rows. Qed.




(** C6, as claimed, fails: a demand date that is a text which is not a
    date gives an Invalid Date object and [NaN] for month and year, not
    three nulls. *)
Lemma normalize_unparseable_date_counterexample :
  let c := normalize IsoDate.runtime "ODR_RK_OTSG" "CR"
             (with_dmnddate (Str "not a date") sampleRow) in
  Date_parse IsoDate.runtime "not a date" = InvalidDate /\
  demandDateObj c = Some InvalidDate /\ month c = Some NaN /\
  year c = Some NaN /\
  ~ (demandDateObj c = None /\ month c = None /\ year c = None).
Proof. repeat split. intros (? & _). discriminate. Qed.

(** C6, amended: for every row whose demand date is absent, null or
    empty, the parsed date, the month and the year are null; for every row
    whose demand date is a non-empty text the engine cannot parse, the
    parsed date is an Invalid Date object and the month and the year are
    [NaN].  In both cases the row is not rejected: it is kept unless its
    division is the text TOTAL. *)
Theorem normalize_dates rt q z (r : RawRow) :
  let c := normalize rt q z r in
  (truthy (dmnddate r) = false ->
     demandDateObj c = None /\ month c = None /\ year c = None) /\
  (forall s, dmnddate r = Str s -> s <> "" -> Date_parse rt s = InvalidDate ->
     demandDateObj c = Some InvalidDate /\ month c = Some NaN /\
     year c = Some NaN) /\
  (dvsn r <> Str "TOTAL" -> processData rt q z (JRows [Some r]) = Ok [c]).
Proof.
  simpl. split; [|split].
  - intros Hf. destruct (dmnddate r) as [| |s]; simpl in *; try done.
    by destruct (String.eqb s "").
  - intros s Hs Hne Hp. rewrite Hs. simpl.
    destruct (String.eqb_spec s ""); [done|]. by rewrite Hp.
  - intros Hd. destruct (decide (dvsn r = Str "TOTAL")); done.
Qed.

Lemma normalize_dates_witness :
  let r1 := with_dmnddate Null sampleRow in
  let r2 := with_dmnddate (Str "not a date") sampleRow in
  let c1 := normalize IsoDate.runtime "ODR_RK_OTSG" "CR" r1 in
  let c2 := normalize IsoDate.runtime "ODR_RK_OTSG" "CR" r2 in
  (demandDateObj c1 = None /\ month c1 = None /\ year c1 = None) /\
  (demandDateObj c2 = Some InvalidDate /\ month c2 = Some NaN /\
   year c2 = Some NaN) /\
  processData IsoDate.runtime "ODR_RK_OTSG" "CR" (JRows [Some r2]) = Ok [c2].
Proof.
  split; [|split].
  - apply (normalize_dates IsoDate.runtime "ODR_RK_OTSG" "CR"
             (with_dmnddate Null sampleRow)). reflexivity.
  - apply (normalize_dates IsoDate.runtime "ODR_RK_OTSG" "CR"
             (with_dmnddate (Str "not a date") sampleRow) ) with (s := "not a date");
      [reflexivity|discriminate|reflexivity].
  - apply (normalize_dates IsoDate.runtime "ODR_RK_OTSG" "CR"
             (with_dmnddate (Str "not a date") sampleRow)). discriminate.
Defined.

(** ** The reducers *)









Example getTimeDistribution_sample :
  let c := normalize IsoDate.runtime "ODR_RK_OTSG" "CR" sampleRow in
  HourEntry.orders <$> getTimeDistribution [c; c]
  = (replicate 7 0 ++ [2] ++ replicate 16 0)%list.
Proof. reflexivity. Qed.

(** C7, as claimed, fails: with thirteen routes and no limit given, the
    route reducer returns thirteen entries, where a default of 12 would
    return twelve. *)
Lemma getRouteAnalysis_default_counterexample :
  length (getRouteAnalysis thirteenRoutes None) = 13%nat /\
  length (getRouteAnalysis thirteenRoutes (Some 12)) = 12%nat /\
  getRouteAnalysis thirteenRoutes None <> getRouteAnalysis thirteenRoutes (Some 12).
Proof.
  split; [reflexivity|]. split; [reflexivity|].
  intros H. apply (f_equal length) in H. vm_compute in H. discriminate.
Qed.

(** C7, amended: for every record set the route reducer returns the first
    [limit] entries of a ranking that does not depend on the limit, for
    the limit the caller supplies; when the caller supplies none the limit
    is 15, and the other truncating reducers (top consignors, top
    destinations, rake types, consignees) then use 10. *)
Theorem truncation_limits (data_ : list CanonicalRecord) :
  (forall limit, 0 <= limit ->
     getRouteAnalysis data_ (Some limit)
     = take (Z.to_nat limit) (rankedRoutes data_)) /\
  getRouteAnalysis data_ None = take 15 (rankedRoutes data_) /\
  getTopConsignors data_ None = getTopConsignors data_ (Some 10) /\
  getTopDestinations data_ None = getTopDestinations data_ (Some 10) /\
  aggregateByRakeType data_ None = aggregateByRakeType data_ (Some 10) /\
  getConsigneeAnalysis data_ None = getConsigneeAnalysis data_ (Some 10).
Proof.
  split; [|split; [|done]].
  - intros limit Hl. unfold getRouteAnalysis. simpl. by apply slice0_nonneg.
  - unfold getRouteAnalysis. simpl. by rewrite slice0_nonneg.
Qed.

Lemma truncation_limits_witness :
  getRouteAnalysis thirteenRoutes (Some 12)
  = take 12 (rankedRoutes thirteenRoutes).
Proof.
  apply (truncation_limits thirteenRoutes). lia.
Defined.

(** ** The service: a single partition *)

Local Open Scope list_scope.

Section ServiceFacts.
Context (env : Env).

Lemma fetchZoneData_catch_spec e w :
  fetchZoneData_catch e w = (Returned (Ok (length (heap w))), (alloc [] w).2).
Proof. reflexivity. Qed.


Lemma fetchZoneData_begin_ok z q s w :
  settles_ok (fetchZoneData_begin z q s w).1.
Proof.
  unfold fetchZoneData_begin.
  destruct (cache w !! cacheKey z q); simpl; done.
Qed.

Lemma fetchZoneData_resume_ok z q s f w :
  settles_ok f -> settles_ok (fetchZoneData_resume env z q s f w).1.
Proof.
  intros Hf. destruct f as [a c|a|r]; simpl; [| done | done].
  destruct (answer env s c w) as [j|e].
  - destruct (processData _ _ _ j); simpl; done.
  - destruct (a <? API_CONFIG.retryAttempts)%nat; simpl; done.
Qed.


Lemma fetchZoneData_resume_work z q s f w :
  fetchWork f <> 0%nat ->
  (fetchWork (fetchZoneData_resume env z q s f w).1 < fetchWork f)%nat.
Proof.
  intros Hf. destruct f as [a c|a|r]; simpl in *; [| lia | done].
  destruct (answer env s c w) as [j|e].
  - destruct (processData _ _ _ j); simpl; lia.
  - destruct (a <? API_CONFIG.retryAttempts)%nat eqn:E; simpl; [|lia].
    apply Nat.ltb_lt in E. unfold API_CONFIG.retryAttempts in *. lia.
Qed.

Lemma fetchZoneData_await_total fuel z q s f w :
  (fetchWork f <= fuel)%nat -> settles_ok f ->
  exists r w', fetchZoneData_await env fuel z q s f w = Some (Ok r, w').
Proof.
  revert f w. induction fuel as [|fuel IH]; intros f w Hfuel Hok.
  - destruct f as [a c|a|[r|e]]; simpl in *; try lia; try done. eauto.
  - destruct f as [a c|a|[r|e]]; [| |simpl; eauto|done].
    + cbn [fetchZoneData_await].
      pose proof (fetchZoneData_resume_work z q s (InFlight a c) w) as Hw.
      pose proof (fetchZoneData_resume_ok z q s (InFlight a c) w I) as Hs.
      destruct (fetchZoneData_resume env z q s (InFlight a c) w) as [f' w'].
      apply IH; [|done]. simpl in *. lia.
    + cbn [fetchZoneData_await].
      pose proof (fetchZoneData_resume_work z q s (Backoff a) w) as Hw.
      pose proof (fetchZoneData_resume_ok z q s (Backoff a) w I) as Hs.
      destruct (fetchZoneData_resume env z q s (Backoff a) w) as [f' w'].
      apply IH; [|done]. simpl in *. lia.
Qed.

(** [fetchZoneData] always resolves, and with an array. *)
Lemma fetchZoneData_total z q s w :
  exists r w', fetchZoneData env z q s w = Some (Ok r, w').
Proof.
  unfold fetchZoneData.
  pose proof (fetchZoneData_begin_ok z q s w) as Hok.
  assert (fetchWork (fetchZoneData_begin z q s w).1
          <= 2 * API_CONFIG.retryAttempts)%nat as Hw.
  { unfold fetchZoneData_begin.
    destruct (cache w !! cacheKey z q); simpl; lia. }
  destruct (fetchZoneData_begin z q s w) as [f w1].
  by apply fetchZoneData_await_total.
Qed.

(** A hit returns the stored address and does nothing else. *)
Lemma fetchZoneData_hit z q s w r :
  cache w !! cacheKey z q = Some r ->
  fetchZoneData env z q s w = Some (Ok r, w).
Proof.
  intros H. unfold fetchZoneData, fetchZoneData_begin. by rewrite H.
Qed.

End ServiceFacts.

(** ** The service: the scheduler of a batch *)

Lemma elem_of_indicesWhere p i ts j :
  j ∈ indicesWhere p i ts <->
  exists t, (i <= j)%nat /\ ts !! (j - i)%nat = Some t /\ p t = true.
Proof.
  revert i. induction ts as [|t ts IH]; intros i; cbn [indicesWhere].
  - split; [by intros ?%elem_of_nil|]. by intros (t & _ & ? & _).
  - assert (j ∈ indicesWhere p (S i) ts <->
            exists t', (i < j)%nat /\ ts !! (j - S i)%nat = Some t' /\ p t' = true)
      as IH'.
    { rewrite IH. split; intros (t' & ? & ? & ?); exists t'; repeat split; done || lia. }
    destruct (p t) eqn:Hp.
    + rewrite elem_of_cons, IH'. split.
      * intros [->|(t' & Hlt & Hl & Hpt)].
        -- exists t. rewrite Nat.sub_diag. done.
        -- exists t'. split; [lia|]. split; [|done].
           replace (j - i)%nat with (S (j - S i)) by lia. done.
      * intros (t' & Hle & Hl & Hpt).
        destruct (decide (j = i)) as [->|Hne]; [by left|right].
        exists t'. split; [lia|]. split; [|done].
        replace (j - i)%nat with (S (j - S i)) in Hl by lia. done.
    + rewrite IH'. split.
      * intros (t' & Hlt & Hl & Hpt). exists t'. split; [lia|]. split; [|done].
        replace (j - i)%nat with (S (j - S i)) by lia. done.
      * intros (t' & Hle & Hl & Hpt).
        destruct (decide (j = i)) as [->|Hne].
        { rewrite Nat.sub_diag in Hl. simpl in Hl. congruence. }
        exists t'. split; [lia|]. split; [|done].
        replace (j - i)%nat with (S (j - S i)) in Hl by lia. done.
Qed.

Lemma isReady_isWaiting t : isReady t = true -> isWaiting t = true.
Proof. unfold isReady, isWaiting. by destruct (t_state t) as [[]|]. Qed.

Lemma work_isWaiting t : isWaiting t = false <-> work t = 0%nat.
Proof.
  unfold isWaiting, work.
  destruct (t_state t) as [[a c|a|r]|]; split; try done; lia.
Qed.

Section SchedulerFacts.
Context (env : Env) (onProgress : bool) (totalRequests : nat)
  (signal : option nat).

Lemma pickTask_Some ts n i :
  pickTask env ts n = Some i ->
  exists t, ts !! i = Some t /\ isWaiting t = true.
Proof.
  unfold pickTask.
  destruct (indicesWhere isReady 0 ts) as [|j l] eqn:E.
  - intros Hl. apply list_elem_of_lookup_2 in Hl.
    apply elem_of_indicesWhere in Hl as (t & _ & Hl & Hp).
    rewrite Nat.sub_0_r in Hl. eauto.
  - intros [= ->].
    assert (i ∈ indicesWhere isReady 0 ts) as Hin by (rewrite E; left).
    apply elem_of_indicesWhere in Hin as (t & _ & Hl & Hp).
    rewrite Nat.sub_0_r in Hl. eauto using isReady_isWaiting.
Qed.

Lemma pickTask_None ts n :
  pickTask env ts n = None -> Forall (fun t => isWaiting t = false) ts.
Proof.
  unfold pickTask.
  destruct (indicesWhere isReady 0 ts) as [|j l] eqn:E; [|done].
  intros Hl. apply Forall_forall. intros t Hin.
  destruct (isWaiting t) eqn:Hw; [|done]. exfalso.
  apply list_elem_of_lookup in Hin as [i Hi].
  assert (i ∈ indicesWhere isWaiting 0 ts) as Hiw.
  { apply elem_of_indicesWhere. exists t. rewrite Nat.sub_0_r.
    repeat split; [lia|done|done]. }
  apply lookup_ge_None in Hl.
  destruct (indicesWhere isWaiting 0 ts) as [|k ks]; [by apply elem_of_nil in Hiw|].
  pose proof (Nat.mod_upper_bound (schedule env n) (length (k :: ks))) as Hm.
  simpl in *. lia.
Qed.

Lemma stepTask_work t b :
  isWaiting t = true ->
  (work (stepTask env onProgress totalRequests signal t b).1 < work t)%nat.
Proof.
  unfold isWaiting, stepTask, work. destruct (t_state t) as [f|r]; [|done].
  intros _.
  destruct f as [a c|a|r].
  - pose proof (fetchZoneData_resume_work env (t_zone t) (t_qry t) signal
                  (InFlight a c) (world b)) as Hw.
    destruct (fetchZoneData_resume env _ _ signal (InFlight a c) (world b))
      as [[a' c'|a'|r'] w']; simpl in *; try lia.
    destruct (afterFetch _ _ _ _ _ _) as [d b']. simpl. lia.
  - pose proof (fetchZoneData_resume_work env (t_zone t) (t_qry t) signal
                  (Backoff a) (world b)) as Hw.
    destruct (fetchZoneData_resume env _ _ signal (Backoff a) (world b))
      as [[a' c'|a'|r'] w']; simpl in *; try lia.
    destruct (afterFetch _ _ _ _ _ _) as [d b']. simpl. lia.
  - cbn [fetchZoneData_resume].
    destruct (afterFetch _ _ _ _ _ _) as [d b']. simpl. lia.
Qed.

Lemma stepTask_Returned_work t b r :
  t_state t = Awaiting (Returned r) ->
  work (stepTask env onProgress totalRequests signal t b).1 = 0%nat.
Proof.
  intros H. unfold stepTask. rewrite H. simpl.
  by destruct (afterFetch _ _ _ _ _ _).
Qed.

Lemma list_sum_work_insert ts i (t t' : Task) :
  ts !! i = Some t ->
  (list_sum (work <$> <[i := t']> ts) + work t
   = list_sum (work <$> ts) + work t')%nat.
Proof.
  revert i. induction ts as [|x ts IH]; intros [|i] H; simpl in *; try done.
  - injection H as ->. lia.
  - specialize (IH _ H). unfold fmap in IH. lia.
Qed.

(** With fuel for the remaining work, the event loop ends with every
    task fulfilled. *)
Lemma runTasks_fulfils fuel ts b :
  (list_sum (work <$> ts) <= fuel)%nat ->
  Forall (fun t => isWaiting t = false)
    (runTasks env onProgress totalRequests signal fuel ts b).1.
Proof.
  revert ts b. induction fuel as [|fuel IH]; intros ts b Hf.
  - simpl. assert (list_sum (work <$> ts) = 0)%nat as H0 by lia. clear Hf.
    induction ts as [|x ts IHts]; [constructor|].
    rewrite fmap_cons in H0.
    change (list_sum (work x :: (work <$> ts)))
      with (work x + list_sum (work <$> ts))%nat in H0.
    constructor; [apply work_isWaiting; lia|].
    apply IHts. lia.
  - cbn [runTasks].
    set (b1 := if existsb isReady ts then b else userCancel env signal b).
    destruct (pickTask env ts (now (world b1))) as [i|] eqn:Hp;
      [|by apply pickTask_None in Hp].
    destruct (pickTask_Some _ _ _ Hp) as (t & Hl & Hw). rewrite Hl.
    pose proof (stepTask_work t (tickBatch b1) Hw) as Hlt.
    destruct (stepTask env onProgress totalRequests signal t (tickBatch b1))
      as [t' b'].
    apply IH. pose proof (list_sum_work_insert ts i t t' Hl).
    cbn [fst] in Hlt. lia.
Qed.

Lemma batchResults_fulfilled ts :
  Forall (fun t => isWaiting t = false) ts ->
  exists rs, batchResults ts = Some rs /\ length rs = length ts.
Proof.
  unfold batchResults.
  induction 1 as [|t ts Ht _ (rs & IH & Hlen)]; [by exists []|].
  unfold isWaiting in Ht. destruct (t_state t) as [f|r] eqn:E; [done|].
  exists (r :: rs). cbn. rewrite E. cbn. rewrite IH. cbn. by rewrite Hlen.
Qed.

(** [Promise.all] resolves for every group. *)
Lemma runGroup_total zoneBatch b q :
  exists b', runGroup env onProgress totalRequests signal zoneBatch b q = Some b'.
Proof.
  unfold runGroup.
  destruct (startTasks signal q zoneBatch b) as [ts b1].
  pose proof (runTasks_fulfils (list_sum (work <$> ts)) ts b1 (le_n _)) as H.
  destruct (runTasks _ _ _ _ _ ts b1) as [ts' b2].
  destruct (batchResults_fulfilled ts' H) as (rs & -> & _). eauto.
Qed.

End SchedulerFacts.

Lemma forM_total {A} (body : Batch -> A -> option Batch) l b :
  (forall b x, exists b', body b x = Some b') ->
  exists b', forM body l b = Some b'.
Proof.
  intros Hb. revert b. induction l as [|x l IH]; intros b; simpl; [eauto|].
  destruct (Hb b x) as [b' ->]. apply IH.
Qed.

(** The batch always resolves. *)
Lemma fetchBatchData_total env zones queryTypes onProgress w :
  exists data_ w',
    fetchBatchData env zones queryTypes onProgress w = Some (data_, w').
Proof.
  unfold fetchBatchData. destruct (newAbortController w) as [c w1].
  match goal with |- context [forM ?f ?l ?b] =>
    destruct (forM_total f l b) as [b' ->] end; [|eauto].
  intros b zb. apply forM_total. intros b1 q. apply runGroup_total.
Qed.

(** ** An induction principle for the batch

    A property of the partitions started so far, the tasks of the group
    that is running and the state of the batch holds when
    [fetchBatchData] resolves if it holds at its start and is kept by
    the four things that happen: a task starts, the user cancels between
    two resumptions, a task is resumed, the results of a group are
    collected. *)
Section BatchInvariant.
Context (env : Env) (onProgress : bool) (totalRequests : nat)
  (signal : option nat) (plan : list (string * string)).
Context (Inv : list (string * string) -> list Task -> Batch -> Prop).

Hypothesis Inv_start : forall started ts b z q,
  (exists rest, plan = started ++ (z, q) :: rest) ->
  Inv started ts b ->
  Inv (started ++ [(z, q)]) (ts ++ [(startTask signal q b z).1])
    (startTask signal q b z).2.

Hypothesis Inv_cancel : forall started ts b,
  Inv started ts b -> Inv started ts (userCancel env signal b).

Hypothesis Inv_step : forall started ts b i t,
  Inv started ts b -> ts !! i = Some t -> isWaiting t = true ->
  Inv started
    (<[i := (stepTask env onProgress totalRequests signal t (tickBatch b)).1]> ts)
    (stepTask env onProgress totalRequests signal t (tickBatch b)).2.

Hypothesis Inv_collect : forall started ts b rs,
  Inv started ts b -> batchResults ts = Some rs ->
  Inv started [] (collect rs b).

Lemma group_cons z zs q : group (z :: zs) q = (z, q) :: group zs q.
Proof. reflexivity. Qed.

Lemma batchPartitions_cons q qs zoneBatch :
  batchPartitions (q :: qs) zoneBatch
  = group zoneBatch q ++ batchPartitions qs zoneBatch.
Proof. reflexivity. Qed.

Lemma startTasks_invariant q zoneBatch started pre b :
  (exists rest, plan = started ++ group zoneBatch q ++ rest) ->
  Inv started pre b ->
  Inv (started ++ group zoneBatch q)
    (pre ++ (startTasks signal q zoneBatch b).1)
    (startTasks signal q zoneBatch b).2.
Proof.
  revert started pre b.
  induction zoneBatch as [|z zs IH]; intros started pre b [rest Hplan] HI.
  - simpl. by rewrite !app_nil_r.
  - cbn [startTasks]. rewrite group_cons in *.
    assert (Inv (started ++ [(z, q)]) (pre ++ [(startTask signal q b z).1])
              (startTask signal q b z).2) as H1.
    { apply Inv_start; [|done]. eexists. rewrite Hplan. reflexivity. }
    destruct (startTask signal q b z) as [t b1]. cbn [fst snd] in H1.
    specialize (IH (started ++ [(z, q)]) (pre ++ [t]) b1).
    destruct (startTasks signal q zs b1) as [ts b2]. cbn [fst snd] in *.
    rewrite <- !app_assoc in IH. apply IH; [|done].
    exists rest. rewrite Hplan. by rewrite <- !app_assoc.
Qed.

Lemma runTasks_invariant fuel started ts b :
  Inv started ts b ->
  Inv started (runTasks env onProgress totalRequests signal fuel ts b).1
    (runTasks env onProgress totalRequests signal fuel ts b).2.
Proof.
  revert ts b. induction fuel as [|fuel IH]; intros ts b HI; [done|].
  cbn [runTasks].
  set (b1 := if existsb isReady ts then b else userCancel env signal b).
  assert (Inv started ts b1) as H1.
  { unfold b1. destruct (existsb isReady ts); [done|]. by apply Inv_cancel. }
  destruct (pickTask env ts (now (world b1))) as [i|] eqn:Hp; [|done].
  destruct (pickTask_Some _ _ _ _ Hp) as (t & Hl & Hw). rewrite Hl.
  pose proof (Inv_step started ts b1 i t H1 Hl Hw) as H2.
  destruct (stepTask env onProgress totalRequests signal t (tickBatch b1))
    as [t' b']. by apply IH.
Qed.

Lemma runGroup_invariant zoneBatch q started b b' :
  (exists rest, plan = started ++ group zoneBatch q ++ rest) ->
  Inv started [] b ->
  runGroup env onProgress totalRequests signal zoneBatch b q = Some b' ->
  Inv (started ++ group zoneBatch q) [] b'.
Proof.
  intros Hplan HI. unfold runGroup.
  pose proof (startTasks_invariant q zoneBatch started [] b Hplan HI) as H1.
  destruct (startTasks signal q zoneBatch b) as [ts b1]. cbn [fst snd app] in H1.
  pose proof (runTasks_invariant (list_sum (work <$> ts)) _ ts b1 H1) as H2.
  destruct (runTasks _ _ _ _ _ ts b1) as [ts' b2]. cbn [fst snd] in H2.
  destruct (batchResults ts') as [rs|] eqn:Hr; [|done].
  intros [= <-]. by eapply Inv_collect.
Qed.

Lemma forM_queryTypes_invariant zoneBatch queryTypes started b b' :
  (exists rest,
     plan = started
            ++ batchPartitions queryTypes zoneBatch
            ++ rest) ->
  Inv started [] b ->
  forM (runGroup env onProgress totalRequests signal zoneBatch) queryTypes b
  = Some b' ->
  Inv (started
       ++ batchPartitions queryTypes zoneBatch)
    [] b'.
Proof.
  revert started b.
  induction queryTypes as [|q qs IH]; intros started b [rest Hplan] HI.
  - simpl. intros [= <-]. by rewrite app_nil_r.
  - cbn [forM]. rewrite batchPartitions_cons in *.
    destruct (runGroup _ _ _ _ zoneBatch b q) as [b1|] eqn:Hg; [|done].
    intros Hrest. rewrite app_assoc. eapply IH; [| |exact Hrest].
    + exists rest. rewrite Hplan. by rewrite <- !app_assoc.
    + eapply runGroup_invariant; [|done|exact Hg].
      eexists. rewrite Hplan. by rewrite <- !app_assoc.
Qed.

Lemma forM_zoneBatches_invariant batches queryTypes started b b' :
  (exists rest,
     plan = started
            ++ concat (batchPartitions queryTypes <$> batches)
            ++ rest) ->
  Inv started [] b ->
  forM (fun b zoneBatch =>
          forM (runGroup env onProgress totalRequests signal zoneBatch)
            queryTypes b) batches b
  = Some b' ->
  Inv (started
       ++ concat (batchPartitions queryTypes <$> batches))
    [] b'.
Proof.
  revert started b.
  induction batches as [|zb zbs IH]; intros started b [rest Hplan] HI.
  - simpl. intros [= <-]. by rewrite app_nil_r.
  - cbn [forM]. rewrite fmap_cons in *. cbn [concat] in *.
    destruct (forM _ queryTypes b) as [b1|] eqn:Hg; [|done].
    intros Hrest. rewrite app_assoc. eapply IH; [| |exact Hrest].
    + exists rest. rewrite Hplan. by rewrite <- !app_assoc.
    + eapply forM_queryTypes_invariant; [|done|exact Hg].
      eexists. rewrite Hplan. by rewrite <- !app_assoc.
Qed.

(** The principle: [fetchBatchData] resolves, in a state that has the
    property for all partitions. *)
Lemma fetchBatchData_invariant zones queryTypes w :
  signal = Some (length (controllers w)) ->
  totalRequests = (length zones * length queryTypes)%nat ->
  plan = partitions zones queryTypes ->
  Inv [] [] {| world := (newAbortController w).2; completedRequests := 0;
               allData := [] |} ->
  exists b',
    fetchBatchData env zones queryTypes onProgress w
    = Some (allData b', world b') /\
    Inv plan [] b'.
Proof.
  intros Hs Ht Hp HI.
  destruct (fetchBatchData_total env zones queryTypes onProgress w)
    as (d & w' & Hrun).
  unfold fetchBatchData in *.
  remember (newAbortController w).2 as w1 eqn:Hw1.
  change (newAbortController w) with (length (controllers w), (newAbortController w).2) in Hrun |- *.
  rewrite <- Hw1 in Hrun |- *.
  cbv beta iota in Hrun |- *. rewrite <- Hs, <- Ht in Hrun |- *.
  match type of Hrun with context [forM ?f ?l ?b0] =>
    destruct (forM f l b0) as [b'|] eqn:Hf end; [|done].
  exists b'. split; [done|].
  rewrite Hp.
  eapply (forM_zoneBatches_invariant (zoneBatches zones) queryTypes []);
    [|exact HI|exact Hf].
  exists []. rewrite Hp. unfold partitions. by rewrite app_nil_r.
Qed.

End BatchInvariant.

(** ** The cache and the outcome of the top-level operations *)

Section FailureFacts.
Context (env : Env).

Lemma answer_rejects s w z q c w' :
  rejects env s w z q -> controllers w' = controllers w ->
  fc_zone c = z -> fc_qry c = q ->
  exists e, answer env s c w' = Throw e.
Proof.
  intros [Ha|Hn] Hc <- <-; unfold answer, aborted in *; rewrite Hc.
  - rewrite Ha. eauto.
  - destruct (match s with Some c0 => _ | None => _ end); [eauto|].
    specialize (Hn (fc_seq c)).
    destruct (network env _ _ _) as [msg|status [j|]]; [eauto| |].
    + rewrite Hn. eauto.
    + destruct ((200 <=? status) && (status <=? 299)); eauto.
Qed.


Lemma fetchZoneData_await_rejected fuel z q s f w0 w :
  rejects env s w0 z q ->
  controllers w = controllers w0 -> cache w = cache w0 -> heap w = heap w0 ->
  waits_for z q f -> (fetchWork f <= fuel)%nat ->
  exists w',
    fetchZoneData_await env fuel z q s f w = Some (Ok (length (heap w0)), w') /\
    cache w' = cache w0 /\ heap w' = heap w0 ++ [[]] /\
    controllers w' = controllers w0.
Proof.
  intros Hrej. revert f w.
  induction fuel as [|fuel IH]; intros f w Hc Hk Hh Hf Hfuel.
  - destruct f; simpl in *; done || lia.
  - destruct f as [a c|a|r]; [| |done].
    + cbn [fetchZoneData_await fetchZoneData_resume].
      destruct Hf as [Hz Hq].
      destruct (answer_rejects s w0 z q c w Hrej Hc Hz Hq) as [e ->].
      destruct (a <? API_CONFIG.retryAttempts)%nat eqn:E.
      * apply IH; try done. apply Nat.ltb_lt in E.
        simpl in *. unfold API_CONFIG.retryAttempts in *. lia.
      * cbn. destruct fuel; cbn; rewrite Hh;
          (eexists; split; [reflexivity|]); cbn; by rewrite ?Hh.
    + cbn [fetchZoneData_await fetchZoneData_resume fetch].
      apply IH; try done. simpl in *. lia.
Qed.

(** A miss whose requests all fail returns a new empty array and leaves
    the cache as it was. *)
Lemma fetchZoneData_failure z q s w :
  cache w !! cacheKey z q = None -> rejects env s w z q ->
  exists w',
    fetchZoneData env z q s w = Some (Ok (length (heap w)), w') /\
    array (length (heap w)) w' = [] /\ cache w' = cache w.
Proof.
  intros Hmiss Hrej. unfold fetchZoneData, fetchZoneData_begin.
  rewrite Hmiss. cbn [fetch].
  edestruct (fetchZoneData_await_rejected (2 * API_CONFIG.retryAttempts) z q s)
    as (w' & Hrun & Hc & Hh & _); [exact Hrej| | | | | |].
  6: { exists w'. split; [exact Hrun|]. split; [|done].
       unfold array. rewrite Hh.
       by rewrite lookup_app_r, Nat.sub_diag by lia. }
  all: simpl; done || lia.
Qed.

End FailureFacts.

(** C3, as claimed, fails: the array a hit returns is the array the
    cache holds.  After a caller has emptied the array it was given, the
    next call for the same partition returns the emptied array, not the
    list that was fetched. *)
Lemma cache_hit_aliasing_counterexample :
  let w1 := afterFirstFetch in
  let w2 := mutate 0 (fun _ => []) w1 in
  fetchZoneData calmEnv "CR" "ODR_RK_OTSG" None w1 = Some (Ok 0%nat, w1) /\
  length (array 0 w1) = 1%nat /\
  fetchZoneData calmEnv "CR" "ODR_RK_OTSG" None w2 = Some (Ok 0%nat, w2) /\
  array 0 w2 = [] /\
  array 0 w2 <> array 0 w1.
Proof.
  cbv zeta.
  split; [by apply fetchZoneData_hit|]. split; [reflexivity|].
  split; [by apply fetchZoneData_hit|]. split; [reflexivity|].
  intros H. apply (f_equal length) in H. vm_compute in H. discriminate.
Qed.

(** C3, amended: for every partition whose cache key has an entry,
    [fetchZoneData] returns the very array stored in the cache (its
    address, not a copy, and nothing freezes it) and does nothing else:
    no request is made and the state, with its trace, is unchanged.  The
    caller shares the array with the cache: after a caller has changed
    the array in place, the next call returns the same address, which
    now holds the changed contents. *)
Theorem fetchZoneData_cached env z q s w r :
  cache w !! cacheKey z q = Some r ->
  fetchZoneData env z q s w = Some (Ok r, w) /\
  forall f,
    fetchZoneData env z q s (mutate r f w) = Some (Ok r, mutate r f w) /\
    ((r < length (heap w))%nat -> array r (mutate r f w) = f (array r w)).
Proof.
  intros H. split; [by apply fetchZoneData_hit|]. intros f.
  split; [by apply fetchZoneData_hit|].
  intros Hr. unfold array at 1, mutate. cbn [heap].
  by rewrite list_lookup_insert_eq.
Qed.

Lemma fetchZoneData_cached_witness :
  fetchZoneData calmEnv "CR" "ODR_RK_OTSG" None afterFirstFetch
  = Some (Ok 0%nat, afterFirstFetch).
Proof.
  apply (fetchZoneData_cached calmEnv "CR" "ODR_RK_OTSG" None afterFirstFetch 0).
  reflexivity.
Defined.

(** *** The trace only grows *)








Lemma cache_cancelFetch w : cache (cancelFetch w) = cache w.
Proof. unfold cancelFetch. by destruct (abortController w). Qed.


Lemma cache_userCancel env s b :
  cache (world (userCancel env s b)) = cache (world b).
Proof.
  unfold userCancel. destruct (_ && _); [apply cache_cancelFetch|done].
Qed.





(** *** The cache is written on success only *)




Section CacheInvariant.
Context (env : Env) (onProgress : bool) (totalRequests : nat)
  (signal : option nat) (plan : list (string * string)).






End CacheInvariant.







Example successful_fetch_is_cached :
  cache afterFirstFetch !! cacheKey "CR" "ODR_RK_OTSG" = Some 0%nat /\
  fetchLog afterFirstFetch
  = [{| fc_zone := "CR"; fc_qry := "ODR_RK_OTSG"; fc_seq := 0;
        fc_sent := true |}].
Proof. split; reflexivity. Qed.

(** C9: the top-level fetch operations never fail because of partition
    errors.  In every environment (whatever the network answers and
    whenever the user cancels), [fetchZoneData] resolves with an array,
    never with an exception, and with a new empty array when the
    partition is not cached and all its requests fail or its signal is
    aborted; and for all zones and query types [fetchSelectedZones] and
    [fetchAllData] resolve with [success: true], no error, and a record
    array whose length is [totalRecords]. *)
Theorem fetch_operations_never_fail env zones queryTypes onProgress z q s w :
  (exists r w', fetchZoneData env z q s w = Some (Ok r, w')) /\
  (cache w !! cacheKey z q = None -> rejects env s w z q ->
   exists r w', fetchZoneData env z q s w = Some (Ok r, w') /\ array r w' = []) /\
  (exists res w',
     fetchSelectedZones env zones queryTypes onProgress w = Some (res, w') /\
     success res = true /\ error_ res = None /\
     totalRecords res = length (data res)) /\
  (exists res w',
     fetchAllData env onProgress w = Some (res, w') /\
     success res = true /\ error_ res = None /\
     totalRecords res = length (data res)).
Proof.
  split; [apply fetchZoneData_total|]. split; [|split].
  - intros Hmiss Hrej.
    destruct (fetchZoneData_failure env z q s w Hmiss Hrej) as (w' & ? & ? & _).
    eauto.
  - unfold fetchSelectedZones.
    destruct (fetchBatchData_total env zones queryTypes onProgress
                (set_isFetching true w)) as (d & w' & ->).
    eexists _, _. split; [reflexivity|done].
  - unfold fetchAllData.
    destruct (fetchBatchData_total env API_CONFIG.zones API_CONFIG.queryTypes
                onProgress (set_isFetching true w)) as (d & w' & ->).
    eexists _, _. split; [reflexivity|done].
Qed.

Lemma fetch_operations_never_fail_witness :
  exists r w',
    fetchZoneData deadEnv "CR" "ODR_RK_OTSG" None initial = Some (Ok r, w') /\
    array r w' = [].
Proof.
  apply (proj1 (proj2 (fetch_operations_never_fail deadEnv [] [] true
                         "CR" "ODR_RK_OTSG" None initial))).
  - reflexivity.
  - right. intros n. exact I.
Defined.

(** When every request fails, and when the user cancels before anything
    has completed, the whole batch still resolves with [success: true]
    and an empty record array. *)
Example fetchAllData_all_partitions_fail :
  (fst <$> fetchAllData deadEnv true initial)
  = Some {| success := true; error_ := None; data := []; totalRecords := 0 |}.
Proof. vm_compute. reflexivity. Qed.

Example fetchAllData_cancelled_at_once :
  (fst <$> fetchAllData cancelledEnv true initial)
  = Some {| success := true; error_ := None; data := []; totalRecords := 0 |}.
Proof. vm_compute. reflexivity. Qed.

(** ** The progress events of a batch *)

Lemma progressLog_emit e w :
  progressLog (emit e w)
  = progressLog w ++ match e with EProgress p => [p] | _ => [] end.
Proof.
  unfold progressLog. cbn. rewrite omap_app. by destruct e.
Qed.

Lemma startLog_emit e w :
  startLog (emit e w)
  = startLog w ++ match e with EStart z q => [(z, q)] | _ => [] end.
Proof.
  unfold startLog. cbn. rewrite omap_app. by destruct e.
Qed.

Lemma progressLog_cancelFetch w : progressLog (cancelFetch w) = progressLog w.
Proof.
  unfold cancelFetch, progressLog. destruct (abortController w); [|done].
  cbn. by rewrite omap_app, app_nil_r.
Qed.

Lemma startLog_cancelFetch w : startLog (cancelFetch w) = startLog w.
Proof.
  unfold cancelFetch, startLog. destruct (abortController w); [|done].
  cbn. by rewrite omap_app, app_nil_r.
Qed.

Lemma progressLog_userCancel env s b :
  progressLog (world (userCancel env s b)) = progressLog (world b).
Proof.
  unfold userCancel. destruct (_ && _); [apply progressLog_cancelFetch|done].
Qed.

Lemma startLog_userCancel env s b :
  startLog (world (userCancel env s b)) = startLog (world b).
Proof.
  unfold userCancel. destruct (_ && _); [apply startLog_cancelFetch|done].
Qed.

Lemma completedRequests_userCancel env s b :
  completedRequests (userCancel env s b) = completedRequests b.
Proof. unfold userCancel. by destruct (_ && _). Qed.

Lemma allData_userCancel env s b :
  allData (userCancel env s b) = allData b.
Proof. unfold userCancel. by destruct (_ && _). Qed.

(** One resumption of [fetchZoneData] makes at most one call of [fetch]
    and has no other effect on the trace. *)
Lemma fetchZoneData_resume_trace env z q s f w :
  let w' := (fetchZoneData_resume env z q s f w).2 in
  trace w' = trace w \/
  exists a c,
    f = Backoff a /\ trace w' = trace w ++ [EFetch c] /\
    fc_zone c = z /\ fc_qry c = q /\ fc_sent c = negb (aborted s w).
Proof.
  destruct f as [a c|a|r]; cbn [fetchZoneData_resume].
  - destruct (answer env s c w) as [response|e].
    + destruct (processData _ _ _ response); cbn; by left.
    + destruct (a <? API_CONFIG.retryAttempts)%nat; cbn; by left.
  - cbn. right. by eexists _, _.
  - by left.
Qed.

Lemma fetchZoneData_resume_logs env z q s f w :
  let w' := (fetchZoneData_resume env z q s f w).2 in
  progressLog w' = progressLog w /\ startLog w' = startLog w.
Proof.
  destruct (fetchZoneData_resume_trace env z q s f w)
    as [H|(a & c & _ & H & _)]; unfold progressLog, startLog; rewrite H.
  - done.
  - by rewrite !omap_app, !app_nil_r.
Qed.

(** What the rest of the callback does: the counter is incremented and,
    if there is a callback, one event is reported, which carries the new
    count and, when [fetchZoneData] returned an array, its length and no
    error message. *)
Lemma afterFetch_logs onProgress tot z q r b :
  let b' := (afterFetch onProgress tot z q r b).2 in
  startLog (world b') = startLog (world b) /\
  allData b' = allData b /\
  completedRequests b' = S (completedRequests b) /\
  exists p,
    progressLog (world b')
    = progressLog (world b) ++ (if onProgress then [p] else []) /\
    completed p = S (completedRequests b) /\ total p = tot /\
    pzone p = z /\ pqueryType p = q /\
    (forall d, r = Ok d ->
       error p = None /\
       recordsFetched p = Some (length (array d (world b)))).
Proof.
  unfold afterFetch, startLog, progressLog.
  destruct r as [d|e], onProgress; cbn;
    rewrite ?omap_app; cbn; rewrite ?app_nil_r;
    (split; [done|]); (split; [done|]); (split; [done|]).
  - eexists. split; [reflexivity|]. cbn. split_and!; try done.
    by intros ? [= <-].
  - exists {| completed := S (completedRequests b); total := tot;
              pzone := z; pqueryType := q;
              recordsFetched := Some (length (array d (world b)));
              error := None |}.
    cbn. split_and!; try done. by intros ? [= <-].
  - eexists. split; [reflexivity|]. cbn. split_and!; done.
  - exists {| completed := S (completedRequests b); total := tot;
              pzone := z; pqueryType := q; recordsFetched := None;
              error := None |}.
    cbn. split_and!; done.
Qed.

(** What the resumption of a task does to the logs and to the counter:
    nothing while the task still waits; when it is fulfilled the counter
    is incremented and, if there is a callback, one event is reported. *)
Lemma stepTask_progress env onProgress tot s t b :
  isWaiting t = true ->
  let t' := (stepTask env onProgress tot s t b).1 in
  let b' := (stepTask env onProgress tot s t b).2 in
  startLog (world b') = startLog (world b) /\
  allData b' = allData b /\
  task_settles_ok t' /\
  ((isWaiting t' = true /\
    completedRequests b' = completedRequests b /\
    progressLog (world b') = progressLog (world b)) \/
   (isWaiting t' = false /\
    completedRequests b' = S (completedRequests b) /\
    exists p,
      progressLog (world b')
      = progressLog (world b) ++ (if onProgress then [p] else []) /\
      completed p = S (completedRequests b) /\ total p = tot /\
      pzone p = t_zone t /\ pqueryType p = t_qry t /\
      (task_settles_ok t -> error p = None))).
Proof.
  intros Hw. unfold stepTask, isWaiting in *.
  destruct (t_state t) as [f|r] eqn:Hst; [|done].
  pose proof (fetchZoneData_resume_logs env (t_zone t) (t_qry t) s f (world b))
    as [Hp Hs].
  assert (task_settles_ok t ->
          settles_ok (fetchZoneData_resume env (t_zone t) (t_qry t) s f (world b)).1)
    as Hok.
  { intros Hset. apply fetchZoneData_resume_ok.
    unfold task_settles_ok in Hset. rewrite Hst in Hset. by destruct f as [| |[]]. }
  destruct (fetchZoneData_resume env (t_zone t) (t_qry t) s f (world b))
    as [f' w']. cbn [fst snd] in *.
  destruct f' as [a' c'|a'|r'].
  - cbn. split_and!; try done. by left.
  - cbn. split_and!; try done. by left.
  - pose proof (afterFetch_logs onProgress tot (t_zone t) (t_qry t) r'
                  {| world := w'; completedRequests := completedRequests b;
                     allData := allData b |})
      as (Hs1 & Hd1 & Hc1 & p & Hp1 & Hpc & Hpt & Hpz & Hpq & Hperr).
    destruct (afterFetch _ _ _ _ _ _) as [d b1]. cbn [fst snd world
      completedRequests allData] in *.
    rewrite startLog_userCancel, progressLog_userCancel,
      completedRequests_userCancel, allData_userCancel.
    split; [by rewrite Hs1|]. split; [done|]. split; [done|]. right.
    split; [done|]. split; [done|].
    exists p. rewrite Hp1, Hp. split_and!; try done.
    intros Hset. specialize (Hok Hset). destruct r' as [d'|e']; [|done].
    by destruct (Hperr d' eq_refl).
Qed.

(** *** What one resumption of a task does to the trace *)

Lemma userCancel_trace env s b :
  let b' := userCancel env s b in
  completedRequests b' = completedRequests b /\ allData b' = allData b /\
  abortController (world b') = abortController (world b) /\
  heap (world b') = heap (world b) /\ cache (world b') = cache (world b) /\
  length (controllers (world b')) = length (controllers (world b)) /\
  ((trace (world b') = trace (world b) /\
    controllers (world b') = controllers (world b)) \/
   (trace (world b') = trace (world b) ++ [ECancel] /\
    aborted s (world b) = false /\
    cancelAt env = Some (completedRequests b) /\
    exists c, abortController (world b) = Some c /\
      controllers (world b') = <[c := true]> (controllers (world b)))).
Proof.
  unfold userCancel.
  destruct (bool_decide (cancelAt env = Some (completedRequests b))) eqn:Hat;
    [|cbn; split_and!; try done; by left].
  destruct (aborted s (world b)) eqn:Hab; cbn;
    [split_and!; try done; by left|].
  unfold cancelFetch. destruct (abortController (world b)) as [c|] eqn:Hc; cbn.
  - rewrite ?Hc, length_insert. split_and!; try done. right.
    apply bool_decide_eq_true in Hat. split_and!; try done. by exists c.
  - split_and!; try done. by left.
Qed.

Lemma afterFetch_trace onProgress tot z q r b :
  let d := (afterFetch onProgress tot z q r b).1 in
  let b' := (afterFetch onProgress tot z q r b).2 in
  allData b' = allData b /\
  completedRequests b' = S (completedRequests b) /\
  controllers (world b') = controllers (world b) /\
  abortController (world b') = abortController (world b) /\
  cache (world b') = cache (world b) /\
  exists p,
    trace (world b')
    = trace (world b) ++ (if onProgress then [EProgress p] else []) /\
    completed p = S (completedRequests b) /\ total p = tot /\
    pzone p = z /\ pqueryType p = q /\
    match r with
    | Ok d0 =>
        d = d0 /\ heap (world b') = heap (world b) /\ error p = None /\
        recordsFetched p = Some (length (array d0 (world b)))
    | Throw e =>
        d = length (heap (world b)) /\
        heap (world b') = heap (world b) ++ [[]] /\
        error p = Some (exn_message e)
    end.
Proof.
  unfold afterFetch. destruct r as [d|e], onProgress; cbn;
    rewrite ?app_nil_r; split_and!; try done.
  - eexists. split; [reflexivity|]. by cbn.
  - by exists {| completed := S (completedRequests b); total := tot;
                 pzone := z; pqueryType := q;
                 recordsFetched := Some (length (array d (world b)));
                 error := None |}.
  - eexists. split; [reflexivity|]. by cbn.
  - by exists {| completed := S (completedRequests b); total := tot;
                 pzone := z; pqueryType := q; recordsFetched := None;
                 error := Some (exn_message e) |}.
Qed.

(** The cases of one resumption of [fetchZoneData]: the request failed
    and is retried; the request failed for the last time, or its answer
    could not be processed, and a new empty array is returned; the request
    succeeded and its records are cached and returned; the retry timer
    fired and the next request is made; the call had settled. *)
Lemma fetchZoneData_resume_cases env z q s f w :
  let res := fetchZoneData_resume env z q s f w in
  (exists a c e,
     f = InFlight a c /\ answer env s c w = Throw e /\
     (a < API_CONFIG.retryAttempts)%nat /\ res = (Backoff a, w)) \/
  (exists a c,
     f = InFlight a c /\
     ((exists e, answer env s c w = Throw e /\
                 ~ (a < API_CONFIG.retryAttempts)%nat) \/
      (exists j e, answer env s c w = Ok j /\
                   processData (dates env) q z j = Throw e)) /\
     res = (Returned (Ok (length (heap w))), (alloc [] w).2)) \/
  (exists a c j records,
     f = InFlight a c /\ answer env s c w = Ok j /\
     processData (dates env) q z j = Ok records /\
     res = (Returned (Ok (length (heap w))),
            set_cache (<[cacheKey z q := length (heap w)]> (cache w))
              (alloc records w).2)) \/
  (exists a,
     f = Backoff a /\
     res = (InFlight (S a) (fetch z q s w).1, (fetch z q s w).2)) \/
  (exists r, f = Returned r /\ res = (Returned r, w)).
Proof.
  destruct f as [a c|a|r]; cbn [fetchZoneData_resume].
  - destruct (answer env s c w) as [j|e] eqn:Ha.
    + destruct (processData (dates env) q z j) as [records|e] eqn:Hp.
      * right. right. left. by exists a, c, j, records.
      * right. left. exists a, c. split; [done|]. split; [|done].
        right. by exists j, e.
    + destruct (a <? API_CONFIG.retryAttempts)%nat eqn:E.
      * left. apply Nat.ltb_lt in E. by exists a, c, e.
      * right. left. apply Nat.ltb_ge in E. exists a, c. split; [done|].
        split; [|done]. left. exists e. split; [done|]. lia.
  - right. right. right. left. by exists a.
  - right. right. right. right. by exists r.
Qed.

Lemma stepTask_unfold env onProgress tot s t b f :
  t_state t = Awaiting f ->
  stepTask env onProgress tot s t b
  = let res := fetchZoneData_resume env (t_zone t) (t_qry t) s f (world b) in
    let b1 := {| world := res.2; completedRequests := completedRequests b;
                 allData := allData b |} in
    match res.1 with
    | Returned r =>
        ({| t_zone := t_zone t; t_qry := t_qry t;
            t_state := Fulfilled
              (afterFetch onProgress tot (t_zone t) (t_qry t) r b1).1 |},
         userCancel env s
           (afterFetch onProgress tot (t_zone t) (t_qry t) r b1).2)
    | f' =>
        ({| t_zone := t_zone t; t_qry := t_qry t; t_state := Awaiting f' |}, b1)
    end.
Proof.
  intros Hst. unfold stepTask. rewrite Hst.
  destruct (fetchZoneData_resume _ _ _ _ _ _) as [[a c|a|r] w']; cbn; try done.
  by destruct (afterFetch _ _ _ _ _ _).
Qed.

(** *** Starts and completions *)

Lemma marks_emit e w :
  marks (emit e w) = marks w ++ match mark e with Some m => [m] | None => [] end.
Proof. unfold marks. cbn. rewrite omap_app. cbn. by destruct (mark e). Qed.

Lemma marks_app_trace w w' l :
  trace w' = trace w ++ l -> marks w' = marks w ++ omap mark l.
Proof. unfold marks. intros ->. by rewrite omap_app. Qed.

Lemma fetchZoneData_begin_marks z q s w :
  marks (fetchZoneData_begin z q s w).2 = marks w.
Proof.
  unfold fetchZoneData_begin. destruct (cache w !! cacheKey z q); [done|].
  cbn [fetch snd]. by rewrite marks_emit, app_nil_r.
Qed.

Lemma startTask_marks s q b z :
  let t := (startTask s q b z).1 in
  let b' := (startTask s q b z).2 in
  marks (world b') = marks (world b) ++ [Started z q] /\
  completedRequests b' = completedRequests b /\ allData b' = allData b /\
  isWaiting t = true.
Proof.
  unfold startTask.
  pose proof (fetchZoneData_begin_marks z q s (emit (EStart z q) (world b))) as H.
  destruct (fetchZoneData_begin z q s _) as [f w']. cbn [fst snd world] in *.
  by rewrite H, marks_emit.
Qed.

Lemma fulfil_marks env onProgress tot s z q r b1 :
  let b' := userCancel env s (afterFetch onProgress tot z q r b1).2 in
  allData b' = allData b1 /\
  completedRequests b' = S (completedRequests b1) /\
  marks (world b')
  = marks (world b1)
    ++ (if onProgress then [Completed (S (completedRequests b1))] else []).
Proof.
  destruct (afterFetch_trace onProgress tot z q r b1)
    as (Hd & Hc & _ & _ & _ & p & Htr & Hpc & _).
  destruct (userCancel_trace env s (afterFetch onProgress tot z q r b1).2)
    as (Hc2 & Hd2 & _ & _ & _ & _ & Htr2).
  cbv zeta. rewrite Hd2, Hc2, Hd, Hc. split; [done|]. split; [done|].
  destruct Htr2 as [[Htr2 _]|(Htr2 & _)]; unfold marks; rewrite Htr2, Htr;
    rewrite ?omap_app; destruct onProgress; cbn; rewrite ?app_nil_r, ?Hpc; done.
Qed.

Lemma stepTask_marks env onProgress tot s t b :
  isWaiting t = true ->
  let t' := (stepTask env onProgress tot s t b).1 in
  let b' := (stepTask env onProgress tot s t b).2 in
  allData b' = allData b /\
  ((isWaiting t' = true /\ completedRequests b' = completedRequests b /\
    marks (world b') = marks (world b)) \/
   (isWaiting t' = false /\ completedRequests b' = S (completedRequests b) /\
    marks (world b')
    = marks (world b)
      ++ (if onProgress then [Completed (S (completedRequests b))] else []))).
Proof.
  unfold isWaiting. destruct (t_state t) as [f|] eqn:Hst; [intros _|done].
  rewrite (stepTask_unfold _ _ _ _ _ _ _ Hst). cbv zeta.
  destruct (fetchZoneData_resume_cases env (t_zone t) (t_qry t) s f (world b))
    as [(a & c & e & -> & _ & _ & ->)|[(a & c & -> & _ & ->)|
        [(a & c & j & records & -> & _ & _ & ->)|[(a & -> & ->)|(r & -> & ->)]]]];
    cbn [fst snd].
  - cbn. split; [done|]. by left.
  - match goal with |- context [afterFetch ?o ?tt ?z ?q ?r ?b1] =>
      destruct (fulfil_marks env o tt s z q r b1) as (Hd & Hc & Hm) end.
    cbn [isWaiting t_state]. split; [done|]. right. by split_and!.
  - match goal with |- context [afterFetch ?o ?tt ?z ?q ?r ?b1] =>
      destruct (fulfil_marks env o tt s z q r b1) as (Hd & Hc & Hm) end.
    cbn [isWaiting t_state]. split; [done|]. right. by split_and!.
  - cbn [fetch fst snd isWaiting t_state world completedRequests allData].
    split; [done|]. left. split; [done|]. split; [done|].
    by rewrite marks_emit, app_nil_r.
  - match goal with |- context [afterFetch ?o ?tt ?z ?q ?r ?b1] =>
      destruct (fulfil_marks env o tt s z q r b1) as (Hd & Hc & Hm) end.
    cbn [isWaiting t_state]. split; [done|]. right. by split_and!.
Qed.

Lemma list_sum_insert (f : Task -> nat) ts i (t t' : Task) :
  ts !! i = Some t ->
  (list_sum (f <$> <[i := t']> ts) + f t = list_sum (f <$> ts) + f t')%nat.
Proof.
  revert i. induction ts as [|x ts IH]; intros [|i] H; simpl in *; try done.
  - injection H as ->. lia.
  - specialize (IH _ H). unfold fmap in IH. lia.
Qed.


Lemma waitingCount_fulfilled ts :
  Forall (fun t => isWaiting t = false) ts -> waitingCount ts = 0%nat.
Proof.
  unfold waitingCount. induction 1 as [|t ts Ht _ IH]; [done|].
  rewrite fmap_cons. cbn [list_sum fold_right]. rewrite Ht.
  unfold list_sum in IH. by rewrite IH.
Qed.

Lemma length_group zoneBatch q : length (group zoneBatch q) = length zoneBatch.
Proof. apply length_fmap. Qed.

Lemma startTasks_marks s q zoneBatch b :
  let ts := (startTasks s q zoneBatch b).1 in
  let b' := (startTasks s q zoneBatch b).2 in
  marks (world b')
  = marks (world b) ++ ((fun p : string * string => Started p.1 p.2)
                          <$> group zoneBatch q) /\
  completedRequests b' = completedRequests b /\ allData b' = allData b /\
  waitingCount ts = length zoneBatch.
Proof.
  revert b. induction zoneBatch as [|z zs IH]; intros b.
  - cbn. by rewrite app_nil_r.
  - cbn [startTasks]. destruct (startTask_marks s q b z) as (Hm & Hc & Hd & Hw).
    destruct (startTask s q b z) as [t b1]. cbn [fst snd] in *.
    destruct (IH b1) as (Hm' & Hc' & Hd' & Hw').
    destruct (startTasks s q zs b1) as [ts b2]. cbn [fst snd] in *.
    rewrite Hm', Hm, Hc', Hc, Hd', Hd, group_cons, fmap_cons, <- app_assoc.
    split_and!; try done.
    unfold waitingCount in *. rewrite fmap_cons. cbn [list_sum fold_right length].
    rewrite Hw. unfold list_sum in Hw'. by rewrite Hw'.
Qed.

Section GroupMarks.
Context (env : Env) (onProgress : bool) (totalRequests : nat)
  (signal : option nat).
Context (marks0 : list Mark) (count0 : nat) (size : nat)
  (allData0 : list CanonicalRecord).


Lemma groupInv_cancel started ts b :
  groupInv onProgress marks0 count0 size allData0 started ts b -> groupInv onProgress marks0 count0 size allData0 started ts (userCancel env signal b).
Proof.
  intros (Hd & Hc & Hle & Hm).
  destruct (userCancel_trace env signal b) as (Hc' & Hd' & _ & _ & _ & _ & Htr).
  unfold groupInv. rewrite Hc', Hd'. split_and!; try done.
  rewrite <- Hm. destruct Htr as [[Htr _]|[Htr _]]; unfold marks; rewrite Htr;
    [done|]. by rewrite omap_app, app_nil_r.
Qed.

Lemma groupInv_step started ts b i t :
  groupInv onProgress marks0 count0 size allData0 started ts b -> ts !! i = Some t -> isWaiting t = true ->
  groupInv onProgress marks0 count0 size allData0 started
    (<[i := (stepTask env onProgress totalRequests signal t (tickBatch b)).1]> ts)
    (stepTask env onProgress totalRequests signal t (tickBatch b)).2.
Proof.
  intros (Hd & Hc & Hle & Hm) Hl Hw.
  destruct (stepTask_marks env onProgress totalRequests signal t (tickBatch b) Hw)
    as (Hd' & Hcases).
  destruct (stepTask env onProgress totalRequests signal t (tickBatch b))
    as [t' b']. cbn [fst snd] in *.
  pose proof (list_sum_insert (fun t => if isWaiting t then 1 else 0)%nat
                ts i t t' Hl) as Hsum.
  fold (waitingCount (<[i:=t']> ts)) in Hsum. fold (waitingCount ts) in Hsum.
  cbv beta in Hsum. rewrite Hw in Hsum. unfold groupInv.
  change (completedRequests (tickBatch b)) with (completedRequests b) in *.
  change (allData (tickBatch b)) with (allData b) in *.
  change (marks (world (tickBatch b))) with (marks (world b)) in *.
  destruct Hcases as [(Hw' & Hc' & Hm')|(Hw' & Hc' & Hm')];
    rewrite Hw' in Hsum; rewrite Hc', Hm', Hd'.
  - split_and!; try done. lia.
  - split_and!; try done; [lia|lia|]. rewrite Hm.
    destruct onProgress; [|by rewrite app_nil_r].
    rewrite <- app_assoc. f_equal.
    replace (S (completedRequests b) - count0)%nat
      with (S (completedRequests b - count0)) by lia.
    rewrite seq_S, fmap_app. cbn. do 3 f_equal. lia.
Qed.

End GroupMarks.

Lemma runGroup_marks env onProgress tot s zoneBatch b q b' :
  runGroup env onProgress tot s zoneBatch b q = Some b' ->
  marks (world b')
  = marks (world b)
    ++ ((fun p : string * string => Started p.1 p.2) <$> group zoneBatch q)
    ++ (if onProgress
        then Completed <$> seq (S (completedRequests b)) (length zoneBatch)
        else []) /\
  completedRequests b' = (completedRequests b + length zoneBatch)%nat.
Proof.
  unfold runGroup.
  destruct (startTasks_marks s q zoneBatch b) as (Hm & Hc & Hd & Hw).
  destruct (startTasks s q zoneBatch b) as [ts b1]. cbn [fst snd] in *.
  pose proof (runTasks_fulfils env onProgress tot s
                (list_sum (work <$> ts)) ts b1 (le_n _)) as Hdone.
  pose proof (runTasks_invariant env onProgress tot s
                (groupInv onProgress (marks (world b1)) (completedRequests b1)
                   (length zoneBatch) (allData b1))
                (groupInv_cancel env onProgress s _ _ _ _)
                (groupInv_step env onProgress tot s _ _ _ _)
                (list_sum (work <$> ts)) [] ts b1) as Hinv.
  destruct (runTasks env onProgress tot s _ ts b1) as [ts' b2].
  cbn [fst snd] in *.
  destruct Hinv as (Hd2 & Hc2 & Hle2 & Hm2).
  { unfold groupInv. rewrite Nat.sub_diag, Hw. cbn.
    split_and!; try done. by destruct onProgress; rewrite app_nil_r. }
  rewrite (waitingCount_fulfilled _ Hdone) in Hc2.
  destruct (batchResults ts') as [rs|]; [|done]. intros [= <-]. cbn.
  rewrite Hm2, Hm, <- app_assoc, Hc.
  replace (completedRequests b2 - completedRequests b)%nat
    with (length zoneBatch) by lia.
  split; [done|lia].
Qed.

Lemma groupMarks_app onProgress offset gs1 gs2 :
  groupMarks onProgress offset (gs1 ++ gs2)
  = groupMarks onProgress offset gs1
    ++ groupMarks onProgress (offset + length (concat gs1)) gs2.
Proof.
  revert offset. induction gs1 as [|g gs1 IH]; intros offset; cbn.
  - by rewrite Nat.add_0_r.
  - rewrite IH, <- !app_assoc, length_app. do 3 f_equal. f_equal. lia.
Qed.

Lemma forM_queryTypes_marks env onProgress tot s zoneBatch queryTypes b b' :
  forM (runGroup env onProgress tot s zoneBatch) queryTypes b = Some b' ->
  marks (world b')
  = marks (world b)
    ++ groupMarks onProgress (completedRequests b)
         (group zoneBatch <$> queryTypes) /\
  completedRequests b'
  = (completedRequests b
     + length (concat (group zoneBatch <$> queryTypes)))%nat.
Proof.
  revert b. induction queryTypes as [|q qs IH]; intros b; cbn [forM].
  - intros [= <-]. cbn. by rewrite app_nil_r, Nat.add_0_r.
  - destruct (runGroup env onProgress tot s zoneBatch b q) as [b1|] eqn:Hg;
      [|done].
    intros Hrest. destruct (runGroup_marks _ _ _ _ _ _ _ _ Hg) as [Hm Hc].
    destruct (IH b1 Hrest) as [Hm' Hc'].
    rewrite Hm', Hc', Hm, Hc, fmap_cons. cbn [groupMarks concat].
    rewrite length_app, <- !app_assoc, length_group.
    split; [done|lia].
Qed.

Lemma forM_zoneBatches_marks env onProgress tot s batches queryTypes b b' :
  forM (fun b zoneBatch =>
          forM (runGroup env onProgress tot s zoneBatch) queryTypes b)
    batches b = Some b' ->
  marks (world b')
  = marks (world b)
    ++ groupMarks onProgress (completedRequests b)
         (concat ((fun zoneBatch => group zoneBatch <$> queryTypes) <$> batches)) /\
  completedRequests b'
  = (completedRequests b
     + length (concat (concat
         ((fun zoneBatch => group zoneBatch <$> queryTypes) <$> batches))))%nat.
Proof.
  revert b. induction batches as [|zb zbs IH]; intros b; cbn [forM].
  - intros [= <-]. cbn. by rewrite app_nil_r, Nat.add_0_r.
  - destruct (forM _ queryTypes b) as [b1|] eqn:Hg; [|done].
    intros Hrest. destruct (forM_queryTypes_marks _ _ _ _ _ _ _ _ Hg) as [Hm Hc].
    destruct (IH b1 Hrest) as [Hm' Hc'].
    rewrite Hm', Hc', Hm, Hc, fmap_cons. cbn [concat].
    rewrite groupMarks_app, concat_app, length_app, <- !app_assoc.
    split; [done|lia].
Qed.

(** The starts and completions of a whole batch. *)
Lemma fetchBatchData_marks env zones queryTypes onProgress w d w' :
  fetchBatchData env zones queryTypes onProgress w = Some (d, w') ->
  marks w' = marks w ++ groupMarks onProgress 0 (groups zones queryTypes).
Proof.
  unfold fetchBatchData. cbn [newAbortController].
  match goal with |- context [forM ?f ?l ?b0] =>
    destruct (forM f l b0) as [b'|] eqn:Hf end; [|done].
  intros [= <- <-].
  by destruct (forM_zoneBatches_marks _ _ _ _ _ _ _ _ Hf) as [-> _].
Qed.



Lemma concat_groups zones queryTypes :
  concat (groups zones queryTypes) = partitions zones queryTypes.
Proof.
  unfold groups, partitions, batchPartitions.
  induction (zoneBatches zones) as [|zb zbs IH]; [done|].
  cbn. by rewrite concat_app, IH.
Qed.

(** The slices cover the zones, in order, three at a time. *)
Lemma concat_slices (n : nat) (l : list string) :
  (length l <= batchSize * n)%nat ->
  concat ((fun j => take batchSize (drop (j * batchSize) l)) <$> seq 0 n) = l.
Proof.
  revert l. induction n as [|n IH]; intros l Hl.
  - destruct l; [done|]. simpl in Hl. lia.
  - cbn [seq]. rewrite fmap_cons. cbn [concat].
    rewrite <- fmap_S_seq, <- list_fmap_compose.
    assert (((fun j => take batchSize (drop (j * batchSize) l)) ∘ S <$> seq 0 n)
            = ((fun j => take batchSize (drop (j * batchSize) (drop batchSize l)))
                 <$> seq 0 n)) as ->.
    { apply list_fmap_ext. intros i j _. cbn. by rewrite drop_drop. }
    rewrite IH; [apply take_drop|]. rewrite length_drop. unfold batchSize in *. lia.
Qed.

Lemma concat_zoneBatches zones : concat (zoneBatches zones) = zones.
Proof.
  apply concat_slices. unfold batchSize.
  pose proof (Nat.div_mod_eq (length zones + 3 - 1) 3).
  pose proof (Nat.mod_upper_bound (length zones + 3 - 1) 3). lia.
Qed.


(** *** No progress event carries an error message *)

Lemma startTask_progress s q b z :
  progressLog (world (startTask s q b z).2) = progressLog (world b) /\
  task_settles_ok (startTask s q b z).1.
Proof.
  unfold startTask, fetchZoneData_begin, task_settles_ok. cbn [emit cache].
  destruct (cache (world b) !! cacheKey z q); cbn; unfold progressLog; cbn;
    rewrite !omap_app; cbn; by rewrite ?app_nil_r.
Qed.


Lemma noErrorInv_step env onProgress tot s started ts b i t :
  noErrorInv started ts b -> ts !! i = Some t -> isWaiting t = true ->
  noErrorInv started
    (<[i := (stepTask env onProgress tot s t (tickBatch b)).1]> ts)
    (stepTask env onProgress tot s t (tickBatch b)).2.
Proof.
  intros [Hn Ht] Hl Hw.
  destruct (stepTask_progress env onProgress tot s t (tickBatch b) Hw)
    as (_ & _ & Hok' & Hcases).
  split; [|by apply Forall_insert].
  unfold no_error_reported in *.
  change (progressLog (world (tickBatch b))) with (progressLog (world b)) in *.
  destruct Hcases as [(_ & _ & ->)|(_ & _ & p & -> & _ & _ & _ & _ & Herr)];
    [done|].
  apply Forall_app. split; [done|]. destruct onProgress; [|constructor].
  constructor; [|constructor]. apply Herr.
  exact (Forall_lookup_1 _ _ _ _ Ht Hl).
Qed.

Lemma noErrorInv_start s started ts b z q :
  noErrorInv started ts b ->
  noErrorInv (started ++ [(z, q)]) (ts ++ [(startTask s q b z).1])
    (startTask s q b z).2.
Proof.
  intros [Hn Ht]. destruct (startTask_progress s q b z) as [Hp Hok].
  split; [unfold no_error_reported; by rewrite Hp|].
  apply Forall_app. split; [done|by constructor].
Qed.

Lemma noErrorInv_cancel env s started ts b :
  noErrorInv started ts b -> noErrorInv started ts (userCancel env s b).
Proof.
  intros [Hn Ht]. split; [|done].
  unfold no_error_reported. by rewrite progressLog_userCancel.
Qed.

(** In every environment, a batch that starts in a state in which no
    progress event carried an error message ends in such a state: the
    branch of [fetchBatchData] that reports [error: error.message] (lines
    163-178) is never taken, because [fetchZoneData] catches every error
    itself. *)
Lemma progress_never_reports_error env zones queryTypes onProgress w :
  no_error_reported w ->
  exists d w',
    fetchBatchData env zones queryTypes onProgress w = Some (d, w') /\
    no_error_reported w'.
Proof.
  intros Hw.
  destruct (fetchBatchData_invariant env onProgress
              (length zones * length queryTypes) (Some (length (controllers w)))
              (partitions zones queryTypes) noErrorInv
              (fun started ts b z q _ => noErrorInv_start _ started ts b z q)
              (noErrorInv_cancel env _)
              (noErrorInv_step env onProgress _ _)
              (fun started ts b rs H _ => conj (proj1 H) (List.Forall_nil _))
              zones queryTypes w eq_refl eq_refl eq_refl)
    as (b' & Hrun & [Hn _]).
  - split; [done|constructor].
  - eauto.
Qed.

(** C1, evaluated on scenario C (two zones, two query types, every
    request for the partition (ER, MATURED_INDENTS) fails): the batch
    resolves with the records of the other three partitions and
    [onProgress] is called four times, with the counts 1 to 4, but the
    event of the failed partition reports 0 records fetched and carries
    no error message. *)
Theorem scenarioC_failed_partition_reports_no_error :
  (fun '(res, w) =>
     (success res,
      (fun c => (zone c, qry c)) <$> data res,
      (fun p => (completed p, total p, pzone p, pqueryType p,
                 recordsFetched p, error p)) <$> progressLog w))
    <$> fetchSelectedZones scenarioC ["CR"; "ER"] twoQueryTypes true initial
  = Some
      (true,
       [("CR", "MATURED_INDENTS"); ("CR", "ODR_RK_OTSG"); ("ER", "ODR_RK_OTSG")],
       [(1%nat, 4%nat, "CR", "MATURED_INDENTS", Some 1%nat, None);
        (2%nat, 4%nat, "ER", "MATURED_INDENTS", Some 0%nat, None);
        (3%nat, 4%nat, "CR", "ODR_RK_OTSG", Some 1%nat, None);
        (4%nat, 4%nat, "ER", "ODR_RK_OTSG", Some 1%nat, None)]).
Proof. vm_compute. reflexivity. Qed.

(** ** The order of the loops *)



Example groupMarks_fourZones :
  groupMarks true 0 (groups fourZones twoQueryTypes)
  = [Started "CR" "MATURED_INDENTS"; Started "ER" "MATURED_INDENTS";
     Started "NR" "MATURED_INDENTS"; Completed 1; Completed 2; Completed 3;
     Started "CR" "ODR_RK_OTSG"; Started "ER" "ODR_RK_OTSG";
     Started "NR" "ODR_RK_OTSG"; Completed 4; Completed 5; Completed 6;
     Started "SR" "MATURED_INDENTS"; Completed 7;
     Started "SR" "ODR_RK_OTSG"; Completed 8].
Proof. reflexivity. Qed.

(** ** Cancellation *)

(** What one resumption of a task does, when the signal of the batch is
    the one the service holds: the task keeps its partition; either it
    still waits and nothing changed but, possibly, one call of [fetch]
    that is sent exactly when the signal is not aborted; or it is
    fulfilled, one completion is reported, the user may then cancel, and
    the array it is fulfilled with is a new empty array (the fetch
    failed), or a new array that is also cached (the fetch succeeded,
    which needs a signal that is not aborted), or what [fetchZoneData]
    had already returned. *)
Lemma stepTask_cases env onProgress tot c0 t b :
  isWaiting t = true ->
  abortController (world b) = Some c0 ->
  (c0 < length (controllers (world b)))%nat ->
  let s := Some c0 in
  let t' := (stepTask env onProgress tot s t b).1 in
  let b' := (stepTask env onProgress tot s t b).2 in
  part t' = part t /\ allData b' = allData b /\
  abortController (world b') = Some c0 /\
  (c0 < length (controllers (world b')))%nat /\
  (aborted s (world b) = true -> aborted s (world b') = true) /\
  ((exists f', t_state t' = Awaiting f' /\
      (forall r, f' <> Returned r) /\
      heap (world b') = heap (world b) /\ cache (world b') = cache (world b) /\
      controllers (world b') = controllers (world b) /\
      completedRequests b' = completedRequests b /\
      (trace (world b') = trace (world b) \/
       exists c, trace (world b') = trace (world b) ++ [EFetch c] /\
                 fc_sent c = negb (aborted s (world b)))) \/
   (exists r p cs, t_state t' = Fulfilled r /\
      completedRequests b' = S (completedRequests b) /\
      trace (world b')
      = trace (world b) ++ (if onProgress then [EProgress p] else []) ++ cs /\
      (cs = [] \/ cs = [ECancel] /\ aborted s (world b') = true) /\
      ((exists a c, t_state t = Awaiting (InFlight a c) /\
          r = length (heap (world b)) /\
          heap (world b') = heap (world b) ++ [[]] /\
          cache (world b') = cache (world b) /\
          recordsFetched p = Some 0%nat) \/
       (exists a c records, t_state t = Awaiting (InFlight a c) /\
          aborted s (world b) = false /\
          r = length (heap (world b)) /\
          heap (world b') = heap (world b) ++ [records] /\
          cache (world b') = <[keyOf (part t) := r]> (cache (world b)) /\
          recordsFetched p = Some (length records)) \/
       (exists res, t_state t = Awaiting (Returned res))))).
Proof.
  unfold isWaiting. destruct (t_state t) as [f|] eqn:Hst; [intros _|done].
  intros HA Hlt. cbv zeta. rewrite (stepTask_unfold _ _ _ _ _ _ _ Hst). cbv zeta.
  assert (forall r w1,
    abortController w1 = Some c0 -> controllers w1 = controllers (world b) ->
    let b1 := {| world := w1; completedRequests := completedRequests b;
                 allData := allData b |} in
    let b' := userCancel env (Some c0)
                (afterFetch onProgress tot (t_zone t) (t_qry t) (Ok r) b1).2 in
    allData b' = allData b /\
    abortController (world b') = Some c0 /\
    (c0 < length (controllers (world b')))%nat /\
    (aborted (Some c0) (world b) = true -> aborted (Some c0) (world b') = true) /\
    heap (world b') = heap w1 /\ cache (world b') = cache w1 /\
    completedRequests b' = S (completedRequests b) /\
    exists p cs,
      trace (world b')
      = trace w1 ++ (if onProgress then [EProgress p] else []) ++ cs /\
      (cs = [] \/ cs = [ECancel] /\ aborted (Some c0) (world b') = true) /\
      recordsFetched p = Some (length (array r w1))) as Hfulfil.
  { intros r w1 HA1 Hc1 b1 b'.
    destruct (afterFetch_trace onProgress tot (t_zone t) (t_qry t) (Ok r) b1)
      as (Hd & Hc & Hctl & Hac & Hca & p & Htr & _ & _ & _ & _ & _ & Hh & _ & Hrec).
    destruct (userCancel_trace env (Some c0)
                (afterFetch onProgress tot (t_zone t) (t_qry t) (Ok r) b1).2)
      as (Hc2 & Hd2 & Hac2 & Hh2 & Hca2 & Hlen2 & Htr2).
    fold b' in Hc2, Hd2, Hac2, Hh2, Hca2, Hlen2, Htr2.
    cbn [world completedRequests allData b1] in *.
    rewrite Hd2, Hd, Hac2, Hac, Hlen2, Hctl, Hc1, Hh2, Hh, Hca2, Hca, Hc2, Hc.
    split_and!; try done.
    - intros Hab. destruct Htr2 as [[_ Hcs]|(_ & _ & _ & c & Hcc & Hcs)].
      + unfold aborted in *. by rewrite Hcs, Hctl, Hc1.
      + rewrite Hac, HA1 in Hcc. injection Hcc as <-.
        unfold aborted. rewrite Hcs, list_lookup_insert_eq; [done|].
        by rewrite Hctl, Hc1.
    - exists p. destruct Htr2 as [[Htr2 Hcs]|(Htr2 & _ & _ & c & Hcc & Hcs)].
      + exists []. rewrite Htr2, Htr, app_nil_r. split_and!; try done. by left.
      + exists [ECancel]. rewrite Htr2, Htr, <- app_assoc.
        split_and!; try done. right. split; [done|].
        rewrite Hac, HA1 in Hcc. injection Hcc as <-.
        unfold aborted. rewrite Hcs, list_lookup_insert_eq; [done|].
        by rewrite Hctl, Hc1. }
  destruct (fetchZoneData_resume_cases env (t_zone t) (t_qry t) (Some c0) f
              (world b))
    as [(a & c & e & -> & _ & _ & ->)|[(a & c & -> & _ & ->)|
        [(a & c & j & records & -> & Hans & _ & ->)|[(a & -> & ->)|(r & -> & ->)]]]];
    cbn [fst snd].
  - cbn [part t_zone t_qry t_state world allData completedRequests].
    split_and!; try done. left. exists (Backoff a).
    split_and!; try done. by left.
  - destruct (Hfulfil (length (heap (world b))) (alloc [] (world b)).2 HA eq_refl)
      as (Hd & Hac & Hlen & Hmono & Hh & Hca & Hc & p & cs & Htr & Hcs & Hrec).
    cbn [part t_zone t_qry t_state]. split_and!; try done. right.
    eexists _, p, cs. split_and!; try done. left. exists a, c.
    split_and!; try done. rewrite Hrec. unfold array. cbn.
    by rewrite lookup_app_r, Nat.sub_diag.
  - destruct (Hfulfil (length (heap (world b)))
                (set_cache (<[cacheKey (t_zone t) (t_qry t)
                              := length (heap (world b))]> (cache (world b)))
                   (alloc records (world b)).2) HA eq_refl)
      as (Hd & Hac & Hlen & Hmono & Hh & Hca & Hc & p & cs & Htr & Hcs & Hrec).
    cbn [part t_zone t_qry t_state]. split_and!; try done. right.
    eexists _, p, cs. split_and!; try done. right. left. exists a, c, records.
    split_and!; try done.
    + unfold answer in Hans. by destruct (aborted (Some c0) (world b)).
    + rewrite Hrec. unfold array. cbn.
      by rewrite lookup_app_r, Nat.sub_diag.
  - cbn [part t_zone t_qry t_state world allData completedRequests fetch fst snd
           emit abortController controllers heap cache trace].
    split_and!; try done. left. eexists. split_and!; try done.
    right. by eexists.
  - destruct r as [r|e].
    + destruct (Hfulfil r (world b) HA eq_refl)
        as (Hd & Hac & Hlen & Hmono & Hh & Hca & Hc & p & cs & Htr & Hcs & Hrec).
      cbn [part t_zone t_qry t_state]. split_and!; try done. right.
      eexists _, p, cs. split_and!; try done. right. right. by eexists.
    + set (b1 := {| world := world b; completedRequests := completedRequests b;
                    allData := allData b |}).
      destruct (afterFetch_trace onProgress tot (t_zone t) (t_qry t) (Throw e) b1)
        as (Hd & Hc & Hctl & Hac & Hca & p & Htr & _ & _ & _ & _ & _ & Hh & _).
      destruct (userCancel_trace env (Some c0)
                  (afterFetch onProgress tot (t_zone t) (t_qry t) (Throw e) b1).2)
        as (Hc2 & Hd2 & Hac2 & Hh2 & Hca2 & Hlen2 & Htr2).
      cbn [world completedRequests allData b1 part t_zone t_qry t_state] in *.
      rewrite Hd2, Hd, Hac2, Hac, Hlen2, Hctl, Hc2, Hc.
      split_and!; try done.
      * intros Hab. destruct Htr2 as [[_ Hcs]|(_ & _ & _ & c & Hcc & Hcs)].
        -- unfold aborted in *. by rewrite Hcs, Hctl.
        -- rewrite Hac, HA in Hcc. injection Hcc as <-.
           unfold aborted. rewrite Hcs, list_lookup_insert_eq; [done|].
           by rewrite Hctl.
      * right. exists (afterFetch onProgress tot (t_zone t) (t_qry t) (Throw e) b1).1, p.
        destruct Htr2 as [[Htr2 Hcs]|(Htr2 & _ & _ & c & Hcc & Hcs)].
        -- exists []. rewrite Htr2, Htr, app_nil_r. split_and!; try done;
             [by left|]. right. right. by eexists.
        -- exists [ECancel]. rewrite Htr2, Htr, <- app_assoc.
           split_and!; try done; [|right; right; by eexists].
           right. split; [done|].
           rewrite Hac, HA in Hcc. injection Hcc as <-.
           unfold aborted. rewrite Hcs, list_lookup_insert_eq; [done|].
           by rewrite Hctl.
Qed.

Lemma unsent_after_cancel_snoc l e :
  unsent_after_cancel l ->
  (forall c, e = EFetch c -> ECancel ∈ l -> fc_sent c = false) ->
  unsent_after_cancel (l ++ [e]).
Proof.
  intros Hl He l1 l2 c Heq Hin.
  destruct l2 as [|x l2 _] using rev_ind; [by apply elem_of_nil in Hin|].
  change (l1 ++ ECancel :: l2 ++ [x]) with (l1 ++ (ECancel :: l2) ++ [x]) in Heq.
  rewrite app_assoc in Heq. apply app_inj_tail in Heq as [-> ->].
  apply elem_of_app in Hin as [Hin|Hin%list_elem_of_singleton].
  - by eapply Hl.
  - apply He; [done|]. apply elem_of_app. right. by left.
Qed.

Lemma empty_after_cancel_snoc l e :
  empty_after_cancel l ->
  (forall p, e = EProgress p -> ECancel ∈ l -> recordsFetched p = Some 0%nat) ->
  empty_after_cancel (l ++ [e]).
Proof.
  intros Hl He l1 l2 c Heq Hin.
  destruct l2 as [|x l2 _] using rev_ind; [by apply elem_of_nil in Hin|].
  change (l1 ++ ECancel :: l2 ++ [x]) with (l1 ++ (ECancel :: l2) ++ [x]) in Heq.
  rewrite app_assoc in Heq. apply app_inj_tail in Heq as [-> ->].
  apply elem_of_app in Hin as [Hin|Hin%list_elem_of_singleton].
  - by eapply Hl.
  - apply He; [done|]. apply elem_of_app. right. by left.
Qed.

Lemma array_stable r w w' x :
  (r < length (heap w))%nat -> heap w' = heap w ++ x -> array r w' = array r w.
Proof. intros Hr Hh. unfold array. by rewrite Hh, lookup_app_l. Qed.

Lemma cachedRecords_stable w w' k x :
  cache w' !! k = cache w !! k -> heap w' = heap w ++ x ->
  (forall r, cache w !! k = Some r -> (r < length (heap w))%nat) ->
  cachedRecords w' k = cachedRecords w k.
Proof.
  intros Hc Hh Hv. unfold cachedRecords. rewrite Hc.
  destruct (cache w !! k) as [r|] eqn:E; [|done].
  eapply array_stable; [by apply Hv|done].
Qed.

Lemma task_ok_stable w w' t x :
  cache w' !! keyOf (part t) = cache w !! keyOf (part t) ->
  heap w' = heap w ++ x ->
  (forall r, cache w !! keyOf (part t) = Some r -> (r < length (heap w))%nat) ->
  task_ok w t -> task_ok w' t.
Proof.
  intros Hc Hh Hv. unfold task_ok.
  destruct (t_state t) as [[a c|a|r]|r]; try done; try by rewrite Hc.
  intros [Hr Ha]. split; [rewrite Hh, length_app; lia|].
  by rewrite (array_stable _ _ _ _ Hr Hh), (cachedRecords_stable _ _ _ _ Hc Hh Hv).
Qed.

(** The cache keys of the partitions that have started are pairwise
    distinct. *)
Lemma keys_distinct (done_ : list (string * string)) ts i t :
  NoDup (keyOf <$> (done_ ++ (part <$> ts))) -> ts !! i = Some t ->
  (forall p, p ∈ done_ -> keyOf p <> keyOf (part t)) /\
  (forall j t2, ts !! j = Some t2 -> j <> i ->
     keyOf (part t2) <> keyOf (part t)).
Proof.
  rewrite fmap_app. intros (Hd & Hdis & Hts)%NoDup_app Hl. split.
  - intros p Hp Heq. apply (Hdis (keyOf p)).
    + by apply list_elem_of_fmap_2.
    + rewrite Heq, <- list_fmap_compose.
      apply (list_elem_of_fmap_2 (keyOf ∘ part)).
      by eapply list_elem_of_lookup_2.
  - intros j t2 Hj Hne Heq. apply Hne. rewrite <- list_fmap_compose in Hts.
    eapply (NoDup_lookup _ j i _ Hts); rewrite list_lookup_fmap.
    + by rewrite Hj.
    + rewrite Hl. cbn. by rewrite Heq.
Qed.

Lemma startTask_cases s q b z :
  let t := (startTask s q b z).1 in
  let b' := (startTask s q b z).2 in
  part t = (z, q) /\ allData b' = allData b /\
  completedRequests b' = completedRequests b /\
  abortController (world b') = abortController (world b) /\
  controllers (world b') = controllers (world b) /\
  heap (world b') = heap (world b) /\ cache (world b') = cache (world b) /\
  ((exists r, cache (world b) !! cacheKey z q = Some r /\
      t_state t = Awaiting (Returned (Ok r)) /\
      trace (world b') = trace (world b) ++ [EStart z q]) \/
   (exists c, cache (world b) !! cacheKey z q = None /\
      t_state t = Awaiting (InFlight 1 c) /\
      trace (world b') = trace (world b) ++ [EStart z q] ++ [EFetch c] /\
      fc_sent c = negb (aborted s (world b)))).
Proof.
  unfold startTask, fetchZoneData_begin. cbn [emit cache].
  destruct (cache (world b) !! cacheKey z q) as [r|] eqn:E; cbn.
  - split_and!; try done. left. by exists r.
  - split_and!; try done. right. eexists. split_and!; try done.
    by rewrite <- app_assoc.
Qed.

Lemma batchResults_arrays w ts rs :
  batchResults ts = Some rs -> Forall (task_ok w) ts ->
  (fun r => array r w) <$> rs = cachedRecords w ∘ keyOf ∘ part <$> ts.
Proof.
  unfold batchResults. revert rs.
  induction ts as [|t ts IH]; intros rs Hrs Hok.
  - by injection Hrs as <-.
  - apply Forall_cons in Hok as [Ht Hok]. cbn in Hrs.
    unfold task_ok in Ht.
    destruct (t_state t) as [f|r] eqn:Hst; [done|]. cbn in Hrs.
    destruct (mapM _ ts) as [rs'|] eqn:Hm; [|done]. cbn in Hrs.
    injection Hrs as <-. rewrite !fmap_cons. f_equal; [|by apply IH].
    by destruct Ht.
Qed.

Lemma Forall_insert_others {A} (P : A -> Prop) (l : list A) i x :
  (forall j y, l !! j = Some y -> j <> i -> P y) -> P x ->
  Forall P (<[i := x]> l).
Proof.
  intros Hothers Hx. apply Forall_lookup_2. intros j y Hy.
  apply list_lookup_insert_Some in Hy as [(-> & -> & _)|[Hne Hy]]; [done|].
  by eapply Hothers.
Qed.

(** The trace of a task that is fulfilled: a completion report, then
    possibly the cancellation. *)
Lemma after_cancel_fulfil l p (onProgress : bool) cs :
  unsent_after_cancel l -> empty_after_cancel l ->
  cs = [] \/ cs = [ECancel] ->
  (ECancel ∈ l -> recordsFetched p = Some 0%nat) ->
  unsent_after_cancel (l ++ (if onProgress then [EProgress p] else []) ++ cs) /\
  empty_after_cancel (l ++ (if onProgress then [EProgress p] else []) ++ cs) /\
  (ECancel ∈ l ++ (if onProgress then [EProgress p] else []) ++ cs ->
   ECancel ∈ l \/ cs = [ECancel]).
Proof.
  intros Hun Hem Hcs Hp.
  assert (unsent_after_cancel (l ++ (if onProgress then [EProgress p] else []))
          /\ empty_after_cancel (l ++ (if onProgress then [EProgress p] else [])))
    as [Hun1 Hem1].
  { destruct onProgress; [|by rewrite app_nil_r]. split.
    - by apply unsent_after_cancel_snoc.
    - apply empty_after_cancel_snoc; [done|]. by intros p' [= <-]. }
  split_and!.
  - destruct Hcs as [->| ->]; rewrite app_assoc; [by rewrite app_nil_r|].
    by apply unsent_after_cancel_snoc.
  - destruct Hcs as [->| ->]; rewrite app_assoc; [by rewrite app_nil_r|].
    by apply empty_after_cancel_snoc.
  - intros Hin. apply elem_of_app in Hin as [?|Hin]; [by left|].
    apply elem_of_app in Hin as [Hin|Hin].
    + destruct onProgress; [|by apply elem_of_nil in Hin].
      by apply list_elem_of_singleton in Hin.
    + destruct Hcs as [->| ->]; [by apply elem_of_nil in Hin|by right].
Qed.

Lemma cachedRecords_ext w w' k :
  cache w' = cache w -> heap w' = heap w ->
  cachedRecords w' k = cachedRecords w k.
Proof. intros Hc Hh. unfold cachedRecords, array. by rewrite Hc, Hh. Qed.

Lemma task_ok_ext w w' t :
  cache w' = cache w -> heap w' = heap w -> task_ok w t -> task_ok w' t.
Proof.
  intros Hc Hh. unfold task_ok.
  by rewrite (cachedRecords_ext _ _ _ Hc Hh), Hc, Hh; unfold array; rewrite Hh.
Qed.

Section CancelInvariant.
Context (env : Env) (onProgress : bool) (tot : nat) (c0 : nat) (w0 : World)
  (plan : list (string * string)).
Context (Hfresh : fresh w0 plan).


Lemma cancelInv_start started ts b z q :
  (exists rest, plan = started ++ (z, q) :: rest) ->
  cancelInv c0 w0 plan started ts b ->
  cancelInv c0 w0 plan (started ++ [(z, q)]) (ts ++ [(startTask (Some c0) q b z).1])
    (startTask (Some c0) q b z).2.
Proof.
  intros [rest Hplan]
    (l & done_ & Htr & HA & Hlt & Hun & Hem & HK & _ & HD1 & HD2 & Hall & Hts).
  destruct Hfresh as [Hnodup Hnone].
  destruct (startTask_cases (Some c0) q b z)
    as (Hpart & Hd & Hc & Hac & Hctl & Hh & Hca & Hcases).
  assert (cache (world b) !! cacheKey z q = None) as Hmiss.
  { destruct (cache (world b) !! cacheKey z q) as [r|] eqn:E; [|done].
    exfalso. destruct (HD1 _ _ E) as [Hin _].
    - rewrite Hplan. apply (list_elem_of_fmap_2 keyOf _ (z, q)).
      apply elem_of_app. right. by left.
    - rewrite Hplan, fmap_app, fmap_cons in Hnodup.
      apply NoDup_app in Hnodup as (_ & Hdis & _).
      apply (Hdis _ Hin). by left. }
  destruct Hcases as [(r & Hhit & _)|(c & _ & Hst & Htr' & Hsent)];
    [by rewrite Hmiss in Hhit|].
  destruct (startTask (Some c0) q b z) as [t b']. cbn [fst snd] in *.
  exists (l ++ [EStart z q] ++ [EFetch c]), done_. split_and!.
  - by rewrite Htr', Htr, <- !app_assoc.
  - by rewrite Hac.
  - by rewrite Hctl.
  - rewrite app_assoc. apply unsent_after_cancel_snoc.
    + by apply unsent_after_cancel_snoc.
    + intros c' [= <-] Hin. rewrite Hsent, HK; [done|].
      by apply elem_of_app in Hin as [?|[=]%list_elem_of_singleton].
  - rewrite app_assoc. by do 2 (apply empty_after_cancel_snoc; [|done]).
  - intros Hin. unfold aborted in *. rewrite Hctl. apply HK.
    apply elem_of_app in Hin as [?|Hin]; [done|].
    apply elem_of_app in Hin as [[=]%list_elem_of_singleton
                                |[=]%list_elem_of_singleton].
  - exists rest. by rewrite <- app_assoc.
  - intros k r Hk Hin. rewrite Hca in Hk. destruct (HD1 k r Hk Hin) as [Hs Hr].
    split; [|by rewrite Hh]. rewrite fmap_app. apply elem_of_app. by left.
  - by rewrite HD2, fmap_app, <- app_assoc, fmap_cons, Hpart.
  - rewrite Hd, Hall. f_equal. apply list_fmap_ext. intros i p _. cbn.
    unfold cachedRecords, array. by rewrite Hca, Hh.
  - apply Forall_app. split.
    + eapply Forall_impl; [exact Hts|]. intros t0. by apply task_ok_ext.
    + constructor; [|constructor]. unfold task_ok. rewrite Hst.
      by rewrite Hpart, Hca.
Qed.

Lemma cancelInv_cancel started ts b :
  cancelInv c0 w0 plan started ts b -> cancelInv c0 w0 plan started ts (userCancel env (Some c0) b).
Proof.
  intros (l & done_ & Htr & HA & Hlt & Hun & Hem & HK & HP & HD1 & HD2 & Hall & Hts).
  destruct (userCancel_trace env (Some c0) b)
    as (Hc & Hd & Hac & Hh & Hca & Hlen & Hcases).
  assert (forall k, cachedRecords (world (userCancel env (Some c0) b)) k
                    = cachedRecords (world b) k) as Hcr
    by (intros k; by apply cachedRecords_ext).
  assert (Forall (task_ok (world (userCancel env (Some c0) b))) ts) as Hts'.
  { eapply Forall_impl; [exact Hts|]. intros t0. by apply task_ok_ext. }
  assert (allData (userCancel env (Some c0) b)
          = concat (cachedRecords (world (userCancel env (Some c0) b)) ∘ keyOf
                      <$> done_)) as Hall'.
  { rewrite Hd, Hall. f_equal. apply list_fmap_ext. intros i p _. cbn.
    by rewrite Hcr. }
  destruct Hcases as [[Htr' Hctl]|(Htr' & Hnot & _ & c & Hcc & Hctl)].
  - exists l, done_. split_and!; try done.
    + by rewrite Htr'.
    + by rewrite Hac.
    + by rewrite Hlen.
    + intros Hin. unfold aborted in *. rewrite Hctl. by apply HK.
    + intros k r Hk Hin. rewrite Hca in Hk. rewrite Hh. by apply HD1.
  - exists (l ++ [ECancel]), done_. split_and!; try done.
    + by rewrite Htr', Htr, <- app_assoc.
    + by rewrite Hac.
    + by rewrite Hlen.
    + by apply unsent_after_cancel_snoc.
    + by apply empty_after_cancel_snoc.
    + intros _. rewrite HA in Hcc. injection Hcc as <-.
      unfold aborted. by rewrite Hctl, list_lookup_insert_eq.
    + intros k r Hk Hin. rewrite Hca in Hk. rewrite Hh. by apply HD1.
Qed.

Lemma cancelInv_collect started ts b rs :
  cancelInv c0 w0 plan started ts b -> batchResults ts = Some rs ->
  cancelInv c0 w0 plan started [] (collect rs b).
Proof.
  intros (l & done_ & Htr & HA & Hlt & Hun & Hem & HK & HP & HD1 & HD2 & Hall & Hts)
    Hrs.
  exists l, started. split_and!; try done.
  - by rewrite app_nil_r.
  - cbn. rewrite (batchResults_arrays _ _ _ Hrs Hts), Hall, HD2.
    rewrite fmap_app, concat_app. f_equal. f_equal.
    by rewrite <- list_fmap_compose.
Qed.

Lemma cancelInv_step started ts b i t :
  cancelInv c0 w0 plan started ts b -> ts !! i = Some t -> isWaiting t = true ->
  cancelInv c0 w0 plan started
    (<[i := (stepTask env onProgress tot (Some c0) t (tickBatch b)).1]> ts)
    (stepTask env onProgress tot (Some c0) t (tickBatch b)).2.
Proof.
  intros (l & done_ & Htr & HA & Hlt & Hun & Hem & HK & HP & HD1 & HD2 & Hall & Hts)
    Hl Hw.
  destruct Hfresh as [Hnodup _]. pose proof HP as [rest Hplan].
  assert (NoDup (keyOf <$> done_ ++ (part <$> ts))) as Hnd.
  { rewrite <- HD2. rewrite Hplan, fmap_app in Hnodup.
    by apply NoDup_app in Hnodup as (? & _). }
  destruct (keys_distinct done_ ts i t Hnd Hl) as [Hkd Hkt].
  pose proof (Forall_lookup_1 _ _ _ _ Hts Hl) as Htok.
  assert (forall p, p ∈ started -> keyOf p ∈ keyOf <$> plan) as Hplan_in.
  { intros p Hp. apply list_elem_of_fmap_2. rewrite Hplan.
    apply elem_of_app. by left. }
  assert (forall j t2, ts !! j = Some t2 -> part t2 ∈ started) as Hts_in.
  { intros j t2 Hj. rewrite HD2. apply elem_of_app. right.
    apply list_elem_of_fmap_2. by eapply list_elem_of_lookup_2. }
  assert (forall p, p ∈ done_ -> p ∈ started) as Hdone_in.
  { intros p Hp. rewrite HD2. apply elem_of_app. by left. }
  assert (forall k r, k ∈ keyOf <$> plan -> cache (world b) !! k = Some r ->
            (r < length (heap (world b)))%nat) as Hvalid.
  { intros k r Hk Hr. by destruct (HD1 k r Hr Hk). }
  destruct (stepTask_cases env onProgress tot c0 t (tickBatch b) Hw HA Hlt)
    as (Hpart & Hd & Hac & Hlen & Hmono & Hcases).
  destruct (stepTask env onProgress tot (Some c0) t (tickBatch b)) as [t' b'].
  cbn [fst snd] in *.
  change (world (tickBatch b)) with (tick (world b)) in *.
  change (completedRequests (tickBatch b)) with (completedRequests b) in *.
  change (allData (tickBatch b)) with (allData b) in *.
  change (trace (tick (world b))) with (trace (world b)) in *.
  change (heap (tick (world b))) with (heap (world b)) in *.
  change (cache (tick (world b))) with (cache (world b)) in *.
  change (controllers (tick (world b))) with (controllers (world b)) in *.
  change (aborted (Some c0) (tick (world b)))
    with (aborted (Some c0) (world b)) in *.
  assert (part <$> <[i := t']> ts = part <$> ts) as Hparts.
  { rewrite list_fmap_insert, Hpart. apply list_insert_id.
    by rewrite list_lookup_fmap, Hl. }
  destruct Hcases
    as [(f' & Hst' & Hnr & Hh & Hca & Hctl & Hc & Htr')
       |(r & p & cs & Hst' & Hc & Htr' & Hcs & Hkind)].
  - (* the task still waits *)
    assert (cache (world b) !! keyOf (part t) = None) as Hnone.
    { unfold task_ok in Htok. unfold isWaiting in Hw.
      by destruct (t_state t) as [[| |]|]. }
    assert (Forall (task_ok (world b')) (<[i := t']> ts)) as Hts'.
    { apply Forall_insert_others.
      - intros j t2 Hj _. apply (task_ok_ext (world b)); [done|done|].
        exact (Forall_lookup_1 _ _ _ _ Hts Hj).
      - unfold task_ok. rewrite Hst', Hpart, Hca.
        destruct f' as [| |r0]; [done|done|]. by destruct (Hnr r0). }
    assert (allData b' = concat (cachedRecords (world b') ∘ keyOf <$> done_))
      as Hall'.
    { rewrite Hd, Hall. f_equal. apply list_fmap_ext. intros j q _. cbn.
      symmetry. by apply cachedRecords_ext. }
    destruct Htr' as [Htr'|(c & Htr' & Hsent)].
    + exists l, done_. split_and!; try done.
      * by rewrite Htr'.
      * intros Hin. apply Hmono. by apply HK.
      * intros k r Hk Hin. rewrite Hca in Hk. rewrite Hh. by apply HD1.
      * by rewrite Hparts.
    + exists (l ++ [EFetch c]), done_. split_and!; try done.
      * by rewrite Htr', Htr, <- app_assoc.
      * apply unsent_after_cancel_snoc; [done|].
        intros c' [= <-] Hin. by rewrite Hsent, HK.
      * by apply empty_after_cancel_snoc.
      * intros Hin. apply Hmono, HK.
        by apply elem_of_app in Hin as [?|[=]%list_elem_of_singleton].
      * intros k r Hk Hin. rewrite Hca in Hk. rewrite Hh. by apply HD1.
      * by rewrite Hparts.
  - destruct Hkind
      as [(a & c & Hst & -> & Hh & Hca & Hrec)
         |[(a & c & records & Hst & Hnab & -> & Hh & Hca & Hrec)|(res & Hst)]].
    + (* the fetch failed: a new empty array *)
      assert (cache (world b) !! keyOf (part t) = None) as Hnone.
      { unfold task_ok in Htok. by rewrite Hst in Htok. }
      destruct (after_cancel_fulfil l p onProgress cs Hun Hem)
        as (Hun' & Hem' & Hcin); [by destruct Hcs as [?|[? _]]; [left|right]| |].
      { by intros _. }
      exists (l ++ (if onProgress then [EProgress p] else []) ++ cs), done_.
      split_and!; try done.
      * by rewrite Htr', Htr, <- !app_assoc.
      * intros Hin. destruct (Hcin Hin) as [?|Hc1]; [by apply Hmono, HK|].
        destruct Hcs as [->|[_ ?]]; done.
      * intros k r Hk Hin. rewrite Hca in Hk. rewrite Hh, length_app.
        destruct (HD1 k r Hk Hin). split; [done|lia].
      * by rewrite Hparts.
      * rewrite Hd, Hall. f_equal. apply list_fmap_ext. intros j q Hq. cbn.
        symmetry. apply (cachedRecords_stable _ _ _ [[]]); [by rewrite Hca|done|].
        intros r. apply Hvalid, Hplan_in, Hdone_in.
        by eapply list_elem_of_lookup_2.
      * apply Forall_insert_others.
        -- intros j t2 Hj _.
           apply (task_ok_stable (world b) _ _ [[]]); [by rewrite Hca|done| |].
           ++ intros r. apply Hvalid, Hplan_in. by eapply Hts_in.
           ++ exact (Forall_lookup_1 _ _ _ _ Hts Hj).
        -- unfold task_ok. rewrite Hst', Hh, length_app. split; [cbn; lia|].
           unfold cachedRecords, array. rewrite Hpart, Hca, Hnone, Hh.
           by rewrite lookup_app_r, Nat.sub_diag.
    + (* the fetch succeeded: a new array, also cached *)
      assert (ECancel ∉ l) as Hnc.
      { intros Hin. by rewrite (HK Hin) in Hnab. }
      destruct (after_cancel_fulfil l p onProgress cs Hun Hem)
        as (Hun' & Hem' & Hcin); [by destruct Hcs as [?|[? _]]; [left|right]| |].
      { by intros Hin. }
      exists (l ++ (if onProgress then [EProgress p] else []) ++ cs), done_.
      split_and!; try done.
      * by rewrite Htr', Htr, <- !app_assoc.
      * intros Hin. destruct (Hcin Hin) as [?|Hc1]; [done|].
        destruct Hcs as [->|[_ ?]]; done.
      * intros k r Hk Hin. rewrite Hca in Hk. rewrite Hh, length_app.
        destruct (decide (keyOf (part t) = k)) as [<-|Hne].
        -- rewrite lookup_insert_eq in Hk. injection Hk as <-.
           split; [|cbn; lia]. apply list_elem_of_fmap_2. by eapply Hts_in.
        -- rewrite lookup_insert_ne in Hk by done.
           destruct (HD1 k r Hk Hin). split; [done|lia].
      * by rewrite Hparts.
      * rewrite Hd, Hall. f_equal. apply list_fmap_ext. intros j q Hq. cbn.
        symmetry. apply (cachedRecords_stable _ _ _ [records]); [|done|].
        -- rewrite Hca, lookup_insert_ne; [done|]. intros Heq.
           eapply Hkd; [|by symmetry]. by eapply list_elem_of_lookup_2.
        -- intros r. apply Hvalid, Hplan_in, Hdone_in.
           by eapply list_elem_of_lookup_2.
      * apply Forall_insert_others.
        -- intros j t2 Hj Hne.
           apply (task_ok_stable (world b) _ _ [records]); [|done| |].
           ++ rewrite Hca, lookup_insert_ne; [done|]. intros Heq.
              by eapply (Hkt j t2).
           ++ intros r. apply Hvalid, Hplan_in. by eapply Hts_in.
           ++ exact (Forall_lookup_1 _ _ _ _ Hts Hj).
        -- unfold task_ok. rewrite Hst', Hh, length_app. split; [cbn; lia|].
           unfold cachedRecords, array. rewrite Hpart, Hca, lookup_insert_eq, Hh.
           done.
    + (* [fetchZoneData] had settled: excluded, nothing was cached *)
      unfold task_ok in Htok. by rewrite Hst in Htok.
Qed.

End CancelInvariant.

(** *** No request leaves after a cancellation *)


Section UnsentInvariant.
Context (env : Env) (onProgress : bool) (tot : nat) (c0 : nat) (w0 : World).





End UnsentInvariant.

Lemma newAbortController_spec w :
  let w1 := (newAbortController w).2 in
  trace w1 = trace w /\ cache w1 = cache w /\ heap w1 = heap w /\
  abortController w1 = Some (length (controllers w)) /\
  (length (controllers w) < length (controllers w1))%nat /\
  aborted (Some (length (controllers w))) w1 = false.
Proof.
  cbn. rewrite length_app. cbn. split_and!; try done; [lia|].
  by rewrite lookup_app_r, Nat.sub_diag.
Qed.


(** In a batch none of whose partitions was cached, every completion
    reported after a cancellation reports no records, and the merged
    records are those the cache holds for the partitions in the end. *)
Lemma fetchBatchData_fresh env zones queryTypes onProgress w :
  fresh w (partitions zones queryTypes) ->
  exists d w' l,
    fetchBatchData env zones queryTypes onProgress w = Some (d, w') /\
    trace w' = trace w ++ l /\ empty_after_cancel l /\
    d = concat (cachedRecords w' ∘ keyOf <$> partitions zones queryTypes).
Proof.
  intros Hfresh.
  destruct (newAbortController_spec w) as (Htr0 & Hca0 & Hh0 & HA0 & Hlt0 & _).
  assert (fresh (newAbortController w).2 (partitions zones queryTypes)) as Hfresh'.
  { destruct Hfresh as [Hnd Hnone]. split; [done|].
    intros p Hp. rewrite Hca0. by apply Hnone. }
  destruct (fetchBatchData_invariant env onProgress
              (length zones * length queryTypes) (Some (length (controllers w)))
              (partitions zones queryTypes)
              (cancelInv (length (controllers w)) (newAbortController w).2
                 (partitions zones queryTypes))
              (cancelInv_start _ _ _ Hfresh')
              (cancelInv_cancel env _ _ _)
              (cancelInv_step env onProgress _ _ _ _ Hfresh')
              (cancelInv_collect _ _ _)
              zones queryTypes w eq_refl eq_refl eq_refl)
    as (b' & Hrun & l & done_ & Htr & _ & _ & _ & Hem & _ & _ & _ & HD2 & Hall & _).
  - exists [], []. rewrite app_nil_r. split_and!; try done.
    + intros l1 l2 c Heq. by destruct l1.
    + intros l1 l2 c Heq. by destruct l1.
    + by intros ?%elem_of_nil.
    + by exists (partitions zones queryTypes).
    + intros k r Hk Hin. exfalso. destruct Hfresh' as [_ Hnone].
      apply list_elem_of_fmap in Hin as (p & -> & Hp).
      pose proof (Hnone p Hp) as Hn. cbn in Hk, Hn. by rewrite Hn in Hk.
  - exists (allData b'), (world b'), l. rewrite Htr, Htr0.
    split_and!; try done. rewrite app_nil_r in HD2. by rewrite HD2.
Qed.




(** ** More on the reducers *)

(** *** Sorting *)

Lemma insert_sorted_Permutation {A} (cmp : A -> A -> Z) x l :
  insert_sorted cmp x l ≡ₚ x :: l.
Proof.
  induction l as [|y l IH]; [done|]. cbn.
  destruct (cmp x y <=? 0); [done|].
  rewrite IH. apply Permutation_swap.
Qed.

Lemma sort_Permutation {A} (cmp : A -> A -> Z) l : sort cmp l ≡ₚ l.
Proof.
  induction l as [|x l IH]; [done|]. cbn.
  change (foldr (insert_sorted cmp) [] l) with (sort cmp l).
  by rewrite insert_sorted_Permutation, IH.
Qed.

Lemma elem_of_sort {A} (cmp : A -> A -> Z) l x : x ∈ sort cmp l <-> x ∈ l.
Proof. by rewrite sort_Permutation. Qed.

Lemma sort_nil {A} (cmp : A -> A -> Z) : sort cmp [] = [].
Proof. reflexivity. Qed.

Section SortFacts.
Context {A : Type} (cmp : A -> A -> Z) (P : A -> Prop).
Hypothesis cmp_total : forall x y, P x -> P y -> 0 < cmp x y -> cmp y x <= 0.
Hypothesis cmp_trans : forall x y z, P x -> P y -> P z ->
  cmp x y <= 0 -> cmp y z <= 0 -> cmp x z <= 0.

Lemma insert_sorted_sorted x l :
  P x -> Forall P l ->
  StronglySorted (fun a b => cmp a b <= 0) l ->
  StronglySorted (fun a b => cmp a b <= 0) (insert_sorted cmp x l).
Proof.
  intros Hx Hl Hs. induction Hs as [|y l Hs IH Hy]; cbn.
  - repeat constructor.
  - apply Forall_cons in Hl as [HPy HPl].
    destruct (cmp x y <=? 0) eqn:E.
    + apply Z.leb_le in E. constructor; [by constructor|].
      constructor; [done|].
      rewrite Forall_forall in Hy, HPl |- *. intros z Hz.
      apply (cmp_trans x y z); auto.
    + apply Z.leb_gt in E. constructor; [by apply IH|].
      rewrite Forall_forall in Hy, HPl |- *. intros z Hz.
      rewrite insert_sorted_Permutation in Hz.
      apply elem_of_cons in Hz as [->|Hz]; [|by apply Hy].
      apply cmp_total; auto.
Qed.

Lemma sort_sorted l :
  Forall P l -> StronglySorted (fun a b => cmp a b <= 0) (sort cmp l).
Proof.
  induction 1 as [|x l Hx Hl IH]; [constructor|]. cbn.
  apply insert_sorted_sorted; [done| |done].
  change (foldr (insert_sorted cmp) [] l) with (sort cmp l).
  by rewrite sort_Permutation.
Qed.

End SortFacts.

Lemma StronglySorted_lookup {A} (R : A -> A -> Prop) l i j a b :
  StronglySorted R l -> (i < j)%nat -> l !! i = Some a -> l !! j = Some b ->
  R a b.
Proof.
  intros Hs. revert i j. induction Hs as [|x l Hs IH Hx]; intros i j Hij Hi Hj.
  - done.
  - destruct j as [|j]; [lia|]. cbn in Hj. destruct i as [|i].
    + cbn in Hi. injection Hi as ->.
      rewrite Forall_forall in Hx. apply Hx. by eapply list_elem_of_lookup_2.
    + cbn in Hi. apply (IH i j); [lia|done|done].
Qed.

(** Sorting by [f b - f a] ranks in descending order of [f]. *)
Lemma sort_descendingBy {A} (f : A -> Z) l :
  descendingBy f (sort (fun a b => f b - f a) l).
Proof.
  intros i j a b Hij Hi Hj.
  pose proof (sort_sorted (fun a b => f b - f a) (fun _ => True)) as Hs.
  cbn beta in Hs.
  assert (H : StronglySorted (fun a b => f b - f a <= 0)
                (sort (fun a b => f b - f a) l)).
  { apply Hs; [intros; lia|intros; lia|]. by apply Forall_true. }
  pose proof (StronglySorted_lookup _ _ _ _ _ _ H Hij Hi Hj). cbn in *. lia.
Qed.

Lemma descendingBy_take {A} (f : A -> Z) l n :
  descendingBy f l -> descendingBy f (take n l).
Proof.
  intros H i j a b Hij Hi Hj.
  apply lookup_take_Some in Hi as [Hi _]. apply lookup_take_Some in Hj as [Hj _].
  by apply (H i j).
Qed.

(** The sort is stable: the elements of one rank keep their order. *)
Lemma insert_sorted_filter {A} (f : A -> Z) v x l :
  filter (fun y => f y = v) (insert_sorted (fun a b => f b - f a) x l)
  = filter (fun y => f y = v) (x :: l).
Proof.
  induction l as [|y l IH]; [done|]. cbn [insert_sorted].
  destruct (f y - f x <=? 0) eqn:E; [done|].
  apply Z.leb_gt in E.
  rewrite filter_cons, IH, !filter_cons.
  destruct (decide (f y = v)) as [Hy|Hy], (decide (f x = v)) as [Hx|Hx];
    try done.
  lia.
Qed.

Lemma sort_stable {A} (f : A -> Z) v l :
  filter (fun y => f y = v) (sort (fun a b => f b - f a) l)
  = filter (fun y => f y = v) l.
Proof.
  induction l as [|x l IH]; [done|]. cbn [sort foldr].
  change (foldr (insert_sorted (fun a b => f b - f a)) [] l)
    with (sort (fun a b => f b - f a) l).
  rewrite insert_sorted_filter, !filter_cons, IH. done.
Qed.

(** *** Truncation *)

Lemma slice0_zero {A} (l : list A) : slice0 l 0 = [].
Proof. unfold slice0. cbn. by rewrite Z.min_l by lia. Qed.

Lemma slice0_neg {A} (l : list A) limit :
  limit < 0 -> slice0 l limit = take (length l - Z.to_nat (- limit)) l.
Proof.
  intros H. unfold slice0. rewrite (proj2 (Z.ltb_lt _ _)) by done.
  f_equal. lia.
Qed.

Lemma slice0_prefix {A} (l : list A) limit : slice0 l limit `prefix_of` l.
Proof. unfold slice0. apply prefix_take. Qed.

Lemma length_slice0 {A} (l : list A) limit :
  0 <= limit -> length (slice0 l limit) = Nat.min (Z.to_nat limit) (length l).
Proof. intros H. rewrite slice0_nonneg by done. apply length_take. Qed.

Lemma elem_of_slice0 {A} (l : list A) limit x : x ∈ slice0 l limit -> x ∈ l.
Proof.
  intros [i [Hi _]%lookup_take_Some]%list_elem_of_lookup.
  by eapply list_elem_of_lookup_2.
Qed.

(** *** Grouping *)

Section MapFacts.
Context {R K V : Type} `{EqDecision K} (key : R -> K).

Lemma NoDup_fmap_eq (l : list R) r0 r1 :
  NoDup (key <$> l) -> r0 ∈ l -> r1 ∈ l -> key r0 = key r1 -> r0 = r1.
Proof.
  intros Hnd [i Hi]%list_elem_of_lookup [j Hj]%list_elem_of_lookup Hk.
  assert (i = j) as ->; [|congruence].
  apply (NoDup_lookup (key <$> l) i j (key r0)); [done| |].
  - by rewrite list_lookup_fmap, Hi.
  - by rewrite list_lookup_fmap, Hj, Hk.
Qed.

Lemma map_get_fmap (g : R -> V) l r0 :
  NoDup (key <$> l) -> r0 ∈ l ->
  @map_get K V _ ((fun r => (key r, g r)) <$> l) (key r0) = Some (g r0).
Proof.
  induction l as [|r l IH]; [by intros _ ?%elem_of_nil|].
  rewrite fmap_cons. intros [Hk Hl]%NoDup_cons Hin. cbn.
  destruct (decide (key r = key r0)) as [E|Hne].
  - apply elem_of_cons in Hin as [->|Hin]; [done|].
    exfalso. apply Hk. rewrite E. by apply list_elem_of_fmap_2.
  - apply IH; [done|]. by apply elem_of_cons in Hin as [->|?].
Qed.

Lemma map_get_fmap_None (g : R -> V) l k :
  k ∉ key <$> l -> @map_get K V _ ((fun r => (key r, g r)) <$> l) k = None.
Proof.
  induction l as [|r l IH]; [done|].
  rewrite fmap_cons. intros Hin. apply not_elem_of_cons in Hin as [Hne Hin].
  cbn. rewrite decide_False by done. by apply IH.
Qed.

Lemma map_set_fmap (g : R -> V) l k v :
  k ∈ key <$> l ->
  NoDup (key <$> l) ->
  @map_set K V _ ((fun r => (key r, g r)) <$> l) k v
  = (fun r => (key r, if decide (key r = k) then v else g r)) <$> l.
Proof.
  induction l as [|r l IH]; [by intros ?%elem_of_nil|].
  rewrite fmap_cons. intros Hin [Hk Hl]%NoDup_cons. cbn.
  destruct (decide (key r = k)) as [<-|Hne].
  - f_equal. apply list_fmap_ext. intros i r' Hi.
    destruct (decide (key r' = key r)) as [E|]; [|done].
    exfalso. apply Hk. rewrite <- E. apply list_elem_of_fmap_2.
    by eapply list_elem_of_lookup_2.
  - f_equal. apply IH; [|done]. by apply elem_of_cons in Hin as [->|?].
Qed.

Lemma map_set_fmap_new (g : R -> V) l k v :
  k ∉ key <$> l ->
  @map_set K V _ ((fun r => (key r, g r)) <$> l) k v
  = ((fun r => (key r, g r)) <$> l) ++ [(k, v)].
Proof.
  induction l as [|r l IH]; [done|].
  rewrite fmap_cons. intros Hin. apply not_elem_of_cons in Hin as [Hne Hin].
  cbn. rewrite decide_False by done. f_equal. by apply IH.
Qed.

Lemma map_get_snoc (m : jsmap K V) k v :
  map_get m k = None -> map_get (m ++ [(k, v)]) k = Some v.
Proof.
  induction m as [|[k' v'] m IH]; cbn.
  - by rewrite decide_True.
  - destruct (decide (k' = k)); [done|]. apply IH.
Qed.

Lemma map_set_snoc (m : jsmap K V) k v v' :
  map_get m k = None -> map_set (m ++ [(k, v)]) k v' = m ++ [(k, v')].
Proof.
  induction m as [|[k0 v0] m IH]; cbn.
  - by rewrite decide_True.
  - destruct (decide (k0 = k)); [done|]. intros H. f_equal. by apply IH.
Qed.

Lemma fmap_filter_ne (l : list R) k :
  key <$> filter (fun r => key r <> k) l = filter (fun x => x <> k) (key <$> l).
Proof.
  induction l as [|r l IH]; [done|].
  rewrite fmap_cons, !filter_cons. destruct (decide (key r <> k)).
  - by rewrite fmap_cons, IH.
  - done.
Qed.

Lemma fmap_firstRecords (l : list R) :
  key <$> firstRecords key l = firstOccurrences (key <$> l).
Proof.
  induction l as [|r l IH]; [done|]. cbn. f_equal.
  rewrite <- IH. apply fmap_filter_ne.
Qed.

Lemma elem_of_firstOccurrences (l : list K) k :
  k ∈ firstOccurrences l <-> k ∈ l.
Proof.
  induction l as [|k' l IH]; [done|]. cbn.
  rewrite !elem_of_cons, list_elem_of_filter, IH.
  destruct (decide (k = k')); tauto.
Qed.

Lemma NoDup_firstOccurrences (l : list K) : NoDup (firstOccurrences l).
Proof.
  induction l as [|k l IH]; [constructor|]. cbn. constructor.
  - rewrite list_elem_of_filter. tauto.
  - by apply NoDup_filter.
Qed.

Lemma elem_of_firstRecords (l : list R) r : r ∈ firstRecords key l -> r ∈ l.
Proof.
  revert r. induction l as [|r' l IH]; [done|]. cbn. intros r.
  rewrite !elem_of_cons, list_elem_of_filter. intros [?|[_ ?]]; auto.
Qed.

Lemma firstRecords_snoc (l : list R) r :
  firstRecords key (l ++ [r])
  = if decide (key r ∈ key <$> l) then firstRecords key l
    else firstRecords key l ++ [r].
Proof.
  induction l as [|a l IH]; [done|]. cbn. rewrite IH.
  destruct (decide (key r ∈ key <$> l)) as [Hin|Hin].
  - rewrite decide_True; [done|]. by apply elem_of_cons; right.
  - rewrite filter_app, filter_cons, filter_nil.
    destruct (decide (key r = key a)) as [E|Hne].
    + rewrite decide_False by tauto.
      rewrite decide_True by (apply elem_of_cons; by left).
      by rewrite app_nil_r.
    + rewrite decide_True by done. rewrite decide_False; [done|].
      rewrite elem_of_cons. tauto.
Qed.

Lemma length_firstOccurrences (l : list K) :
  (length (firstOccurrences l) <= length l)%nat.
Proof.
  induction l as [|k l IH]; [done|]. cbn.
  pose proof (length_filter (fun x => x <> k) (firstOccurrences l)). lia.
Qed.

Lemma filter_key_nil (l : list R) k :
  k ∉ key <$> l -> filter (fun r => key r = k) l = [].
Proof.
  induction l as [|r l IH]; [done|].
  rewrite fmap_cons. intros Hin. apply not_elem_of_cons in Hin as [Hne Hin].
  rewrite filter_cons, decide_False by done. by apply IH.
Qed.

End MapFacts.

Section GroupFacts.
Context {R K V : Type} `{EqDecision K}.
Context (key : R -> K) (init : R -> V) (upd : V -> R -> V).

Lemma groupStep_grouped data record :
  groupStep key init upd (grouped key init upd data) record
  = grouped key init upd (data ++ [record]).
Proof.
  unfold groupStep, grouped, map_has.
  rewrite firstRecords_snoc.
  set (k := key record).
  set (g := fun r0 => foldl upd (init r0)
                        (filter (fun r => key r = key r0) data)).
  assert (Hg : forall r0,
    foldl upd (init r0) (filter (fun r => key r = key r0) (data ++ [record]))
    = if decide (key r0 = k) then upd (g r0) record else g r0).
  { intros r0. rewrite filter_app, filter_cons, filter_nil. unfold g, k.
    destruct (decide (key record = key r0)) as [Hk|Hk].
    - rewrite decide_True by done. by rewrite foldl_app.
    - rewrite decide_False by done. by rewrite app_nil_r. }
  assert (Hnd : NoDup (key <$> firstRecords key data)).
  { rewrite fmap_firstRecords. apply NoDup_firstOccurrences. }
  destruct (decide (k ∈ key <$> data)) as [Hin|Hin].
  - assert (Hin' : k ∈ key <$> firstRecords key data).
    { rewrite fmap_firstRecords. by apply elem_of_firstOccurrences. }
    apply list_elem_of_fmap in Hin' as [r1 [Hk1 Hr1]].
    fold k. rewrite Hk1.
    rewrite (map_get_fmap key g) by done. cbn match.
    rewrite (map_get_fmap key g) by done.
    rewrite (map_set_fmap key g);
      [|by apply list_elem_of_fmap_2|done].
    apply list_fmap_ext. intros i r0 Hi. cbn. rewrite Hg, Hk1.
    destruct (decide (key r0 = key r1)) as [E|]; [|done].
    assert (r0 = r1) as ->; [|done].
    apply (NoDup_fmap_eq key (firstRecords key data)); try done.
    by eapply list_elem_of_lookup_2.
  - assert (Hin' : k ∉ key <$> firstRecords key data).
    { rewrite fmap_firstRecords. by rewrite elem_of_firstOccurrences. }
    fold k.
    rewrite (map_get_fmap_None key g) by done. cbn match.
    rewrite (map_set_fmap_new key g) by done.
    rewrite map_get_snoc by (by apply map_get_fmap_None).
    rewrite map_set_snoc by (by apply map_get_fmap_None).
    rewrite fmap_app. cbn [fmap list_fmap]. f_equal.
    + apply list_fmap_ext. intros i r0 Hr0. cbn. rewrite Hg.
      rewrite decide_False; [done|]. intros E.
      apply Hin'. rewrite <- E. apply list_elem_of_fmap_2.
      by eapply list_elem_of_lookup_2.
    + rewrite Hg. fold k. rewrite decide_True by done. do 3 f_equal. unfold g.
      fold k. by rewrite filter_key_nil.
Qed.

Lemma foldl_groupStep data :
  foldl (groupStep key init upd) [] data = grouped key init upd data.
Proof.
  induction data as [|record data IH] using rev_ind; [done|].
  by rewrite foldl_app, IH; cbn [foldl]; rewrite groupStep_grouped.
Qed.

(** The entries before they are ranked. *)
Lemma map_values_grouped data :
  map_values (grouped key init upd data)
  = (fun r0 => foldl upd (init r0) (filter (fun r => key r = key r0) data))
      <$> firstRecords key data.
Proof.
  unfold map_values, grouped. rewrite <- list_fmap_compose.
  by apply list_fmap_ext.
Qed.

End GroupFacts.

(** When the entry depends on the key alone, the entries are those of the
    keys in the order of first occurrence. *)
Lemma fmap_firstRecords_key {R K V} `{EqDecision K} (key : R -> K)
    (f : K -> V) (l : list R) :
  (fun r => f (key r)) <$> firstRecords key l
  = f <$> firstOccurrences (key <$> l).
Proof. by rewrite <- fmap_firstRecords, <- list_fmap_compose. Qed.

(** *** The maps the reducers build *)

Lemma sumZ_app l1 l2 : sumZ (l1 ++ l2) = sumZ l1 + sumZ l2.
Proof.
  unfold sumZ. induction l1 as [|x l1 IH]; cbn; [done|]. rewrite IH. lia.
Qed.

Lemma sumZ_Permutation l1 l2 : l1 ≡ₚ l2 -> sumZ l1 = sumZ l2.
Proof. unfold sumZ. induction 1; cbn; lia. Qed.

Lemma countOf_snoc data r : countOf (data ++ [r]) = countOf data + 1.
Proof. unfold countOf. rewrite length_app. cbn. lia. Qed.

Lemma unitsIn_snoc data r : unitsIn (data ++ [r]) = unitsIn data + unitsOf r.
Proof. unfold unitsIn. rewrite fmap_app, sumZ_app. cbn. lia. Qed.

Lemma foldl_OrdersEntry k a b rs :
  foldl (fun e r => OrdersEntry.mk (OrdersEntry.name e)
                      (OrdersEntry.orders e + 1)
                      (OrdersEntry.units e + unitsOf r))
    (OrdersEntry.mk k a b) rs
  = OrdersEntry.mk k (a + countOf rs) (b + unitsIn rs).
Proof.
  induction rs as [|r rs IH] using rev_ind.
  - cbn. f_equal; unfold countOf, unitsIn; cbn; lia.
  - rewrite foldl_app, IH, countOf_snoc, unitsIn_snoc. cbn. f_equal; lia.
Qed.

Lemma foldl_ShipmentsEntry k a b rs :
  foldl (fun e r => ShipmentsEntry.mk (ShipmentsEntry.name e)
                      (ShipmentsEntry.shipments e + 1)
                      (ShipmentsEntry.units e + unitsOf r))
    (ShipmentsEntry.mk k a b) rs
  = ShipmentsEntry.mk k (a + countOf rs) (b + unitsIn rs).
Proof.
  induction rs as [|r rs IH] using rev_ind.
  - cbn. f_equal; unfold countOf, unitsIn; cbn; lia.
  - rewrite foldl_app, IH, countOf_snoc, unitsIn_snoc. cbn. f_equal; lia.
Qed.

Lemma foldl_RakeTypeEntry k a b rs :
  foldl (fun e r => RakeTypeEntry.mk (RakeTypeEntry.name e)
                      (RakeTypeEntry.units e + unitsOf r)
                      (RakeTypeEntry.count e + 1))
    (RakeTypeEntry.mk k a b) rs
  = RakeTypeEntry.mk k (a + unitsIn rs) (b + countOf rs).
Proof.
  induction rs as [|r rs IH] using rev_ind.
  - cbn. f_equal; unfold countOf, unitsIn; cbn; lia.
  - rewrite foldl_app, IH, countOf_snoc, unitsIn_snoc. cbn. f_equal; lia.
Qed.

Lemma foldl_RouteEntry k o d a b rs :
  foldl (fun e r => RouteEntry.mk (RouteEntry.route e) (RouteEntry.origin e)
                      (RouteEntry.destination e)
                      (RouteEntry.shipments e + 1)
                      (RouteEntry.units e + unitsOf r))
    (RouteEntry.mk k o d a b) rs
  = RouteEntry.mk k o d (a + countOf rs) (b + unitsIn rs).
Proof.
  induction rs as [|r rs IH] using rev_ind.
  - cbn. f_equal; unfold countOf, unitsIn; cbn; lia.
  - rewrite foldl_app, IH, countOf_snoc, unitsIn_snoc. cbn. f_equal; lia.
Qed.

Lemma getTopConsignors_ranking data limit :
  getTopConsignors data limit
  = slice0
      (sort (fun a b => OrdersEntry.orders b - OrdersEntry.orders a)
         ((fun k => OrdersEntry.mk k (countOf (recordsOf consignorOf k data))
                      (unitsIn (recordsOf consignorOf k data)))
            <$> firstOccurrences (consignorOf <$> data)))
      (default 10 limit).
Proof.
  unfold getTopConsignors. cbn zeta. f_equal. f_equal.
  etransitivity.
  { apply (f_equal map_values).
    exact (foldl_groupStep consignorOf (fun r => OrdersEntry.mk (consignorOf r) 0 0)
             (fun e r => OrdersEntry.mk (OrdersEntry.name e)
                           (OrdersEntry.orders e + 1)
                           (OrdersEntry.units e + unitsOf r)) data). }
  rewrite map_values_grouped.
  rewrite <- (fmap_firstRecords_key _
    (fun k => OrdersEntry.mk k (countOf (recordsOf _ k data))
                (unitsIn (recordsOf _ k data)))).
  apply list_fmap_ext. intros i k _. by rewrite foldl_OrdersEntry.
Qed.

Lemma getConsigneeAnalysis_ranking data limit :
  getConsigneeAnalysis data limit
  = slice0
      (sort (fun a b => OrdersEntry.orders b - OrdersEntry.orders a)
         ((fun k => OrdersEntry.mk k (countOf (recordsOf consigneeOf k data))
                      (unitsIn (recordsOf consigneeOf k data)))
            <$> firstOccurrences (consigneeOf <$> data)))
      (default 10 limit).
Proof.
  unfold getConsigneeAnalysis. cbn zeta. f_equal. f_equal.
  etransitivity.
  { apply (f_equal map_values).
    exact (foldl_groupStep consigneeOf (fun r => OrdersEntry.mk (consigneeOf r) 0 0)
             (fun e r => OrdersEntry.mk (OrdersEntry.name e)
                           (OrdersEntry.orders e + 1)
                           (OrdersEntry.units e + unitsOf r)) data). }
  rewrite map_values_grouped.
  rewrite <- (fmap_firstRecords_key _
    (fun k => OrdersEntry.mk k (countOf (recordsOf _ k data))
                (unitsIn (recordsOf _ k data)))).
  apply list_fmap_ext. intros i k _. by rewrite foldl_OrdersEntry.
Qed.

Lemma getTopDestinations_ranking data limit :
  getTopDestinations data limit
  = slice0
      (sort (fun a b => ShipmentsEntry.shipments b - ShipmentsEntry.shipments a)
         ((fun k => ShipmentsEntry.mk k
                      (countOf (recordsOf destinationOf k data))
                      (unitsIn (recordsOf destinationOf k data)))
            <$> firstOccurrences (destinationOf <$> data)))
      (default 10 limit).
Proof.
  unfold getTopDestinations. cbn zeta. f_equal. f_equal.
  etransitivity.
  { apply (f_equal map_values).
    exact (foldl_groupStep destinationOf (fun r => ShipmentsEntry.mk (destinationOf r) 0 0)
             (fun e r => ShipmentsEntry.mk (ShipmentsEntry.name e)
                           (ShipmentsEntry.shipments e + 1)
                           (ShipmentsEntry.units e + unitsOf r)) data). }
  rewrite map_values_grouped.
  rewrite <- (fmap_firstRecords_key _
    (fun k => ShipmentsEntry.mk k (countOf (recordsOf _ k data))
                (unitsIn (recordsOf _ k data)))).
  apply list_fmap_ext. intros i k _. by rewrite foldl_ShipmentsEntry.
Qed.

Lemma aggregateByRakeType_ranking data limit :
  aggregateByRakeType data limit
  = slice0
      (sort (fun a b => RakeTypeEntry.units b - RakeTypeEntry.units a)
         ((fun k => RakeTypeEntry.mk k (unitsIn (recordsOf rakeTypeOf k data))
                      (countOf (recordsOf rakeTypeOf k data)))
            <$> firstOccurrences (rakeTypeOf <$> data)))
      (default 10 limit).
Proof.
  unfold aggregateByRakeType. cbn zeta. f_equal. f_equal.
  etransitivity.
  { apply (f_equal map_values).
    exact (foldl_groupStep rakeTypeOf (fun r => RakeTypeEntry.mk (rakeTypeOf r) 0 0)
             (fun e r => RakeTypeEntry.mk (RakeTypeEntry.name e)
                           (RakeTypeEntry.units e + unitsOf r)
                           (RakeTypeEntry.count e + 1)) data). }
  rewrite map_values_grouped.
  rewrite <- (fmap_firstRecords_key _
    (fun k => RakeTypeEntry.mk k (unitsIn (recordsOf _ k data))
                (countOf (recordsOf _ k data)))).
  apply list_fmap_ext. intros i k _. by rewrite foldl_RakeTypeEntry.
Qed.

Lemma rankedRoutes_ranking data :
  rankedRoutes data
  = sort (fun a b => RouteEntry.shipments b - RouteEntry.shipments a)
      ((fun r0 => RouteEntry.mk (routeOf r0) (originOf r0) (destinationOf r0)
                    (countOf (recordsOf routeOf (routeOf r0) data))
                    (unitsIn (recordsOf routeOf (routeOf r0) data)))
         <$> firstRecords routeOf data).
Proof.
  unfold rankedRoutes. f_equal.
  etransitivity.
  { apply (f_equal map_values).
    exact (foldl_groupStep routeOf
             (fun r => RouteEntry.mk (routeOf r) (originOf r)
                         (destinationOf r) 0 0)
             (fun e r => RouteEntry.mk (RouteEntry.route e)
                           (RouteEntry.origin e) (RouteEntry.destination e)
                           (RouteEntry.shipments e + 1)
                           (RouteEntry.units e + unitsOf r)) data). }
  rewrite map_values_grouped. apply list_fmap_ext. intros i r0 _. cbn beta.
  by rewrite foldl_RouteEntry.
Qed.

(** *** Rankings *)

Lemma length_firstOccurrences_set_size {K} `{EqDecision K} (l : list K) :
  length (firstOccurrences l) = set_size l.
Proof.
  unfold set_size. apply Permutation_length. apply NoDup_Permutation.
  - apply NoDup_firstOccurrences.
  - apply NoDup_remove_dups.
  - intros k. by rewrite elem_of_firstOccurrences, elem_of_remove_dups.
Qed.

Lemma filter_prefix {A} (P : A -> Prop) `{forall x, Decision (P x)} (l1 l2 : list A) :
  l1 `prefix_of` l2 -> filter P l1 `prefix_of` filter P l2.
Proof. intros [k ->]. rewrite filter_app. by apply prefix_app_r. Qed.

Lemma slice0_all {A} (l : list A) limit :
  Z.of_nat (length l) <= limit -> slice0 l limit = l.
Proof.
  intros H. rewrite slice0_nonneg by lia. apply take_ge. lia.
Qed.

Section Ranking.
Context {E K N : Type} (name : E -> N) (rank : E -> Z) (mk : K -> E)
  (key : K -> N).
Context (keys : list K).
Hypothesis name_mk : forall k, name (mk k) = key k.

Local Abbreviation ranking := (sort (fun a b => rank b - rank a) (mk <$> keys)).

Lemma ranking_names : name <$> ranking ≡ₚ key <$> keys.
Proof.
  rewrite sort_Permutation, <- list_fmap_compose.
  rewrite (list_fmap_ext _ key keys); [done|].
  intros i k _. apply name_mk.
Qed.

Lemma elem_of_ranking e limit :
  e ∈ slice0 ranking limit -> exists k, k ∈ keys /\ e = mk k.
Proof.
  intros He%elem_of_slice0.
  rewrite elem_of_sort in He.
  apply list_elem_of_fmap in He as [k [-> Hk]]. eauto.
Qed.

Lemma ranking_descending limit : descendingBy rank (slice0 ranking limit).
Proof. unfold slice0. apply descendingBy_take, sort_descendingBy. Qed.

Lemma ranking_NoDup limit :
  NoDup (key <$> keys) -> NoDup (name <$> slice0 ranking limit).
Proof.
  intros Hnd. unfold slice0. rewrite fmap_take.
  apply (sublist_NoDup _ (name <$> ranking)); [|apply sublist_take].
  by rewrite ranking_names.
Qed.

Lemma filter_rank_names v (l : list K) :
  name <$> filter (fun e => rank e = v) (mk <$> l)
  = key <$> filter (fun k => rank (mk k) = v) l.
Proof.
  induction l as [|k l IH]; [done|].
  rewrite fmap_cons, !filter_cons.
  destruct (decide (rank (mk k) = v)); [|done].
  by rewrite !fmap_cons, name_mk, IH.
Qed.

Lemma ranking_ties limit v :
  (name <$> filter (fun e => rank e = v) (slice0 ranking limit))
    `sublist_of` (key <$> keys).
Proof.
  unfold slice0. set (n := Z.to_nat _).
  transitivity (name <$> filter (fun e => rank e = v) ranking).
  - apply fmap_sublist.
    rewrite <- (take_drop n ranking) at 2. rewrite filter_app.
    by apply sublist_inserts_r.
  - rewrite sort_stable, filter_rank_names.
    apply fmap_sublist, sublist_filter.
Qed.

Lemma ranking_rankedGroups limit :
  NoDup (key <$> keys) ->
  rankedGroups name rank (key <$> keys) (slice0 ranking limit).
Proof.
  intros Hnd. split; [apply ranking_descending|].
  split; [by apply ranking_NoDup|]. intros v. apply ranking_ties.
Qed.

Lemma length_ranking limit :
  length (slice0 ranking limit) = kept limit (length keys).
Proof.
  unfold slice0, kept.
  rewrite length_take, length_sort, length_fmap.
  destruct (limit <? 0); lia.
Qed.

Lemma ranking_prefix limit n :
  (length keys <= n)%nat ->
  slice0 ranking limit `prefix_of` slice0 ranking (Z.of_nat n).
Proof.
  intros Hn. rewrite (slice0_all _ (Z.of_nat n)); [apply slice0_prefix|].
  rewrite length_sort, length_fmap. lia.
Qed.

End Ranking.


Lemma recordsOf_nonempty {K} `{EqDecision K} (key : CanonicalRecord -> K) k data :
  k ∈ key <$> data -> recordsOf key k data <> [].
Proof.
  intros [r [-> Hr]]%list_elem_of_fmap Hnil.
  assert (H : r ∈ recordsOf key (key r) data)
    by (by apply list_elem_of_filter).
  rewrite Hnil in H. by apply elem_of_nil in H.
Qed.

(** The first record of a key heads the records of the key. *)
Lemma firstRecords_head {R K} `{EqDecision K} (key : R -> K) (data : list R) r0 :
  r0 ∈ firstRecords key data ->
  exists rest, filter (fun r => key r = key r0) data = r0 :: rest.
Proof.
  induction data as [|r data IH]; [by intros ?%elem_of_nil|].
  cbn [firstRecords]. rewrite elem_of_cons, list_elem_of_filter.
  intros [->|[Hne Hin]].
  - rewrite filter_cons, decide_True by done. eauto.
  - rewrite filter_cons, decide_False by done. by apply IH.
Qed.

Lemma getRouteAnalysis_ranking data limit :
  getRouteAnalysis data limit
  = slice0
      (sort (fun a b => RouteEntry.shipments b - RouteEntry.shipments a)
         ((fun r0 => RouteEntry.mk (routeOf r0) (originOf r0) (destinationOf r0)
                       (countOf (recordsOf routeOf (routeOf r0) data))
                       (unitsIn (recordsOf routeOf (routeOf r0) data)))
            <$> firstRecords routeOf data))
      (default 15 limit).
Proof. unfold getRouteAnalysis. by rewrite rankedRoutes_ranking. Qed.

(** X1: every entry that a truncating reducer (top consignors, top
    destinations, rake types, consignees, routes) returns stands for a
    group of records that is not empty, and carries the number of records
    of the group and the sum of their units ([NaN] units counting as 0);
    a route entry carries the origin and the destination of the first
    record of its route. *)
Theorem top_entries_are_group_totals (data : list CanonicalRecord)
    (limit : option Z) :
  (forall e, e ∈ getTopConsignors data limit ->
     let rs := recordsOf consignorOf (OrdersEntry.name e) data in
     rs <> [] /\ OrdersEntry.orders e = countOf rs /\
     OrdersEntry.units e = unitsIn rs) /\
  (forall e, e ∈ getTopDestinations data limit ->
     let rs := recordsOf destinationOf (ShipmentsEntry.name e) data in
     rs <> [] /\ ShipmentsEntry.shipments e = countOf rs /\
     ShipmentsEntry.units e = unitsIn rs) /\
  (forall e, e ∈ aggregateByRakeType data limit ->
     let rs := recordsOf rakeTypeOf (RakeTypeEntry.name e) data in
     rs <> [] /\ RakeTypeEntry.count e = countOf rs /\
     RakeTypeEntry.units e = unitsIn rs) /\
  (forall e, e ∈ getConsigneeAnalysis data limit ->
     let rs := recordsOf consigneeOf (OrdersEntry.name e) data in
     rs <> [] /\ OrdersEntry.orders e = countOf rs /\
     OrdersEntry.units e = unitsIn rs) /\
  (forall e, e ∈ getRouteAnalysis data limit ->
     let rs := recordsOf routeOf (RouteEntry.route e) data in
     (exists r0 rest, rs = r0 :: rest /\
        RouteEntry.origin e = originOf r0 /\
        RouteEntry.destination e = destinationOf r0) /\
     RouteEntry.shipments e = countOf rs /\
     RouteEntry.units e = unitsIn rs).
Proof.
  split_and!.
  - intros e He. rewrite getTopConsignors_ranking in He.
    apply elem_of_ranking in He as [k [Hk ->]]. cbv zeta.
    split; [|done]. apply recordsOf_nonempty.
    by rewrite elem_of_firstOccurrences in Hk.
  - intros e He. rewrite getTopDestinations_ranking in He.
    apply elem_of_ranking in He as [k [Hk ->]]. cbv zeta.
    split; [|done]. apply recordsOf_nonempty.
    by rewrite elem_of_firstOccurrences in Hk.
  - intros e He. rewrite aggregateByRakeType_ranking in He.
    apply elem_of_ranking in He as [k [Hk ->]]. cbv zeta.
    split; [|done]. apply recordsOf_nonempty.
    by rewrite elem_of_firstOccurrences in Hk.
  - intros e He. rewrite getConsigneeAnalysis_ranking in He.
    apply elem_of_ranking in He as [k [Hk ->]]. cbv zeta.
    split; [|done]. apply recordsOf_nonempty.
    by rewrite elem_of_firstOccurrences in Hk.
  - intros e He. rewrite getRouteAnalysis_ranking in He.
    apply elem_of_ranking in He as [r0 [Hr0 ->]]. cbv zeta.
    split; [|done].
    destruct (firstRecords_head routeOf data r0 Hr0) as [rest Hrest].
    exists r0, rest. done.
Qed.

Lemma top_entries_are_group_totals_witness :
  let data_ := [sampleRecord; sampleRecord] in
  (recordsOf consignorOf "ACME" data_ <> [] /\
   2 = countOf (recordsOf consignorOf "ACME" data_) /\
   4 = unitsIn (recordsOf consignorOf "ACME" data_)) /\
  (recordsOf destinationOf "NGP" data_ <> [] /\
   2 = countOf (recordsOf destinationOf "NGP" data_) /\
   4 = unitsIn (recordsOf destinationOf "NGP" data_)) /\
  (recordsOf rakeTypeOf "BOXN" data_ <> [] /\
   2 = countOf (recordsOf rakeTypeOf "BOXN" data_) /\
   4 = unitsIn (recordsOf rakeTypeOf "BOXN" data_)) /\
  (recordsOf consigneeOf "Unknown" data_ <> [] /\
   2 = countOf (recordsOf consigneeOf "Unknown" data_) /\
   4 = unitsIn (recordsOf consigneeOf "Unknown" data_)) /\
  ((exists r0 rest, recordsOf routeOf "BSL → NGP" data_ = r0 :: rest /\
      "BSL" = originOf r0 /\ "NGP" = destinationOf r0) /\
   2 = countOf (recordsOf routeOf "BSL → NGP" data_) /\
   4 = unitsIn (recordsOf routeOf "BSL → NGP" data_)).
Proof.
  pose proof (top_entries_are_group_totals [sampleRecord; sampleRecord] None)
    as (H1 & H2 & H3 & H4 & H5).
  split; [|split; [|split; [|split]]].
  - apply (H1 (OrdersEntry.mk "ACME" 2 4)). vm_compute. left.
  - apply (H2 (ShipmentsEntry.mk "NGP" 2 4)). vm_compute. left.
  - apply (H3 (RakeTypeEntry.mk "BOXN" 4 2)). vm_compute. left.
  - apply (H4 (OrdersEntry.mk "Unknown" 2 4)). vm_compute. left.
  - apply (H5 (RouteEntry.mk "BSL → NGP" "BSL" "NGP" 2 4)). vm_compute. left.
Defined.

(** X2: what a truncating reducer returns is ranked: the entries are in
    descending order of the number of orders (of shipments; of units for
    the rake types), no two entries have the same name, and entries of
    equal rank stand in the order in which the data first shows their
    names. *)
Theorem top_entries_are_ranked (data : list CanonicalRecord) (limit : option Z) :
  rankedGroups OrdersEntry.name OrdersEntry.orders
    (firstOccurrences (consignorOf <$> data)) (getTopConsignors data limit) /\
  rankedGroups ShipmentsEntry.name ShipmentsEntry.shipments
    (firstOccurrences (destinationOf <$> data))
    (getTopDestinations data limit) /\
  rankedGroups RakeTypeEntry.name RakeTypeEntry.units
    (firstOccurrences (rakeTypeOf <$> data)) (aggregateByRakeType data limit) /\
  rankedGroups OrdersEntry.name OrdersEntry.orders
    (firstOccurrences (consigneeOf <$> data))
    (getConsigneeAnalysis data limit) /\
  rankedGroups RouteEntry.route RouteEntry.shipments
    (firstOccurrences (routeOf <$> data)) (getRouteAnalysis data limit).
Proof.
  split_and!.
  - rewrite getTopConsignors_ranking.
    rewrite <- (list_fmap_id (firstOccurrences (consignorOf <$> data))) at 1.
    apply ranking_rankedGroups; [done|].
    rewrite list_fmap_id. apply NoDup_firstOccurrences.
  - rewrite getTopDestinations_ranking.
    rewrite <- (list_fmap_id (firstOccurrences (destinationOf <$> data))) at 1.
    apply ranking_rankedGroups; [done|].
    rewrite list_fmap_id. apply NoDup_firstOccurrences.
  - rewrite aggregateByRakeType_ranking.
    rewrite <- (list_fmap_id (firstOccurrences (rakeTypeOf <$> data))) at 1.
    apply ranking_rankedGroups; [done|].
    rewrite list_fmap_id. apply NoDup_firstOccurrences.
  - rewrite getConsigneeAnalysis_ranking.
    rewrite <- (list_fmap_id (firstOccurrences (consigneeOf <$> data))) at 1.
    apply ranking_rankedGroups; [done|].
    rewrite list_fmap_id. apply NoDup_firstOccurrences.
  - rewrite getRouteAnalysis_ranking.
    rewrite <- (fmap_firstRecords routeOf).
    apply ranking_rankedGroups; [done|].
    rewrite fmap_firstRecords. apply NoDup_firstOccurrences.
Qed.

(** X3: a truncating reducer keeps what [slice(0, limit)] keeps of the
    ranking of all groups: with a limit that is not negative, as many
    entries as the limit says or all groups if they are fewer; with a
    negative limit, all but that many of the last; and always a prefix of
    the ranking it returns when the limit is the number of records.  The
    limit is 10 when none is given, 15 for the routes. *)
Theorem top_entries_truncation (data : list CanonicalRecord) (limit : option Z) :
  (length (getTopConsignors data limit)
   = kept (default 10 limit) (set_size (consignorOf <$> data)) /\
   getTopConsignors data limit
     `prefix_of` getTopConsignors data (Some (countOf data))) /\
  (length (getTopDestinations data limit)
   = kept (default 10 limit) (set_size (destinationOf <$> data)) /\
   getTopDestinations data limit
     `prefix_of` getTopDestinations data (Some (countOf data))) /\
  (length (aggregateByRakeType data limit)
   = kept (default 10 limit) (set_size (rakeTypeOf <$> data)) /\
   aggregateByRakeType data limit
     `prefix_of` aggregateByRakeType data (Some (countOf data))) /\
  (length (getConsigneeAnalysis data limit)
   = kept (default 10 limit) (set_size (consigneeOf <$> data)) /\
   getConsigneeAnalysis data limit
     `prefix_of` getConsigneeAnalysis data (Some (countOf data))) /\
  (length (getRouteAnalysis data limit)
   = kept (default 15 limit) (set_size (routeOf <$> data)) /\
   getRouteAnalysis data limit
     `prefix_of` getRouteAnalysis data (Some (countOf data))).
Proof.
  assert (Hlen : forall (key : CanonicalRecord -> string),
    (length (firstOccurrences (key <$> data)) <= length data)%nat).
  { intros key. etransitivity; [apply length_firstOccurrences|].
    by rewrite length_fmap. }
  split_and!.
  - rewrite getTopConsignors_ranking, length_ranking.
    by rewrite length_firstOccurrences_set_size.
  - rewrite !getTopConsignors_ranking. apply ranking_prefix, Hlen.
  - rewrite getTopDestinations_ranking, length_ranking.
    by rewrite length_firstOccurrences_set_size.
  - rewrite !getTopDestinations_ranking. apply ranking_prefix, Hlen.
  - rewrite aggregateByRakeType_ranking, length_ranking.
    by rewrite length_firstOccurrences_set_size.
  - rewrite !aggregateByRakeType_ranking. apply ranking_prefix, Hlen.
  - rewrite getConsigneeAnalysis_ranking, length_ranking.
    by rewrite length_firstOccurrences_set_size.
  - rewrite !getConsigneeAnalysis_ranking. apply ranking_prefix, Hlen.
  - rewrite getRouteAnalysis_ranking, length_ranking.
    rewrite <- (length_fmap routeOf), fmap_firstRecords.
    by rewrite length_firstOccurrences_set_size.
  - rewrite !getRouteAnalysis_ranking. apply ranking_prefix.
    rewrite <- (length_fmap routeOf), fmap_firstRecords. apply Hlen.
Qed.

(** *** The reducers that return every group *)

Lemma foldl_CommodityEntry k a b rs :
  foldl (fun e r => CommodityEntry.mk (CommodityEntry.name e)
                      (CommodityEntry.value e + 1)
                      (CommodityEntry.units e + unitsOf r))
    (CommodityEntry.mk k a b) rs
  = CommodityEntry.mk k (a + countOf rs) (b + unitsIn rs).
Proof.
  induction rs as [|r rs IH] using rev_ind.
  - cbn. f_equal; unfold countOf, unitsIn; cbn; lia.
  - rewrite foldl_app, IH, countOf_snoc, unitsIn_snoc. cbn. f_equal; lia.
Qed.

Lemma foldl_ZoneEntry k a b rs :
  foldl (fun e r => ZoneEntry.mk (ZoneEntry.zone e) (ZoneEntry.orders e + 1)
                      (ZoneEntry.units e + unitsOf r))
    (ZoneEntry.mk k a b) rs
  = ZoneEntry.mk k (a + countOf rs) (b + unitsIn rs).
Proof.
  induction rs as [|r rs IH] using rev_ind.
  - cbn. f_equal; unfold countOf, unitsIn; cbn; lia.
  - rewrite foldl_app, IH, countOf_snoc, unitsIn_snoc. cbn. f_equal; lia.
Qed.

Lemma foldl_DivisionEntry k a b c rs :
  foldl (fun e r => DivisionEntry.mk (DivisionEntry.division e)
                      (DivisionEntry.orders e + 1)
                      (DivisionEntry.totalUnits e + unitsOf r)
                      (DivisionEntry.avgUnits e))
    (DivisionEntry.mk k a b c) rs
  = DivisionEntry.mk k (a + countOf rs) (b + unitsIn rs) c.
Proof.
  induction rs as [|r rs IH] using rev_ind.
  - cbn. f_equal; unfold countOf, unitsIn; cbn; lia.
  - rewrite foldl_app, IH, countOf_snoc, unitsIn_snoc. cbn. f_equal; lia.
Qed.

Lemma foldl_QueryTypeEntry k a b rs :
  foldl (fun e r => QueryTypeEntry.mk (QueryTypeEntry.name e)
                      (QueryTypeEntry.count e + 1)
                      (QueryTypeEntry.units e + unitsOf r))
    (QueryTypeEntry.mk k a b) rs
  = QueryTypeEntry.mk k (a + countOf rs) (b + unitsIn rs).
Proof.
  induction rs as [|r rs IH] using rev_ind.
  - cbn. f_equal; unfold countOf, unitsIn; cbn; lia.
  - rewrite foldl_app, IH, countOf_snoc, unitsIn_snoc. cbn. f_equal; lia.
Qed.

Lemma foldl_PriorityEntry k a (rs : list CanonicalRecord) :
  foldl (fun e r => PriorityEntry.mk (PriorityEntry.name e)
                      (PriorityEntry.count e + 1))
    (PriorityEntry.mk k a) rs
  = PriorityEntry.mk k (a + countOf rs).
Proof.
  induction rs as [|r rs IH] using rev_ind.
  - cbn. f_equal; unfold countOf; cbn; lia.
  - rewrite foldl_app, IH, countOf_snoc. cbn. f_equal; lia.
Qed.

Lemma aggregateByCommodity_ranking data :
  aggregateByCommodity data
  = sort (fun a b => CommodityEntry.value b - CommodityEntry.value a)
      ((fun k => CommodityEntry.mk k (countOf (recordsOf commodityOf k data))
                   (unitsIn (recordsOf commodityOf k data)))
         <$> firstOccurrences (commodityOf <$> data)).
Proof.
  unfold aggregateByCommodity. cbn zeta. f_equal.
  etransitivity.
  { apply (f_equal map_values).
    exact (foldl_groupStep commodityOf
             (fun r => CommodityEntry.mk (commodityOf r) 0 0)
             (fun e r => CommodityEntry.mk (CommodityEntry.name e)
                           (CommodityEntry.value e + 1)
                           (CommodityEntry.units e + unitsOf r)) data). }
  rewrite map_values_grouped.
  rewrite <- (fmap_firstRecords_key _
    (fun k => CommodityEntry.mk k (countOf (recordsOf _ k data))
                (unitsIn (recordsOf _ k data)))).
  apply list_fmap_ext. intros i k _. by rewrite foldl_CommodityEntry.
Qed.

Lemma aggregateByZone_ranking data :
  aggregateByZone data
  = sort (fun a b => ZoneEntry.orders b - ZoneEntry.orders a)
      ((fun k => ZoneEntry.mk k (countOf (recordsOf zoneOf k data))
                   (unitsIn (recordsOf zoneOf k data)))
         <$> firstOccurrences (zoneOf <$> data)).
Proof.
  unfold aggregateByZone. cbn zeta. f_equal.
  etransitivity.
  { apply (f_equal map_values).
    exact (foldl_groupStep zoneOf
             (fun r => ZoneEntry.mk (zoneOf r) 0 0)
             (fun e r => ZoneEntry.mk (ZoneEntry.zone e)
                           (ZoneEntry.orders e + 1)
                           (ZoneEntry.units e + unitsOf r)) data). }
  rewrite map_values_grouped.
  rewrite <- (fmap_firstRecords_key _
    (fun k => ZoneEntry.mk k (countOf (recordsOf _ k data))
                (unitsIn (recordsOf _ k data)))).
  apply list_fmap_ext. intros i k _. by rewrite foldl_ZoneEntry.
Qed.

Lemma getQueryTypeDistribution_ranking data :
  getQueryTypeDistribution data
  = sort (fun a b => QueryTypeEntry.count b - QueryTypeEntry.count a)
      ((fun k => QueryTypeEntry.mk k (countOf (recordsOf queryTypeOf k data))
                   (unitsIn (recordsOf queryTypeOf k data)))
         <$> firstOccurrences (queryTypeOf <$> data)).
Proof.
  unfold getQueryTypeDistribution. cbn zeta. f_equal.
  etransitivity.
  { apply (f_equal map_values).
    exact (foldl_groupStep queryTypeOf
             (fun r => QueryTypeEntry.mk (queryTypeOf r) 0 0)
             (fun e r => QueryTypeEntry.mk (QueryTypeEntry.name e)
                           (QueryTypeEntry.count e + 1)
                           (QueryTypeEntry.units e + unitsOf r)) data). }
  rewrite map_values_grouped.
  rewrite <- (fmap_firstRecords_key _
    (fun k => QueryTypeEntry.mk k (countOf (recordsOf _ k data))
                (unitsIn (recordsOf _ k data)))).
  apply list_fmap_ext. intros i k _. by rewrite foldl_QueryTypeEntry.
Qed.

Lemma getPriorityDistribution_ranking data :
  getPriorityDistribution data
  = sort (fun a b => PriorityEntry.count b - PriorityEntry.count a)
      ((fun k => PriorityEntry.mk k (countOf (recordsOf priorityOf k data)))
         <$> firstOccurrences (priorityOf <$> data)).
Proof.
  unfold getPriorityDistribution. cbn zeta. f_equal.
  etransitivity.
  { apply (f_equal map_values).
    exact (foldl_groupStep priorityOf
             (fun r => PriorityEntry.mk (priorityOf r) 0)
             (fun e (r : CanonicalRecord) =>
                PriorityEntry.mk (PriorityEntry.name e)
                  (PriorityEntry.count e + 1)) data). }
  rewrite map_values_grouped.
  rewrite <- (fmap_firstRecords_key _
    (fun k => PriorityEntry.mk k (countOf (recordsOf _ k data)))).
  apply list_fmap_ext. intros i k _. by rewrite foldl_PriorityEntry.
Qed.

Lemma aggregateByDivision_ranking data :
  aggregateByDivision data
  = sort (fun a b => DivisionEntry.orders b - DivisionEntry.orders a)
      ((fun k => withAverage
                   (DivisionEntry.mk k (countOf (recordsOf divisionOf k data))
                      (unitsIn (recordsOf divisionOf k data)) 0))
         <$> firstOccurrences (divisionOf <$> data)).
Proof.
  unfold aggregateByDivision. cbn zeta. f_equal.
  etransitivity.
  { apply (f_equal (fmap withAverage)). apply (f_equal map_values).
    exact (foldl_groupStep divisionOf
             (fun r => DivisionEntry.mk (divisionOf r) 0 0 0)
             (fun e r => DivisionEntry.mk (DivisionEntry.division e)
                           (DivisionEntry.orders e + 1)
                           (DivisionEntry.totalUnits e + unitsOf r)
                           (DivisionEntry.avgUnits e)) data). }
  rewrite map_values_grouped, <- list_fmap_compose.
  rewrite <- (fmap_firstRecords_key _
    (fun k => withAverage
                (DivisionEntry.mk k (countOf (recordsOf _ k data))
                   (unitsIn (recordsOf _ k data)) 0))).
  apply list_fmap_ext. intros i k _. cbn [compose].
  by rewrite foldl_DivisionEntry.
Qed.

(** The rankings that are not cut. *)
Section FullRanking.
Context {E K N : Type} (name : E -> N) (rank : E -> Z) (mk : K -> E)
  (key : K -> N).
Context (keys : list K).
Hypothesis name_mk : forall k, name (mk k) = key k.

Lemma sort_as_slice0 :
  sort (fun a b => rank b - rank a) (mk <$> keys)
  = slice0 (sort (fun a b => rank b - rank a) (mk <$> keys))
      (Z.of_nat (length keys)).
Proof.
  symmetry. apply slice0_all. rewrite length_sort, length_fmap. lia.
Qed.

Lemma full_ranking_rankedGroups :
  NoDup (key <$> keys) ->
  rankedGroups name rank (key <$> keys)
    (sort (fun a b => rank b - rank a) (mk <$> keys)).
Proof. rewrite sort_as_slice0. by apply ranking_rankedGroups. Qed.

Lemma elem_of_full_ranking e :
  e ∈ sort (fun a b => rank b - rank a) (mk <$> keys) ->
  exists k, k ∈ keys /\ e = mk k.
Proof.
  rewrite elem_of_sort. intros [k [-> Hk]]%list_elem_of_fmap. eauto.
Qed.

End FullRanking.

(** Each record belongs to the group of one key. *)
Lemma sumZ_fmap_add {A} (f g : A -> Z) l :
  sumZ ((fun x => f x + g x) <$> l) = sumZ (f <$> l) + sumZ (g <$> l).
Proof.
  unfold sumZ. induction l as [|x l IH]; [done|].
  rewrite !fmap_cons. cbn [foldr]. rewrite IH. lia.
Qed.

Lemma sumZ_indicator {K} `{EqDecision K} (ks : list K) k0 a :
  NoDup ks -> k0 ∈ ks ->
  sumZ ((fun k => if decide (k0 = k) then a else 0) <$> ks) = a.
Proof.
  unfold sumZ. induction ks as [|k ks IH]; [by intros _ ?%elem_of_nil|].
  intros [Hk Hks]%NoDup_cons Hin. rewrite fmap_cons. cbn [foldr].
  destruct (decide (k0 = k)) as [->|Hne].
  - assert (H0 : foldr Z.add 0
                   ((fun k' => if decide (k = k') then a else 0) <$> ks) = 0).
    { clear IH Hks Hin. induction ks as [|k' ks IH]; [done|].
      apply not_elem_of_cons in Hk as [Hne Hk].
      rewrite fmap_cons. cbn [foldr]. rewrite decide_False by done.
      by rewrite IH. }
    rewrite H0. lia.
  - rewrite IH; [lia|done|]. by apply elem_of_cons in Hin as [?|?].
Qed.

Lemma sum_over_groups {R K} `{EqDecision K} (key : R -> K) (w : R -> Z)
    (data : list R) (ks : list K) :
  NoDup ks -> (forall r, r ∈ data -> key r ∈ ks) ->
  sumZ ((fun k => sumZ (w <$> filter (fun r => key r = k) data)) <$> ks)
  = sumZ (w <$> data).
Proof.
  intros Hnd. induction data as [|r data IH]; intros Hks.
  - clear Hnd Hks. unfold sumZ. induction ks as [|k ks IHk]; [done|].
    rewrite fmap_cons. cbn [foldr]. rewrite filter_nil, IHk. done.
  - rewrite fmap_cons.
    rewrite (list_fmap_ext _
      (fun k => (if decide (key r = k) then w r else 0)
                + sumZ (w <$> filter (fun r => key r = k) data)) ks).
    + rewrite sumZ_fmap_add, sumZ_indicator; [|done|].
      * rewrite IH; [done|]. intros r' Hr'. apply Hks. by right.
      * apply Hks. by left.
    + intros i k _. rewrite filter_cons.
      destruct (decide (key r = k)); [by rewrite fmap_cons|]. cbn. lia.
Qed.

Lemma countOf_sumZ (rs : list CanonicalRecord) :
  countOf rs = sumZ ((fun _ => 1) <$> rs).
Proof.
  unfold countOf, sumZ. induction rs as [|r rs IH]; [done|].
  rewrite fmap_cons. cbn [foldr length]. lia.
Qed.

Lemma groups_count (key : CanonicalRecord -> string) data :
  sumZ ((fun k => countOf (recordsOf key k data))
          <$> firstOccurrences (key <$> data))
  = countOf data.
Proof.
  rewrite (list_fmap_ext _
    (fun k => sumZ ((fun _ => 1) <$> filter (fun r => key r = k) data))
    (firstOccurrences (key <$> data))).
  - rewrite sum_over_groups, <- countOf_sumZ; [done| |].
    + apply NoDup_firstOccurrences.
    + intros r Hr. apply elem_of_firstOccurrences.
      by apply list_elem_of_fmap_2.
  - intros i k _. apply countOf_sumZ.
Qed.

Lemma groups_units (key : CanonicalRecord -> string) data :
  sumZ ((fun k => unitsIn (recordsOf key k data))
          <$> firstOccurrences (key <$> data))
  = unitsIn data.
Proof.
  unfold unitsIn, recordsOf. apply sum_over_groups.
  - apply NoDup_firstOccurrences.
  - intros r Hr. apply elem_of_firstOccurrences.
    by apply list_elem_of_fmap_2.
Qed.

Lemma sumZ_sort {A} (cmp : A -> A -> Z) (f : A -> Z) l :
  sumZ (f <$> sort cmp l) = sumZ (f <$> l).
Proof. apply sumZ_Permutation. by rewrite sort_Permutation. Qed.

Lemma elem_of_names_full {E} (name : E -> string) (rank : E -> Z)
    (mk : string -> E) (key : CanonicalRecord -> string) data r :
  (forall k, name (mk k) = k) -> r ∈ data ->
  key r ∈ name <$> sort (fun a b => rank b - rank a)
                     (mk <$> firstOccurrences (key <$> data)).
Proof.
  intros Hname Hr.
  rewrite (ranking_names name rank mk id _ Hname), list_fmap_id.
  apply elem_of_firstOccurrences. by apply list_elem_of_fmap_2.
Qed.

Lemma length_full_ranking {E} (rank : E -> Z) (mk : string -> E)
    (key : CanonicalRecord -> string) data :
  length (sort (fun a b => rank b - rank a)
            (mk <$> firstOccurrences (key <$> data)))
  = set_size (key <$> data).
Proof.
  by rewrite length_sort, length_fmap, length_firstOccurrences_set_size.
Qed.

(** X4: the reducers that do not truncate (by commodity, by zone, by
    division, by query type, by priority) return one entry for each
    different key of the data, every record's key has its entry, and each
    entry carries the number of records of its key and the sum of their
    units.  The key is the field, or ["Unknown"] when the field is
    missing or empty; for the commodity the field [cmdt], else
    [rakecmdt], else ["Unknown"]. *)
Theorem full_reducers_group_every_record (data : list CanonicalRecord) :
  (length (aggregateByCommodity data) = set_size (commodityOf <$> data) /\
   (forall r, r ∈ data ->
      commodityOf r ∈ CommodityEntry.name <$> aggregateByCommodity data) /\
   (forall e, e ∈ aggregateByCommodity data ->
      let rs := recordsOf commodityOf (CommodityEntry.name e) data in
      rs <> [] /\ CommodityEntry.value e = countOf rs /\
      CommodityEntry.units e = unitsIn rs)) /\
  (length (aggregateByZone data) = set_size (zoneOf <$> data) /\
   (forall r, r ∈ data -> zoneOf r ∈ ZoneEntry.zone <$> aggregateByZone data) /\
   (forall e, e ∈ aggregateByZone data ->
      let rs := recordsOf zoneOf (ZoneEntry.zone e) data in
      rs <> [] /\ ZoneEntry.orders e = countOf rs /\
      ZoneEntry.units e = unitsIn rs)) /\
  (length (aggregateByDivision data) = set_size (divisionOf <$> data) /\
   (forall r, r ∈ data ->
      divisionOf r ∈ DivisionEntry.division <$> aggregateByDivision data) /\
   (forall e, e ∈ aggregateByDivision data ->
      let rs := recordsOf divisionOf (DivisionEntry.division e) data in
      rs <> [] /\ DivisionEntry.orders e = countOf rs /\
      DivisionEntry.totalUnits e = unitsIn rs)) /\
  (length (getQueryTypeDistribution data) = set_size (queryTypeOf <$> data) /\
   (forall r, r ∈ data ->
      queryTypeOf r ∈ QueryTypeEntry.name <$> getQueryTypeDistribution data) /\
   (forall e, e ∈ getQueryTypeDistribution data ->
      let rs := recordsOf queryTypeOf (QueryTypeEntry.name e) data in
      rs <> [] /\ QueryTypeEntry.count e = countOf rs /\
      QueryTypeEntry.units e = unitsIn rs)) /\
  (length (getPriorityDistribution data) = set_size (priorityOf <$> data) /\
   (forall r, r ∈ data ->
      priorityOf r ∈ PriorityEntry.name <$> getPriorityDistribution data) /\
   (forall e, e ∈ getPriorityDistribution data ->
      let rs := recordsOf priorityOf (PriorityEntry.name e) data in
      rs <> [] /\ PriorityEntry.count e = countOf rs)).
Proof.
  split; [|split; [|split; [|split]]]; (split; [|split]).
  - rewrite aggregateByCommodity_ranking. apply length_full_ranking.
  - intros r Hr. rewrite aggregateByCommodity_ranking.
    by apply elem_of_names_full.
  - intros e He. rewrite aggregateByCommodity_ranking in He.
    apply elem_of_full_ranking in He as [k [Hk ->]]. cbv zeta.
    split; [|done]. apply recordsOf_nonempty.
    by rewrite elem_of_firstOccurrences in Hk.
  - rewrite aggregateByZone_ranking. apply length_full_ranking.
  - intros r Hr. rewrite aggregateByZone_ranking.
    by apply elem_of_names_full.
  - intros e He. rewrite aggregateByZone_ranking in He.
    apply elem_of_full_ranking in He as [k [Hk ->]]. cbv zeta.
    split; [|done]. apply recordsOf_nonempty.
    by rewrite elem_of_firstOccurrences in Hk.
  - rewrite aggregateByDivision_ranking. apply length_full_ranking.
  - intros r Hr. rewrite aggregateByDivision_ranking.
    by apply elem_of_names_full.
  - intros e He. rewrite aggregateByDivision_ranking in He.
    apply elem_of_full_ranking in He as [k [Hk ->]]. cbv zeta.
    split; [|done]. apply recordsOf_nonempty.
    by rewrite elem_of_firstOccurrences in Hk.
  - rewrite getQueryTypeDistribution_ranking. apply length_full_ranking.
  - intros r Hr. rewrite getQueryTypeDistribution_ranking.
    by apply elem_of_names_full.
  - intros e He. rewrite getQueryTypeDistribution_ranking in He.
    apply elem_of_full_ranking in He as [k [Hk ->]]. cbv zeta.
    split; [|done]. apply recordsOf_nonempty.
    by rewrite elem_of_firstOccurrences in Hk.
  - rewrite getPriorityDistribution_ranking. apply length_full_ranking.
  - intros r Hr. rewrite getPriorityDistribution_ranking.
    by apply elem_of_names_full.
  - intros e He. rewrite getPriorityDistribution_ranking in He.
    apply elem_of_full_ranking in He as [k [Hk ->]]. cbv zeta.
    split; [|done]. apply recordsOf_nonempty.
    by rewrite elem_of_firstOccurrences in Hk.
Qed.

Lemma full_reducers_group_every_record_witness :
  let data_ := [sampleRecord; sampleRecord] in
  "COAL" ∈ CommodityEntry.name <$> aggregateByCommodity data_ /\
  2 = countOf (recordsOf commodityOf "COAL" data_) /\
  "CR" ∈ ZoneEntry.zone <$> aggregateByZone data_ /\
  2 = countOf (recordsOf zoneOf "CR" data_) /\
  "BSL" ∈ DivisionEntry.division <$> aggregateByDivision data_ /\
  4 = unitsIn (recordsOf divisionOf "BSL" data_) /\
  "ODR_RK_OTSG" ∈ QueryTypeEntry.name <$> getQueryTypeDistribution data_ /\
  2 = countOf (recordsOf queryTypeOf "ODR_RK_OTSG" data_) /\
  "C" ∈ PriorityEntry.name <$> getPriorityDistribution data_ /\
  2 = countOf (recordsOf priorityOf "C" data_).
Proof.
  pose proof (full_reducers_group_every_record [sampleRecord; sampleRecord])
    as ((_ & H1 & H1') & (_ & H2 & H2') & (_ & H3 & H3') & (_ & H4 & H4')
        & (_ & H5 & H5')).
  split; [|split; [|split; [|split; [|split; [|split; [|split; [|split;
    [|split]]]]]]]].
  - apply (H1 sampleRecord). vm_compute. left.
  - apply (H1' (CommodityEntry.mk "COAL" 2 4)). vm_compute. left.
  - apply (H2 sampleRecord). vm_compute. left.
  - apply (H2' (ZoneEntry.mk "CR" 2 4)). vm_compute. left.
  - apply (H3 sampleRecord). vm_compute. left.
  - apply (H3' (DivisionEntry.mk "BSL" 2 4 2)). vm_compute. left.
  - apply (H4 sampleRecord). vm_compute. left.
  - apply (H4' (QueryTypeEntry.mk "ODR_RK_OTSG" 2 4)). vm_compute. left.
  - apply (H5 sampleRecord). vm_compute. left.
  - apply (H5' (PriorityEntry.mk "C" 2)). vm_compute. left.
Defined.

(** X5: the reducers that do not truncate lose and invent nothing: the
    counts of their entries add up to the number of records, and the
    units of their entries to the units of all records. *)
Theorem full_reducers_conserve_totals (data : list CanonicalRecord) :
  (sumZ (CommodityEntry.value <$> aggregateByCommodity data) = countOf data /\
   sumZ (CommodityEntry.units <$> aggregateByCommodity data) = unitsIn data) /\
  (sumZ (ZoneEntry.orders <$> aggregateByZone data) = countOf data /\
   sumZ (ZoneEntry.units <$> aggregateByZone data) = unitsIn data) /\
  (sumZ (DivisionEntry.orders <$> aggregateByDivision data) = countOf data /\
   sumZ (DivisionEntry.totalUnits <$> aggregateByDivision data)
   = unitsIn data) /\
  (sumZ (QueryTypeEntry.count <$> getQueryTypeDistribution data)
   = countOf data /\
   sumZ (QueryTypeEntry.units <$> getQueryTypeDistribution data)
   = unitsIn data) /\
  sumZ (PriorityEntry.count <$> getPriorityDistribution data) = countOf data.
Proof.
  split_and!.
  - rewrite aggregateByCommodity_ranking, sumZ_sort, <- list_fmap_compose.
    apply groups_count.
  - rewrite aggregateByCommodity_ranking, sumZ_sort, <- list_fmap_compose.
    apply groups_units.
  - rewrite aggregateByZone_ranking, sumZ_sort, <- list_fmap_compose.
    apply groups_count.
  - rewrite aggregateByZone_ranking, sumZ_sort, <- list_fmap_compose.
    apply groups_units.
  - rewrite aggregateByDivision_ranking, sumZ_sort, <- list_fmap_compose.
    apply groups_count.
  - rewrite aggregateByDivision_ranking, sumZ_sort, <- list_fmap_compose.
    apply groups_units.
  - rewrite getQueryTypeDistribution_ranking, sumZ_sort, <- list_fmap_compose.
    apply groups_count.
  - rewrite getQueryTypeDistribution_ranking, sumZ_sort, <- list_fmap_compose.
    apply groups_units.
  - rewrite getPriorityDistribution_ranking, sumZ_sort, <- list_fmap_compose.
    apply groups_count.
Qed.

(** X6: what a reducer that does not truncate returns is ranked: the
    entries are in descending order of their count (of records), no two
    entries have the same key, and entries of equal count stand in the
    order in which the data first shows their keys. *)
Theorem full_reducers_are_ranked (data : list CanonicalRecord) :
  rankedGroups CommodityEntry.name CommodityEntry.value
    (firstOccurrences (commodityOf <$> data)) (aggregateByCommodity data) /\
  rankedGroups ZoneEntry.zone ZoneEntry.orders
    (firstOccurrences (zoneOf <$> data)) (aggregateByZone data) /\
  rankedGroups DivisionEntry.division DivisionEntry.orders
    (firstOccurrences (divisionOf <$> data)) (aggregateByDivision data) /\
  rankedGroups QueryTypeEntry.name QueryTypeEntry.count
    (firstOccurrences (queryTypeOf <$> data))
    (getQueryTypeDistribution data) /\
  rankedGroups PriorityEntry.name PriorityEntry.count
    (firstOccurrences (priorityOf <$> data)) (getPriorityDistribution data).
Proof.
  split_and!.
  - rewrite aggregateByCommodity_ranking.
    rewrite <- (list_fmap_id (firstOccurrences (commodityOf <$> data))) at 1.
    apply full_ranking_rankedGroups; [done|].
    rewrite list_fmap_id. apply NoDup_firstOccurrences.
  - rewrite aggregateByZone_ranking.
    rewrite <- (list_fmap_id (firstOccurrences (zoneOf <$> data))) at 1.
    apply full_ranking_rankedGroups; [done|].
    rewrite list_fmap_id. apply NoDup_firstOccurrences.
  - rewrite aggregateByDivision_ranking.
    rewrite <- (list_fmap_id (firstOccurrences (divisionOf <$> data))) at 1.
    apply full_ranking_rankedGroups; [done|].
    rewrite list_fmap_id. apply NoDup_firstOccurrences.
  - rewrite getQueryTypeDistribution_ranking.
    rewrite <- (list_fmap_id (firstOccurrences (queryTypeOf <$> data))) at 1.
    apply full_ranking_rankedGroups; [done|].
    rewrite list_fmap_id. apply NoDup_firstOccurrences.
  - rewrite getPriorityDistribution_ranking.
    rewrite <- (list_fmap_id (firstOccurrences (priorityOf <$> data))) at 1.
    apply full_ranking_rankedGroups; [done|].
    rewrite list_fmap_id. apply NoDup_firstOccurrences.
Qed.

Lemma countOf_pos (rs : list CanonicalRecord) : rs <> [] -> 0 < countOf rs.
Proof. unfold countOf. destruct rs; [done|]. cbn [length]. lia. Qed.

Lemma round_quotient_bounds a b :
  0 < b ->
  2 * a - b < 2 * round_quotient a b * b <= 2 * a + b.
Proof.
  intros Hb. unfold round_quotient.
  pose proof (Z.mul_div_le (2 * a + b) (2 * b) ltac:(lia)).
  pose proof (Z.mul_succ_div_gt (2 * a + b) (2 * b) ltac:(lia)).
  nia.
Qed.

(** X7: every entry of [aggregateByDivision] has at least one order, so
    its average is never the 0 of the guard against a division by zero:
    it is the integer nearest to total units / orders, the larger one of
    two that are equally near. *)
Theorem aggregateByDivision_average (data : list CanonicalRecord)
    (e : DivisionEntry.t) :
  e ∈ aggregateByDivision data ->
  1 <= DivisionEntry.orders e /\
  DivisionEntry.avgUnits e
  = round_quotient (DivisionEntry.totalUnits e) (DivisionEntry.orders e) /\
  2 * DivisionEntry.totalUnits e - DivisionEntry.orders e
  < 2 * DivisionEntry.avgUnits e * DivisionEntry.orders e
  <= 2 * DivisionEntry.totalUnits e + DivisionEntry.orders e.
Proof.
  intros He. rewrite aggregateByDivision_ranking in He.
  apply elem_of_full_ranking in He as [k [Hk ->]].
  rewrite elem_of_firstOccurrences in Hk.
  pose proof (countOf_pos _ (recordsOf_nonempty divisionOf k data Hk)) as Hpos.
  cbn [withAverage DivisionEntry.orders DivisionEntry.totalUnits
       DivisionEntry.avgUnits DivisionEntry.division].
  rewrite (proj2 (Z.ltb_lt _ _) Hpos).
  split; [lia|]. split; [done|]. by apply round_quotient_bounds.
Qed.

Lemma aggregateByDivision_average_witness :
  let e := DivisionEntry.mk "BSL" 2 4 2 in
  1 <= DivisionEntry.orders e /\
  DivisionEntry.avgUnits e
  = round_quotient (DivisionEntry.totalUnits e) (DivisionEntry.orders e) /\
  2 * DivisionEntry.totalUnits e - DivisionEntry.orders e
  < 2 * DivisionEntry.avgUnits e * DivisionEntry.orders e
  <= 2 * DivisionEntry.totalUnits e + DivisionEntry.orders e.
Proof.
  apply (aggregateByDivision_average [sampleRecord; sampleRecord]).
  vm_compute. left.
Defined.

(** *** The months *)

(** The key [year-month] determines the year and the month. *)
Lemma pretty_N_char_dashfree x s :
  dashfree s = true -> dashfree (String (pretty_N_char x) s) = true.
Proof.
  intros Hs. cbn. rewrite Hs, andb_true_r.
  unfold pretty_N_char. by repeat case_match.
Qed.

Lemma pretty_N_go_dashfree x s :
  dashfree s = true -> dashfree (pretty_N_go x s) = true.
Proof.
  revert s. induction (N.lt_wf_0 x) as [x _ IH]; intros s Hs.
  assert (x = 0 \/ 0 < x)%N as [->|?] by lia.
  - by rewrite pretty_N_go_0.
  - rewrite pretty_N_go_step by done. apply IH.
    + by apply N.div_lt.
    + by apply pretty_N_char_dashfree.
Qed.

Lemma pretty_N_go_nonempty x s : s <> "" -> pretty_N_go x s <> "".
Proof.
  revert s. induction (N.lt_wf_0 x) as [x _ IH]; intros s Hs.
  assert (x = 0 \/ 0 < x)%N as [->|?] by lia.
  - by rewrite pretty_N_go_0.
  - rewrite pretty_N_go_step by done. apply IH; [by apply N.div_lt|done].
Qed.

Lemma pretty_positive_dashfree (p : positive) :
  dashfree (pretty p) = true /\ pretty p <> "".
Proof.
  unfold pretty, pretty_positive, pretty, pretty_N.
  rewrite decide_False by done. split.
  - by apply pretty_N_go_dashfree.
  - rewrite pretty_N_go_step by lia. by apply pretty_N_go_nonempty.
Qed.

Lemma number_text_signed n : signed (number_text n).
Proof.
  destruct n as [|[|p|p]]; cbn.
  - by exists "NaN"; split_and!; [..|left].
  - by exists "0"; split_and!; [..|left].
  - destruct (pretty_positive_dashfree p) as [H1 H2].
    exists (pretty p). split_and!; [done..|by left].
  - destruct (pretty_positive_dashfree p) as [H1 H2].
    exists (pretty p). split_and!; [done..|by right].
Qed.

Lemma nullable_text_signed v : signed (nullable_text v).
Proof.
  destruct v as [n|]; [apply number_text_signed|].
  by exists "null"; split_and!; [..|left].
Qed.

Lemma dashfree_split b1 b2 r1 r2 :
  dashfree b1 = true -> dashfree b2 = true ->
  b1 +:+ String "-" r1 = b2 +:+ String "-" r2 -> b1 = b2 /\ r1 = r2.
Proof.
  revert b2. induction b1 as [|c b1 IH]; intros [|c2 b2]; cbn.
  - intros _ _ [= ->]. done.
  - intros _ H [= <- _]. done.
  - intros H _ [= -> _]. done.
  - intros [_ H1]%andb_true_iff [_ H2]%andb_true_iff [= -> E].
    destruct (IH b2 H1 H2 E) as [-> ->]. done.
Qed.

Lemma signed_split y1 y2 m1 m2 :
  signed y1 -> signed y2 ->
  y1 +:+ "-" +:+ m1 = y2 +:+ "-" +:+ m2 -> y1 = y2 /\ m1 = m2.
Proof.
  intros (b1 & Hb1 & Hn1 & [->| ->]) (b2 & Hb2 & Hn2 & [->| ->]) E.
  - by apply dashfree_split.
  - destruct b1 as [|c b1]; [done|]. cbn in E, Hb1.
    injection E as -> _. done.
  - destruct b2 as [|c b2]; [done|]. cbn in E, Hb2.
    injection E as <- _. done.
  - cbn in E. injection E as E.
    destruct (dashfree_split _ _ _ _ Hb1 Hb2 E) as [-> ->]. done.
Qed.

Lemma pretty_Z_head (z : Z) :
  exists c r, pretty z = String c r /\
    (c = "-"%char \/ exists x, c = pretty_N_char x).
Proof.
  assert (Hgo : forall x s c r, s = String c r ->
            (c = "-"%char \/ exists x, c = pretty_N_char x) ->
            exists c' r', pretty_N_go x s = String c' r' /\
              (c' = "-"%char \/ exists x, c' = pretty_N_char x)).
  { intros x. induction (N.lt_wf_0 x) as [x _ IH]; intros s c r Hs Hc.
    assert (x = 0 \/ 0 < x)%N as [->|?] by lia.
    - rewrite pretty_N_go_0. eauto.
    - rewrite pretty_N_go_step by done.
      eapply IH; [by apply N.div_lt|done|]. right. eauto. }
  destruct z as [|p|p].
  - exists "0"%char, "". split; [done|]. right. by exists 0%N.
  - unfold pretty, pretty_Z, pretty, pretty_positive, pretty, pretty_N.
    rewrite decide_False by done. rewrite pretty_N_go_step by lia.
    eapply Hgo; [done|]. right. eauto.
  - exists "-"%char, (pretty p). split; [done|]. by left.
Qed.

Lemma number_text_inj n1 n2 : number_text n1 = number_text n2 -> n1 = n2.
Proof.
  destruct n1 as [|z1], n2 as [|z2]; cbn; [done|..].
  - intros E. destruct (pretty_Z_head z2) as (c & r & Hz & Hc).
    rewrite Hz in E. injection E as <- _.
    destruct Hc as [?|[x Hx]]; [done|].
    unfold pretty_N_char in Hx. by repeat case_match.
  - intros E. destruct (pretty_Z_head z1) as (c & r & Hz & Hc).
    rewrite Hz in E. injection E as -> _.
    destruct Hc as [?|[x Hx]]; [done|].
    unfold pretty_N_char in Hx. by repeat case_match.
  - intros E. f_equal. by apply (inj pretty).
Qed.

Lemma nullable_text_inj v1 v2 : nullable_text v1 = nullable_text v2 -> v1 = v2.
Proof.
  destruct v1 as [n1|], v2 as [n2|]; cbn; [| | |done].
  - intros E. f_equal. by apply number_text_inj.
  - destruct n1 as [|z1]; cbn; [done|].
    intros E. destruct (pretty_Z_head z1) as (c & r & Hz & Hc).
    rewrite Hz in E. injection E as -> _.
    destruct Hc as [?|[x Hx]]; [done|].
    unfold pretty_N_char in Hx. by repeat case_match.
  - destruct n2 as [|z2]; cbn; [done|].
    intros E. destruct (pretty_Z_head z2) as (c & r & Hz & Hc).
    rewrite Hz in E. injection E as <- _.
    destruct Hc as [?|[x Hx]]; [done|].
    unfold pretty_N_char in Hx. by repeat case_match.
Qed.

Lemma monthKeyOf_inj r1 r2 :
  monthKeyOf r1 = monthKeyOf r2 <->
  year r1 = year r2 /\ monthOf r1 = monthOf r2.
Proof.
  unfold monthKeyOf. split.
  - intros E. apply signed_split in E as [Ey Em];
      [|apply nullable_text_signed..].
    split; [by apply nullable_text_inj|by apply number_text_inj].
  - by intros [-> ->].
Qed.

Lemma foldl_MonthEntry a b c d e rs :
  foldl (fun en r => MonthEntry.mk (MonthEntry.month en) (MonthEntry.year en)
                       (MonthEntry.monthNum en) (MonthEntry.demands en + 1)
                       (MonthEntry.units en + unitsOf r))
    (MonthEntry.mk a b c d e) rs
  = MonthEntry.mk a b c (d + countOf rs) (e + unitsIn rs).
Proof.
  induction rs as [|r rs IH] using rev_ind.
  - cbn. f_equal; unfold countOf, unitsIn; cbn; lia.
  - rewrite foldl_app, IH, countOf_snoc, unitsIn_snoc. cbn. f_equal; lia.
Qed.

(** A record without a month leaves the map as it is. *)
Lemma foldl_monthStep_dated (data : list CanonicalRecord) m :
  foldl monthStep m data = foldl monthStep m (filter hasMonth data).
Proof.
  revert m. induction data as [|r data IH]; intros m; [done|].
  rewrite filter_cons. destruct (decide (hasMonth r)) as [H|H]; cbn [foldl].
  - apply IH.
  - rewrite <- IH. f_equal. unfold monthStep, hasMonth in *.
    destruct (month r); [by destruct H|done].
Qed.

Lemma monthStep_groupStep m r :
  hasMonth r ->
  monthStep m r
  = groupStep monthKeyOf
      (fun r => MonthEntry.mk (monthName (monthOf r)) (year r) (monthOf r) 0 0)
      (fun en r => MonthEntry.mk (MonthEntry.month en) (MonthEntry.year en)
                     (MonthEntry.monthNum en) (MonthEntry.demands en + 1)
                     (MonthEntry.units en + unitsOf r)) m r.
Proof.
  unfold hasMonth, monthStep, groupStep, monthKeyOf, monthOf.
  by destruct (month r).
Qed.

Lemma foldl_ext_Forall {A B} (f g : A -> B -> A) (P : B -> Prop) l m :
  Forall P l -> (forall m x, P x -> f m x = g m x) ->
  foldl f m l = foldl g m l.
Proof.
  intros Hl Hfg. revert m. induction Hl as [|x l Hx Hl IH]; intros m; [done|].
  cbn. rewrite Hfg by done. apply IH.
Qed.

(** The records of a month key are those of its year and month. *)
Lemma filter_monthKeyOf (data : list CanonicalRecord) r0 :
  hasMonth r0 ->
  filter (fun r => monthKeyOf r = monthKeyOf r0) (filter hasMonth data)
  = filter (inMonth (year r0) (monthOf r0)) data.
Proof.
  intros H0. induction data as [|r data IH]; [done|].
  rewrite (filter_cons hasMonth), (filter_cons (inMonth _ _)).
  destruct (decide (hasMonth r)) as [H|H].
  - rewrite filter_cons, IH.
    destruct (decide (monthKeyOf r = monthKeyOf r0)) as [E|E].
    + rewrite decide_True; [done|].
      apply monthKeyOf_inj in E as [Ey Em]. split; [done|].
      unfold hasMonth, monthOf in *. destruct (month r); [|done].
      cbn in Em. by rewrite Em.
    + rewrite decide_False; [done|]. intros [Ey Em]. apply E.
      apply monthKeyOf_inj. split; [done|]. unfold monthOf at 1.
      by rewrite Em.
  - rewrite IH, decide_False; [done|]. intros [_ Em].
    apply H. unfold hasMonth. by rewrite Em.
Qed.

Lemma aggregateByMonth_ranking data :
  aggregateByMonth data
  = sort (fun a b => sortCompare (compareMonths a b))
      ((fun r0 =>
          MonthEntry.mk (monthName (monthOf r0)) (year r0) (monthOf r0)
            (countOf (filter (inMonth (year r0) (monthOf r0)) data))
            (unitsIn (filter (inMonth (year r0) (monthOf r0)) data)))
         <$> firstRecords monthKeyOf (filter hasMonth data)).
Proof.
  unfold aggregateByMonth. f_equal.
  rewrite foldl_monthStep_dated.
  rewrite (foldl_ext_Forall monthStep
    (groupStep monthKeyOf
       (fun r => MonthEntry.mk (monthName (monthOf r)) (year r) (monthOf r) 0 0)
       (fun en r => MonthEntry.mk (MonthEntry.month en) (MonthEntry.year en)
                      (MonthEntry.monthNum en) (MonthEntry.demands en + 1)
                      (MonthEntry.units en + unitsOf r))) hasMonth);
    [|by apply Forall_forall; intros r [? _]%list_elem_of_filter
     |by intros; apply monthStep_groupStep].
  rewrite foldl_groupStep, map_values_grouped.
  apply list_fmap_ext. intros i r0 Hi. cbn beta.
  rewrite foldl_MonthEntry.
  assert (H0 : hasMonth r0).
  { apply list_elem_of_lookup_2, elem_of_firstRecords in Hi.
    by apply list_elem_of_filter in Hi as [? _]. }
  rewrite filter_monthKeyOf by done. done.
Qed.

Lemma elem_of_aggregateByMonth data e :
  e ∈ aggregateByMonth data <->
  exists r0, r0 ∈ firstRecords monthKeyOf (filter hasMonth data) /\
    e = MonthEntry.mk (monthName (monthOf r0)) (year r0) (monthOf r0)
          (countOf (filter (inMonth (year r0) (monthOf r0)) data))
          (unitsIn (filter (inMonth (year r0) (monthOf r0)) data)).
Proof.
  rewrite aggregateByMonth_ranking, elem_of_sort, list_elem_of_fmap.
  split; intros [r0 [H1 H2]]; eauto.
Qed.

Lemma firstRecords_dated (data : list CanonicalRecord) r0 :
  r0 ∈ firstRecords monthKeyOf (filter hasMonth data) ->
  r0 ∈ data /\ month r0 = Some (monthOf r0).
Proof.
  intros [Hin H]%elem_of_firstRecords%list_elem_of_filter. split; [done|].
  unfold hasMonth, monthOf in *. by destruct (month r0).
Qed.

Lemma aggregateByMonth_NoDup data :
  NoDup ((fun e => (MonthEntry.year e, MonthEntry.monthNum e))
           <$> aggregateByMonth data).
Proof.
  rewrite aggregateByMonth_ranking, sort_Permutation, <- list_fmap_compose.
  apply (NoDup_fmap_1
    (fun p : option number * number =>
       nullable_text p.1 +:+ "-" +:+ number_text p.2)).
  rewrite <- list_fmap_compose.
  rewrite (list_fmap_ext _ monthKeyOf); [|done].
  rewrite fmap_firstRecords. apply NoDup_firstOccurrences.
Qed.

(** X8: [aggregateByMonth] leaves out the records without a date and
    returns one entry for each year and month of the others.  An entry
    carries the number of the records of its year and month and the sum
    of their units, and the name of its month, which is [undefined] when
    the month is not one of 0 to 11; a record whose date the engine could
    not parse (its month is [NaN]) is counted, under an entry without a
    month name. *)
Theorem aggregateByMonth_entries (data : list CanonicalRecord) :
  (forall e, e ∈ aggregateByMonth data ->
     let rs := filter (inMonth (MonthEntry.year e) (MonthEntry.monthNum e))
                 data in
     rs <> [] /\ MonthEntry.month e = monthName (MonthEntry.monthNum e) /\
     MonthEntry.demands e = countOf rs /\ MonthEntry.units e = unitsIn rs) /\
  (forall r m, r ∈ data -> month r = Some m ->
     exists e, e ∈ aggregateByMonth data /\
       MonthEntry.year e = year r /\ MonthEntry.monthNum e = m) /\
  NoDup ((fun e => (MonthEntry.year e, MonthEntry.monthNum e))
           <$> aggregateByMonth data) /\
  sumZ (MonthEntry.demands <$> aggregateByMonth data)
  = countOf (filter hasMonth data) /\
  (forall r, r ∈ data -> month r = Some NaN ->
     exists e, e ∈ aggregateByMonth data /\ MonthEntry.month e = None /\
       MonthEntry.monthNum e = NaN).
Proof.
  assert (Hall : forall r m, r ∈ data -> month r = Some m ->
     exists e, e ∈ aggregateByMonth data /\
       MonthEntry.year e = year r /\ MonthEntry.monthNum e = m /\
       MonthEntry.month e = monthName m).
  { intros r m Hr Hm.
    assert (Hk : monthKeyOf r
                 ∈ monthKeyOf <$> firstRecords monthKeyOf (filter hasMonth data)).
    { rewrite fmap_firstRecords. apply elem_of_firstOccurrences.
      apply list_elem_of_fmap_2, list_elem_of_filter. split; [|done].
      unfold hasMonth. by rewrite Hm. }
    apply list_elem_of_fmap in Hk as [r0 [Hk Hr0]].
    apply monthKeyOf_inj in Hk as [Hy Hmo].
    eexists. split; [apply elem_of_aggregateByMonth; eauto|]. cbn.
    unfold monthOf in Hmo at 1. rewrite Hm in Hmo. cbn in Hmo.
    by rewrite <- Hy, <- Hmo. }
  split_and!.
  - intros e [r0 [Hr0 ->]]%elem_of_aggregateByMonth. cbv zeta. cbn.
    split; [|done].
    destruct (firstRecords_dated _ _ Hr0) as [Hin Hm]. intros Hnil.
    assert (H : r0 ∈ filter (inMonth (year r0) (monthOf r0)) data)
      by (by apply list_elem_of_filter).
    rewrite Hnil in H. by apply elem_of_nil in H.
  - intros r m Hr Hm. destruct (Hall r m Hr Hm) as (e & ? & ? & ? & ?). eauto.
  - apply aggregateByMonth_NoDup.
  - rewrite aggregateByMonth_ranking, sumZ_sort, <- list_fmap_compose.
    rewrite (list_fmap_ext _
      ((fun k => countOf (recordsOf monthKeyOf k (filter hasMonth data)))
         ∘ monthKeyOf)).
    + rewrite list_fmap_compose, fmap_firstRecords. apply groups_count.
    + intros i r0 Hi. cbn. unfold recordsOf.
      rewrite filter_monthKeyOf; [done|].
      apply list_elem_of_lookup_2, elem_of_firstRecords in Hi.
      by apply list_elem_of_filter in Hi as [? _].
  - intros r Hr Hm. destruct (Hall r NaN Hr Hm) as (e & ? & ? & ? & ?). eauto.
Qed.

Lemma aggregateByMonth_entries_witness :
  let data_ := [sampleRecord; misdatedRecord; undatedRecord] in
  let e := MonthEntry.mk (Some "Mar") (Some (Int 2024)) (Int 2) 1 2 in
  (MonthEntry.demands e
   = countOf (filter (inMonth (MonthEntry.year e) (MonthEntry.monthNum e))
                data_)) /\
  (exists e', e' ∈ aggregateByMonth data_ /\ MonthEntry.month e' = None /\
     MonthEntry.monthNum e' = NaN).
Proof.
  pose proof (aggregateByMonth_entries
                [sampleRecord; misdatedRecord; undatedRecord])
    as (H1 & _ & _ & _ & H5).
  split.
  - apply (H1 (MonthEntry.mk (Some "Mar") (Some (Int 2024)) (Int 2) 1 2)).
    vm_compute. left.
  - apply (H5 misdatedRecord); [|reflexivity].
    vm_compute. right. left.
Defined.

Lemma compareMonths_valid a b ya ma yb mb :
  MonthEntry.year a = Some (Int ya) -> MonthEntry.monthNum a = Int ma ->
  MonthEntry.year b = Some (Int yb) -> MonthEntry.monthNum b = Int mb ->
  sortCompare (compareMonths a b) = if ya =? yb then ma - mb else ya - yb.
Proof.
  intros Hya Hma Hyb Hmb. unfold compareMonths.
  rewrite Hya, Hma, Hyb, Hmb. cbn. by destruct (ya =? yb).
Qed.

(** X9: when every record has no date or a date the engine could parse,
    [aggregateByMonth] returns its entries in the order of the calendar:
    by year, and by month within a year, no two for the same month. *)
Theorem aggregateByMonth_chronological (data : list CanonicalRecord) :
  Forall wellDated data -> chronological (aggregateByMonth data).
Proof.
  intros Hwell.
  set (P := fun e : MonthEntry.t =>
              exists y m, MonthEntry.year e = Some (Int y) /\
                          MonthEntry.monthNum e = Int m).
  assert (HP : forall e, e ∈ aggregateByMonth data -> P e).
  { intros e [r0 [Hr0 ->]]%elem_of_aggregateByMonth.
    destruct (firstRecords_dated _ _ Hr0) as [Hin Hm].
    rewrite Forall_forall in Hwell.
    destruct (Hwell r0 Hin) as [Hnone|(y & m & Hy & Hmo)]; [congruence|].
    exists y, m. cbn. split; [done|]. congruence. }
  pose proof (aggregateByMonth_NoDup data) as Hnd.
  rewrite aggregateByMonth_ranking in HP, Hnd |- *.
  set (entries := _ <$> firstRecords monthKeyOf (filter hasMonth data)) in *.
  assert (Hs : StronglySorted
                 (fun a b => sortCompare (compareMonths a b) <= 0)
                 (sort (fun a b => sortCompare (compareMonths a b)) entries)).
  { apply (sort_sorted _ P).
    - intros x y (yx & mx & Hyx & Hmx) (yy & my & Hyy & Hmy).
      rewrite (compareMonths_valid x y yx mx yy my) by done.
      rewrite (compareMonths_valid y x yy my yx mx) by done.
      rewrite (Z.eqb_sym yy yx). destruct (yx =? yy) eqn:E; lia.
    - intros x y z (yx & mx & Hyx & Hmx) (yy & my & Hyy & Hmy)
        (yz & mz & Hyz & Hmz).
      rewrite (compareMonths_valid x y yx mx yy my) by done.
      rewrite (compareMonths_valid y z yy my yz mz) by done.
      rewrite (compareMonths_valid x z yx mx yz mz) by done.
      destruct (yx =? yy) eqn:E1, (yy =? yz) eqn:E2, (yx =? yz) eqn:E3; lia.
    - apply Forall_forall. intros e He. apply HP. by apply elem_of_sort. }
  intros i j a b Hij Hi Hj.
  destruct (HP a (list_elem_of_lookup_2 _ _ _ Hi)) as (ya & ma & Hya & Hma).
  destruct (HP b (list_elem_of_lookup_2 _ _ _ Hj)) as (yb & mb & Hyb & Hmb).
  exists ya, ma, yb, mb. split_and!; try done.
  pose proof (StronglySorted_lookup _ _ _ _ _ _ Hs Hij Hi Hj) as Hc.
  cbn beta in Hc.
  rewrite (compareMonths_valid a b ya ma yb mb) in Hc by done.
  assert (Hne : ~ (ya = yb /\ ma = mb)).
  { intros [-> ->].
    assert (i = j); [|lia].
    eapply (NoDup_lookup _ i j (Some (Int yb), Int mb) Hnd).
    - by rewrite list_lookup_fmap, Hi; cbn; rewrite Hya, Hma.
    - by rewrite list_lookup_fmap, Hj; cbn; rewrite Hyb, Hmb. }
  destruct (ya =? yb) eqn:E; lia.
Qed.

Lemma aggregateByMonth_chronological_witness :
  chronological
    (aggregateByMonth [recordOn "2024-03-15"; undatedRecord;
                       recordOn "2023-11-02"; recordOn "2024-01-20"]).
Proof.
  apply aggregateByMonth_chronological.
  apply Forall_cons_2; [right; by exists 2024, 2|].
  apply Forall_cons_2; [by left|].
  apply Forall_cons_2; [right; by exists 2023, 10|].
  apply Forall_cons_2; [right; by exists 2024, 0|].
  constructor.
Defined.

Example aggregateByMonth_sample :
  (fun e => (MonthEntry.month e, MonthEntry.year e, MonthEntry.demands e))
    <$> aggregateByMonth [recordOn "2024-03-15"; undatedRecord;
                          recordOn "2023-11-02"; recordOn "2024-01-20";
                          recordOn "2024-03-01"]
  = [(Some "Nov", Some (Int 2023), 1); (Some "Jan", Some (Int 2024), 1);
     (Some "Mar", Some (Int 2024), 2)].
Proof. reflexivity. Qed.

(** *** The summary *)

Lemma foldl_units data z :
  foldl (fun sum record => sum + unitsOf record) z data = z + unitsIn data.
Proof.
  revert z. induction data as [|r data IH]; intros z.
  - unfold unitsIn, sumZ. cbn. lia.
  - cbn [foldl]. rewrite IH. unfold unitsIn, sumZ. rewrite fmap_cons.
    cbn [foldr]. lia.
Qed.

Lemma set_size_le {A} `{EqDecision A} (l : list A) :
  (set_size l <= length l)%nat.
Proof.
  unfold set_size. apply submseteq_length, NoDup_submseteq.
  - apply NoDup_remove_dups.
  - intros x. by rewrite elem_of_remove_dups.
Qed.

Lemma set_size_fmap {A B} `{EqDecision A, EqDecision B} (f : A -> B)
    (l : list A) :
  (set_size (f <$> l) <= set_size l)%nat.
Proof.
  unfold set_size. rewrite <- (length_fmap f (remove_dups l)).
  apply submseteq_length, NoDup_submseteq.
  - apply NoDup_remove_dups.
  - intros y. rewrite elem_of_remove_dups.
    intros [x [-> Hx]]%list_elem_of_fmap.
    apply list_elem_of_fmap_2. by rewrite elem_of_remove_dups.
Qed.

(** X10: the totals of [calculateSummaryStats] are the totals of the
    charts: the number of orders is the sum of the orders of the zones and
    of the divisions and of the counts of the commodities, and the units
    are the sum of the units of the zones, of the divisions and of the
    commodities. *)
Theorem summary_totals_match_aggregates (data : list CanonicalRecord) :
  let stats := calculateSummaryStats data in
  Z.of_nat (totalOrders stats) = sumZ (ZoneEntry.orders <$> aggregateByZone data) /\
  Z.of_nat (totalOrders stats)
  = sumZ (DivisionEntry.orders <$> aggregateByDivision data) /\
  Z.of_nat (totalOrders stats)
  = sumZ (CommodityEntry.value <$> aggregateByCommodity data) /\
  totalUnits stats = sumZ (ZoneEntry.units <$> aggregateByZone data) /\
  totalUnits stats
  = sumZ (DivisionEntry.totalUnits <$> aggregateByDivision data) /\
  totalUnits stats = sumZ (CommodityEntry.units <$> aggregateByCommodity data).
Proof.
  cbv zeta. cbn [calculateSummaryStats totalOrders totalUnits].
  rewrite foldl_units, Z.add_0_l.
  rewrite aggregateByZone_ranking, aggregateByDivision_ranking,
    aggregateByCommodity_ranking, !sumZ_sort, <- !list_fmap_compose.
  change (Z.of_nat (length data)) with (countOf data).
  split_and!; symmetry;
    first [apply groups_count | apply groups_units].
Qed.

(** X11: the numbers of different values that [calculateSummaryStats]
    reports are at most the number of orders; they count a missing, a
    [null] and an empty field as different values, so each is at least
    the number of entries of the chart of the same field, which puts all
    of these under ["Unknown"]; on no records every number is 0. *)
Theorem summary_unique_counts (data : list CanonicalRecord) :
  let stats := calculateSummaryStats data in
  (uniqueConsignors stats <= totalOrders stats /\
   uniqueConsignees stats <= totalOrders stats /\
   uniqueDestinations stats <= totalOrders stats /\
   uniqueCommodities stats <= totalOrders stats /\
   uniqueDivisions stats <= totalOrders stats /\
   uniqueZones stats <= totalOrders stats)%nat /\
  (length (aggregateByCommodity data) <= uniqueCommodities stats /\
   length (aggregateByDivision data) <= uniqueDivisions stats /\
   length (aggregateByZone data) <= uniqueZones stats /\
   length (getTopConsignors data (Some (countOf data)))
   <= uniqueConsignors stats /\
   length (getConsigneeAnalysis data (Some (countOf data)))
   <= uniqueConsignees stats /\
   length (getTopDestinations data (Some (countOf data)))
   <= uniqueDestinations stats)%nat /\
  calculateSummaryStats []
  = {| totalOrders := 0; totalUnits := 0; uniqueConsignors := 0;
       uniqueConsignees := 0; uniqueDestinations := 0;
       uniqueCommodities := 0; uniqueDivisions := 0; uniqueZones := 0 |}.
Proof.
  cbv zeta.
  cbn [calculateSummaryStats totalOrders uniqueConsignors uniqueConsignees
       uniqueDestinations uniqueCommodities uniqueDivisions uniqueZones].
  assert (Hle : forall {A} `{EqDecision A} (f : CanonicalRecord -> A),
            (set_size (f <$> data) <= length data)%nat).
  { intros A ? f. etransitivity; [apply set_size_le|]. by rewrite length_fmap. }
  assert (Hkept : forall n : nat, kept (countOf data) n = Nat.min (length data) n).
  { intros n. unfold kept, countOf.
    rewrite (proj2 (Z.ltb_ge _ _)) by lia. by rewrite Nat2Z.id. }
  split; [split_and!; apply Hle|]. split; [|reflexivity].
  split_and!.
  - rewrite aggregateByCommodity_ranking, length_full_ranking.
    unfold commodityOf.
    rewrite (list_fmap_compose
               (fun r => Js.or (cmdt (row r)) (rakecmdt (row r)))
               (fun v => or_text v "Unknown")).
    apply set_size_fmap.
  - rewrite aggregateByDivision_ranking, length_full_ranking.
    unfold divisionOf.
    rewrite (list_fmap_compose (fun r => dvsn (row r))
               (fun v => or_text v "Unknown")).
    apply set_size_fmap.
  - rewrite aggregateByZone_ranking, length_full_ranking.
    unfold zoneOf.
    rewrite (list_fmap_compose zone (fun v => or_text (Str v) "Unknown")).
    apply set_size_fmap.
  - rewrite getTopConsignors_ranking, length_ranking.
    rewrite length_firstOccurrences_set_size. cbn [default].
    rewrite Hkept. etransitivity; [apply Nat.le_min_r|].
    unfold consignorOf.
    rewrite (list_fmap_compose (fun r => csnr (row r))
               (fun v => or_text v "Unknown")).
    apply set_size_fmap.
  - rewrite getConsigneeAnalysis_ranking, length_ranking.
    rewrite length_firstOccurrences_set_size. cbn [default].
    rewrite Hkept. etransitivity; [apply Nat.le_min_r|].
    unfold consigneeOf.
    rewrite (list_fmap_compose (fun r => cnsg (row r))
               (fun v => or_text v "Unknown")).
    apply set_size_fmap.
  - rewrite getTopDestinations_ranking, length_ranking.
    rewrite length_firstOccurrences_set_size. cbn [default].
    rewrite Hkept. etransitivity; [apply Nat.le_min_r|].
    unfold destinationOf.
    rewrite (list_fmap_compose (fun r => dstn (row r))
               (fun v => or_text v "Unknown")).
    apply set_size_fmap.
Qed.

(** The summary counts the missing consignee and the empty one apart; the
    chart has one entry for both. *)
Example summary_counts_missing_values_apart :
  let r1 := sampleRecord in
  let r2 := normalize IsoDate.runtime "ODR_RK_OTSG" "CR"
              (with_sttnfrom (Str "") sampleRow) in
  let r3 := normalize IsoDate.runtime "ODR_RK_OTSG" "CR"
              (with_sttnfrom Null sampleRow) in
  set_size ((fun r => sttnfrom (row r)) <$> [r1; r2; r3]) = 3%nat /\
  set_size (originOf <$> [r1; r2; r3]) = 2%nat.
Proof. split; reflexivity. Qed.

(** *** Filtering by date *)

Lemma filter_bool_comm {A} (p q : A -> bool) l :
  List.filter p (List.filter q l) = List.filter q (List.filter p l).
Proof.
  induction l as [|x l IH]; [done|]. cbn.
  destruct (p x) eqn:Hp, (q x) eqn:Hq; cbn; rewrite ?Hp, ?Hq, IH; done.
Qed.

Lemma filter_bool_idemp {A} (p : A -> bool) l :
  List.filter p (List.filter p l) = List.filter p l.
Proof.
  induction l as [|x l IH]; [done|]. cbn.
  destruct (p x) eqn:Hp; cbn; rewrite ?Hp, IH; done.
Qed.

Lemma filter_bool_ext {A} (p q : A -> bool) l :
  (forall x, x ∈ l -> p x = q x) -> List.filter p l = List.filter q l.
Proof.
  induction l as [|x l IH]; [done|]. intros H. cbn.
  rewrite (H x) by left. rewrite IH; [done|]. intros y Hy. apply H. by right.
Qed.

Lemma elem_of_filter_bool {A} (p : A -> bool) l x :
  x ∈ List.filter p l <-> x ∈ l /\ p x = true.
Proof. rewrite !list_elem_of_In. apply filter_In. Qed.

Lemma filter_bool_sublist {A} (p : A -> bool) l :
  List.filter p l `sublist_of` l.
Proof.
  induction l as [|x l IH]; [done|]. cbn.
  destruct (p x); [by apply sublist_skip|by apply sublist_cons].
Qed.

Lemma date_lt_InvalidDate_r d : date_lt d InvalidDate = false.
Proof. by destruct d. Qed.

(** X12: [filterByDateRange] drops every record without a date, with or
    without bounds, and keeps every record whose date is an Invalid Date,
    whatever the bounds; a bound that is missing, empty or not a date
    does not bound; and a record with a valid date is kept exactly when
    its time lies between the bounds, both included. *)
Theorem filterByDateRange_edges (rt : DateRuntime)
    (data : list CanonicalRecord) (startDate endDate : field) :
  let kept_ := filterByDateRange rt data startDate endDate in
  (forall r, r ∈ kept_ -> r ∈ data /\ demandDateObj r <> None) /\
  (forall r, r ∈ data -> demandDateObj r = Some InvalidDate -> r ∈ kept_) /\
  (truthy startDate = false \/ dateBound rt startDate = Some InvalidDate ->
   kept_ = filterByDateRange rt data Undefined endDate) /\
  (truthy endDate = false \/ dateBound rt endDate = Some InvalidDate ->
   kept_ = filterByDateRange rt data startDate Undefined) /\
  (forall r t s e, r ∈ data -> demandDateObj r = Some (ValidDate t) ->
     dateBound rt startDate = Some (ValidDate s) ->
     dateBound rt endDate = Some (ValidDate e) ->
     (r ∈ kept_ <-> s <= t <= e)).
Proof.
  cbv zeta. unfold filterByDateRange. split_and!.
  - intros r [Hr Hp]%elem_of_filter_bool. split; [done|].
    unfold inDateRange in Hp. by destruct (demandDateObj r).
  - intros r Hr Hd. apply elem_of_filter_bool. split; [done|].
    unfold inDateRange. rewrite Hd.
    by destruct (dateBound rt startDate) as [[|?]|],
                (dateBound rt endDate) as [[|?]|].
  - intros H. apply filter_bool_ext. intros r _. unfold inDateRange.
    destruct (demandDateObj r) as [d|]; [|done].
    assert (Hs : match dateBound rt startDate with
                 | Some s => date_lt d s
                 | None => false
                 end = false).
    { destruct H as [H|H].
      - unfold dateBound, with_date. destruct startDate as [| |s]; try done.
        cbn in H. destruct (String.eqb s ""); [done|]. done.
      - rewrite H. apply date_lt_InvalidDate_r. }
    by rewrite Hs.
  - intros H. apply filter_bool_ext. intros r _. unfold inDateRange.
    destruct (demandDateObj r) as [d|]; [|done].
    assert (He : match dateBound rt endDate with
                 | Some e => date_lt e d
                 | None => false
                 end = false).
    { destruct H as [H|H].
      - unfold dateBound, with_date. destruct endDate as [| |s]; try done.
        cbn in H. destruct (String.eqb s ""); [done|]. done.
      - by rewrite H. }
    by rewrite He.
  - intros r t s e Hr Hd Hs He. rewrite elem_of_filter_bool.
    unfold inDateRange. rewrite Hd, Hs, He. cbn.
    destruct (t <? s) eqn:E1; [apply Z.ltb_lt in E1|apply Z.ltb_ge in E1].
    + split; [by intros [_ ?]|lia].
    + destruct (e <? t) eqn:E2; [apply Z.ltb_lt in E2|apply Z.ltb_ge in E2].
      * split; [by intros [_ ?]|lia].
      * split; [lia|done].
Qed.

Lemma filterByDateRange_edges_witness :
  let data_ := [recordOn "2024-03-15"; misdatedRecord; undatedRecord;
                recordOn "2024-05-01"] in
  misdatedRecord
    ∈ filterByDateRange IsoDate.runtime data_ (Str "2024-03-15")
        (Str "2024-03-31") /\
  filterByDateRange IsoDate.runtime data_ (Str "yesterday") (Str "2024-03-31")
  = filterByDateRange IsoDate.runtime data_ Undefined (Str "2024-03-31") /\
  recordOn "2024-03-15"
    ∈ filterByDateRange IsoDate.runtime data_ (Str "2024-03-15")
        (Str "2024-03-31").
Proof.
  set (data_ := [recordOn "2024-03-15"; misdatedRecord; undatedRecord;
                 recordOn "2024-05-01"]).
  pose proof (filterByDateRange_edges IsoDate.runtime data_
                (Str "2024-03-15") (Str "2024-03-31")) as (_ & H2 & _ & _ & H5).
  pose proof (filterByDateRange_edges IsoDate.runtime data_
                (Str "yesterday") (Str "2024-03-31")) as (_ & _ & H3 & _).
  split; [|split].
  - apply H2; [|reflexivity]. vm_compute. right. left.
  - apply H3. right. reflexivity.
  - apply (H5 (recordOn "2024-03-15") 1710460800000 1710460800000
              1711843200000); [vm_compute; left|reflexivity..|lia].
Defined.

(** X13: date filters compose: filtering by one range and then by
    another gives the same records in the same order as filtering by the
    second and then by the first, and filtering twice by the same range
    is filtering once. *)
Theorem filterByDateRange_composes (rt : DateRuntime)
    (data : list CanonicalRecord) (s1 e1 s2 e2 : field) :
  filterByDateRange rt (filterByDateRange rt data s1 e1) s2 e2
  = filterByDateRange rt (filterByDateRange rt data s2 e2) s1 e1 /\
  filterByDateRange rt (filterByDateRange rt data s1 e1) s1 e1
  = filterByDateRange rt data s1 e1 /\
  filterByDateRange rt (filterByDateRange rt data s1 e1) s2 e2
    `sublist_of` data.
Proof.
  unfold filterByDateRange. split_and!.
  - apply filter_bool_comm.
  - apply filter_bool_idemp.
  - etransitivity; apply filter_bool_sublist.
Qed.

(** *** Chunks *)

Lemma ceil_lt (n len k : nat) :
  (0 < n)%nat -> (k < (len + n - 1) / n <-> k * n < len)%nat.
Proof.
  intros Hn. split.
  - intros Hk.
    assert (H : (n * S k <= len + n - 1)%nat).
    { etransitivity; [apply Nat.mul_le_mono_l, Hk|].
      apply Nat.Div0.mul_div_le. }
    nia.
  - intros Hk. apply (Nat.div_le_lower_bound _ _ (S k)); [lia|]. nia.
Qed.

Lemma slice_chunk {A} (l : list A) (n k : nat) :
  (k * n < length l)%nat ->
  slice l (Z.of_nat (k * n)) (Z.of_nat (k * n) + Z.of_nat n)
  = take n (drop (k * n) l).
Proof.
  intros Hk. unfold slice.
  rewrite (proj2 (Z.ltb_ge _ _)) by lia.
  rewrite (proj2 (Z.ltb_ge _ _)) by lia.
  rewrite (Z.min_l (Z.of_nat (k * n))) by lia. rewrite Nat2Z.id.
  destruct (decide (k * n + n <= length l)%nat) as [H|H].
  - rewrite Z.min_l by lia. f_equal. lia.
  - rewrite Z.min_r by lia.
    rewrite !take_ge; [done|rewrite length_drop; lia..].
Qed.

Lemma chunkArray_loop_chunks {A} (l : list A) (n m k fuel : nat) chunks :
  (0 < n)%nat -> (m <= fuel)%nat ->
  (k + m = (length l + n - 1) / n)%nat ->
  chunkArray_loop fuel l (Z.of_nat n) (Z.of_nat (k * n)) chunks
  = Some (chunks ++ ((fun j => take n (drop (j * n) l)) <$> seq k m)).
Proof.
  intros Hn. revert k fuel chunks.
  induction m as [|m IH]; intros k fuel chunks Hfuel Hk.
  - assert (H : ~ (k * n < length l)%nat).
    { rewrite <- (ceil_lt n) by done. lia. }
    destruct fuel; cbn; rewrite (proj2 (Z.ltb_ge _ _)) by lia;
      by rewrite app_nil_r.
  - assert (H : (k * n < length l)%nat).
    { rewrite <- (ceil_lt n) by done. lia. }
    destruct fuel as [|fuel]; [lia|]. cbn [chunkArray_loop].
    rewrite (proj2 (Z.ltb_lt _ _)) by lia.
    rewrite slice_chunk by done.
    replace (Z.of_nat (k * n) + Z.of_nat n) with (Z.of_nat (S k * n)) by lia.
    rewrite IH by lia. cbn [seq fmap list_fmap].
    by rewrite <- app_assoc.
Qed.

Lemma concat_chunks {A} (size n : nat) (l : list A) :
  (0 < size)%nat -> (length l <= size * n)%nat ->
  concat ((fun j => take size (drop (j * size) l)) <$> seq 0 n) = l.
Proof.
  intros Hs. revert l. induction n as [|n IH]; intros l Hl.
  - destruct l; [done|]. cbn in Hl. lia.
  - cbn [seq]. rewrite fmap_cons. cbn [concat].
    rewrite <- fmap_S_seq, <- list_fmap_compose.
    rewrite (list_fmap_ext _
      (fun j => take size (drop (j * size) (drop size l)))).
    + rewrite IH by (rewrite length_drop; lia). cbn. apply take_drop.
    + intros i j _. cbn. rewrite drop_drop. do 2 f_equal; lia.
Qed.

Lemma chunkArray_chunksOf {A} (array_ : list A) (chunkSize : option Z) :
  0 < default 1000 chunkSize ->
  chunkArray array_ chunkSize
  = Some (chunksOf (Z.to_nat (default 1000 chunkSize)) array_).
Proof.
  intros Hs. unfold chunkArray, chunksOf.
  assert (Hn : (0 < Z.to_nat (default 1000%Z chunkSize))%nat) by lia.
  assert (Hz : default 1000 chunkSize
               = Z.of_nat (Z.to_nat (default 1000 chunkSize))) by lia.
  revert Hn Hz. generalize (Z.to_nat (default 1000 chunkSize)).
  intros n Hn ->.
  rewrite (chunkArray_loop_chunks array_ n ((length array_ + n - 1) / n) 0);
    [done|done| |lia].
  destruct (decide (length array_ = 0)%nat) as [->|Hlen].
  - rewrite Nat.div_small; lia.
  - apply Nat.Div0.div_le_upper_bound. nia.
Qed.

(** X14: with a chunk size above 0 (1000 when none is given),
    [chunkArray] returns, and the chunks it returns are the array cut
    into consecutive pieces: joined they give back the array, none is
    empty, each but the last has exactly the chunk size and the last at
    most, and there are length / size of them, rounded up. *)
Theorem chunkArray_round_trip {A} (array_ : list A) (chunkSize : option Z) :
  0 < default 1000 chunkSize ->
  let size := Z.to_nat (default 1000 chunkSize) in
  exists chunks,
    chunkArray array_ chunkSize = Some chunks /\
    concat chunks = array_ /\
    length chunks = ((length array_ + size - 1) / size)%nat /\
    Forall (fun c => (1 <= length c <= size)%nat) chunks /\
    (forall i c, chunks !! i = Some c -> (S i < length chunks)%nat ->
       length c = size).
Proof.
  intros Hs size. exists (chunksOf size array_).
  assert (Hn : (0 < size)%nat) by (unfold size; lia).
  split; [by apply chunkArray_chunksOf|]. unfold chunksOf.
  split; [|split; [|split]].
  - apply concat_chunks; [done|].
    pose proof (Nat.div_mod_eq (length array_ + size - 1) size).
    pose proof (Nat.mod_upper_bound (length array_ + size - 1) size). lia.
  - by rewrite length_fmap, length_seq.
  - apply Forall_forall. intros c [j [-> Hj]]%list_elem_of_fmap.
    apply elem_of_seq in Hj as [_ Hj]. cbn in Hj.
    apply (ceil_lt size) in Hj; [|done].
    rewrite length_take, length_drop. lia.
  - intros i c Hi Hlen. rewrite length_fmap, length_seq in Hlen.
    rewrite list_lookup_fmap in Hi.
    destruct (seq 0 _ !! i) as [j|] eqn:Ej; [|done].
    apply lookup_seq in Ej as [-> _]. cbn in Hi. injection Hi as <-.
    apply (ceil_lt size) in Hlen; [|done].
    rewrite length_take, length_drop. lia.
Qed.

Lemma chunkArray_round_trip_witness :
  exists chunks,
    chunkArray [1; 2; 3; 4; 5; 6; 7] (Some 3) = Some chunks /\
    concat chunks = [1; 2; 3; 4; 5; 6; 7] /\
    length chunks = 3%nat.
Proof.
  destruct (chunkArray_round_trip [1; 2; 3; 4; 5; 6; 7] (Some 3))
    as (chunks & H1 & H2 & H3 & _); [cbn; lia|].
  exists chunks. split; [exact H1|]. split; [exact H2|exact H3].
Defined.

Example chunkArray_sample :
  chunkArray [1; 2; 3; 4; 5; 6; 7] (Some 3) = Some [[1; 2; 3]; [4; 5; 6]; [7]].
Proof. reflexivity. Qed.

Lemma chunkArray_loop_stuck {A} (array_ : list A) chunkSize fuel i chunks :
  chunkSize <= 0 -> array_ <> [] -> i <= 0 ->
  chunkArray_loop fuel array_ chunkSize i chunks = None.
Proof.
  intros Hs Ha. revert i chunks. induction fuel as [|fuel IH]; intros i chunks Hi.
  - cbn. rewrite (proj2 (Z.ltb_lt _ _)); [done|].
    destruct array_; [done|]. cbn [length]. lia.
  - cbn [chunkArray_loop]. rewrite (proj2 (Z.ltb_lt _ _)).
    + apply IH. lia.
    + destruct array_; [done|]. cbn [length]. lia.
Qed.

(** X15: with a chunk size of 0 or below, [chunkArray] never returns on
    an array that is not empty: the index does not advance past the
    start, and the loop takes round after round.  On the empty array it
    returns no chunks, whatever the chunk size. *)
Theorem chunkArray_never_returns {A} (array_ : list A) (chunkSize : Z) :
  (chunkSize <= 0 -> array_ <> [] ->
   (forall fuel, chunkArray_loop fuel array_ chunkSize 0 [] = None) /\
   chunkArray array_ (Some chunkSize) = None) /\
  chunkArray (@nil A) (Some chunkSize) = Some [].
Proof.
  split; [|done]. intros Hs Ha.
  split; [|unfold chunkArray]; intros; by apply chunkArray_loop_stuck.
Qed.

Lemma chunkArray_never_returns_witness :
  (forall fuel, chunkArray_loop fuel [1; 2; 3] 0 0 [] = None) /\
  chunkArray [1; 2; 3] (Some (-2)) = None.
Proof.
  split.
  - apply (chunkArray_never_returns [1; 2; 3] 0); [lia|done].
  - apply (chunkArray_never_returns [1; 2; 3] (-2)); [lia|done].
Defined.

(** *** The hours *)





(** *** The rows of a response *)

Lemma filter_total_null rows :
  None ∈ rows -> exists e, filter_total rows = Throw e.
Proof.
  induction rows as [|[r|] rows IH]; [by intros ?%elem_of_nil| |by eauto].
  intros Hin. apply elem_of_cons in Hin as [?|Hin]; [done|].
  destruct (IH Hin) as [e He]. cbn. rewrite He. eauto.
Qed.

(** X17: what [fetchZoneData] makes of a response (lines 97-111).  A
    response without [data] gives no records.  When every row is an
    object, the rows whose division is ["TOTAL"] are dropped and the
    others are kept in their order, each tagged with the zone and the
    query type of the request.  A [null] response, data that is not an
    array, and a [null] row among the rows make the processing throw. *)
Theorem processData_outcomes (rt : DateRuntime) (q z : string) :
  processData rt q z JNoData = Ok [] /\
  (forall rows : list RawRow,
     exists records,
       processData rt q z (JRows (Some <$> rows)) = Ok records /\
       row <$> records = filter (fun r => dvsn r <> Str "TOTAL") rows /\
       Forall (fun c => qry c = q /\ zone c = z) records) /\
  (exists e, processData rt q z JNull = Throw e) /\
  (exists e, processData rt q z JNotArray = Throw e) /\
  (forall rows, None ∈ rows -> exists e, processData rt q z (JRows rows) = Throw e).
Proof.
  split; [done|]. split; [|split; [by eexists|split; [by eexists|]]].
  - intros rows. eexists. split; [apply processData_rows|].
    split.
    + rewrite <- list_fmap_compose.
      rewrite (list_fmap_ext _ id), list_fmap_id; [|done].
      induction rows as [|r rows IH]; [done|].
      cbn [List.filter]. rewrite filter_cons.
      destruct (decide (dvsn r = Str "TOTAL")) as [E|E].
      * rewrite bool_decide_eq_true_2 by done. cbn.
        rewrite decide_False by (by intros H; apply H). done.
      * rewrite bool_decide_eq_false_2 by done. cbn.
        rewrite decide_True by done. by rewrite IH.
    + apply Forall_fmap, Forall_true. done.
  - intros rows Hin. cbn. destruct (filter_total_null rows Hin) as [e ->].
    eauto.
Qed.

Lemma processData_outcomes_witness :
  exists e,
    processData IsoDate.runtime "ODR_RK_OTSG" "CR" (JRows [Some sampleRow; None])
    = Throw e.
Proof.
  apply (processData_outcomes IsoDate.runtime "ODR_RK_OTSG" "CR").
  right. left.
Defined.

(** ** More on the batches *)

Lemma fetchLog_app_trace w w' l :
  trace w' = trace w ++ l -> fetchLog w' = fetchLog w ++ omap is_fetch l.
Proof. unfold fetchLog. intros ->. by rewrite omap_app. Qed.

Lemma progressLog_app_trace w w' l :
  trace w' = trace w ++ l -> progressLog w' = progressLog w ++ omap is_progress l.
Proof. unfold progressLog. intros ->. by rewrite omap_app. Qed.

Lemma array_alloc w (records : list CanonicalRecord) w' :
  heap w' = heap w ++ [records] -> array (length (heap w)) w' = records.
Proof.
  intros H. unfold array. by rewrite H, lookup_app_r, Nat.sub_diag.
Qed.

Lemma afterFetch_outcome onProgress tot z q res b :
  let d := (afterFetch onProgress tot z q res b).1 in
  let b' := (afterFetch onProgress tot z q res b).2 in
  allData b' = allData b /\
  completedRequests b' = S (completedRequests b) /\
  cache (world b') = cache (world b) /\
  controllers (world b') = controllers (world b) /\
  fetchLog (world b') = fetchLog (world b) /\
  exists p,
    progressLog (world b')
    = progressLog (world b) ++ (if onProgress then [p] else []) /\
    completed p = S (completedRequests b) /\ total p = tot /\
    pzone p = z /\ pqueryType p = q /\
    match res with
    | Ok d0 =>
        d = d0 /\ heap (world b') = heap (world b) /\
        recordsFetched p = Some (length (array d0 (world b)))
    | Throw e =>
        d = length (heap (world b)) /\
        heap (world b') = heap (world b) ++ [[]] /\
        recordsFetched p = None
    end.
Proof.
  cbv zeta. unfold afterFetch.
  destruct res as [d0|e].
  - split_and!; [done|done|by destruct onProgress|by destruct onProgress| |].
    + destruct onProgress; [|done]. unfold fetchLog. cbn.
      by rewrite omap_app, app_nil_r.
    + exists {| completed := S (completedRequests b); total := tot;
                pzone := z; pqueryType := q;
                recordsFetched := Some (length (array d0 (world b)));
                error := None |}.
      split_and!; try done; destruct onProgress; try done.
      * unfold progressLog. cbn. by rewrite omap_app.
      * by rewrite app_nil_r.
  - split_and!; [by destruct onProgress|by destruct onProgress
                 |by destruct onProgress|by destruct onProgress| |].
    + destruct onProgress; [|done]. unfold fetchLog. cbn.
      by rewrite omap_app, app_nil_r.
    + exists {| completed := S (completedRequests b); total := tot;
                pzone := z; pqueryType := q;
                recordsFetched := None;
                error := Some (exn_message e) |}.
      split_and!; try done; destruct onProgress; try done.
      * unfold progressLog. cbn. by rewrite omap_app.
      * by rewrite app_nil_r.
Qed.

(** What the rest of the callback does once [fetchZoneData] has settled,
    with the cancellation that may follow. *)
Lemma settle_outcome env onProgress tot s z q res b1 :
  let d := (afterFetch onProgress tot z q res b1).1 in
  let b' := userCancel env s (afterFetch onProgress tot z q res b1).2 in
  allData b' = allData b1 /\
  completedRequests b' = S (completedRequests b1) /\
  cache (world b') = cache (world b1) /\
  fetchLog (world b') = fetchLog (world b1) /\
  (cancelAt env = None -> controllers (world b') = controllers (world b1)) /\
  exists p,
    progressLog (world b')
    = progressLog (world b1) ++ (if onProgress then [p] else []) /\
    completed p = S (completedRequests b1) /\ total p = tot /\
    pzone p = z /\ pqueryType p = q /\
    match res with
    | Ok d0 =>
        d = d0 /\ heap (world b') = heap (world b1) /\
        recordsFetched p = Some (length (array d0 (world b1)))
    | Throw e =>
        d = length (heap (world b1)) /\
        heap (world b') = heap (world b1) ++ [[]] /\
        recordsFetched p = None
    end.
Proof.
  cbv zeta.
  destruct (afterFetch_outcome onProgress tot z q res b1)
    as (Ha & Hn & Hca0 & Hctl0 & Hf0 & p & Hp & Hp1 & Hp2 & Hp3 & Hp4 & Hres).
  destruct (userCancel_trace env s (afterFetch onProgress tot z q res b1).2)
    as (Hc & Hd & _ & Hh & Hca & _ & Htr).
  rewrite Hc, Hd, Hh, Hca, Ha, Hn, Hca0.
  assert (Hlogs :
    fetchLog (world (userCancel env s (afterFetch onProgress tot z q res b1).2))
    = fetchLog (world (afterFetch onProgress tot z q res b1).2) /\
    progressLog (world (userCancel env s (afterFetch onProgress tot z q res b1).2))
    = progressLog (world (afterFetch onProgress tot z q res b1).2) /\
    (cancelAt env = None ->
     controllers (world (userCancel env s (afterFetch onProgress tot z q res b1).2))
     = controllers (world (afterFetch onProgress tot z q res b1).2))).
  { destruct Htr as [[Htr Hctl]|(Htr & _ & Hat & _)].
    - unfold fetchLog, progressLog. by rewrite Htr.
    - rewrite (fetchLog_app_trace _ _ _ Htr), (progressLog_app_trace _ _ _ Htr).
      cbn. rewrite !app_nil_r. split_and!; try done. intros Hnone.
      rewrite Hnone in Hat. done. }
  destruct Hlogs as (-> & -> & Hctl).
  split_and!; try done.
  - intros Hnone. by rewrite Hctl, Hctl0.
  - exists p. split_and!; try done.
Qed.

(** What one resumption of a task does, for any signal.  Either the task
    still waits: nothing changed but, possibly, one call of [fetch], sent
    exactly when the signal is not aborted.  Or the task is fulfilled and
    one completion is reported, with the length of the array the task is
    fulfilled with: the array [fetchZoneData] had returned from the cache,
    or a new array, which is empty and not cached (the fetch failed) or
    cached under the key of the partition (the fetch succeeded). *)
Lemma stepTask_outcome env onProgress tot s t b :
  isWaiting t = true ->
  let t' := (stepTask env onProgress tot s t b).1 in
  let b' := (stepTask env onProgress tot s t b).2 in
  part t' = part t /\ allData b' = allData b /\
  (cancelAt env = None -> controllers (world b') = controllers (world b)) /\
  ((exists f', t_state t' = Awaiting f' /\
      (forall r, f' <> Returned r) /\
      (forall r, t_state t <> Awaiting (Returned r)) /\
      heap (world b') = heap (world b) /\ cache (world b') = cache (world b) /\
      controllers (world b') = controllers (world b) /\
      completedRequests b' = completedRequests b /\
      progressLog (world b') = progressLog (world b) /\
      (fetchLog (world b') = fetchLog (world b) \/
       exists c, fetchLog (world b') = fetchLog (world b) ++ [c] /\
                 fc_sent c = negb (aborted s (world b)))) \/
   (exists r p x, t_state t' = Fulfilled r /\
      completedRequests b' = S (completedRequests b) /\
      progressLog (world b')
      = progressLog (world b) ++ (if onProgress then [p] else []) /\
      fetchLog (world b') = fetchLog (world b) /\
      completed p = S (completedRequests b) /\ total p = tot /\
      pzone p = t_zone t /\ pqueryType p = t_qry t /\
      heap (world b') = heap (world b) ++ x /\
      default 0%nat (recordsFetched p) = length (array r (world b')) /\
      ((exists r0, t_state t = Awaiting (Returned (Ok r0)) /\ r = r0 /\
          x = [] /\ cache (world b') = cache (world b)) \/
       (r = length (heap (world b)) /\
        (forall r0, t_state t <> Awaiting (Returned (Ok r0))) /\
        exists records, x = [records] /\
          ((cache (world b') = cache (world b) /\ records = []) \/
           (cache (world b') = <[keyOf (part t) := r]> (cache (world b)) /\
            aborted s (world b) = false /\
            exists a c, t_state t = Awaiting (InFlight a c))))))).
Proof.
  unfold isWaiting. destruct (t_state t) as [f|] eqn:Hst; [intros _|done].
  cbv zeta. rewrite (stepTask_unfold _ _ _ _ _ _ _ Hst). cbv zeta.
  destruct (fetchZoneData_resume_cases env (t_zone t) (t_qry t) s f (world b))
    as [(a & c & e & -> & _ & _ & ->)|[(a & c & -> & _ & ->)|
        [(a & c & j & records & -> & Hans & _ & ->)|[(a & -> & ->)|(r & -> & ->)]]]];
    cbn [fst snd].
  - cbn [part t_zone t_qry t_state world allData completedRequests].
    split_and!; try done. left. exists (Backoff a).
    split_and!; try done. by left.
  - set (b1 := {| world := (alloc [] (world b)).2;
                  completedRequests := completedRequests b;
                  allData := allData b |}).
    destruct (settle_outcome env onProgress tot s (t_zone t) (t_qry t)
                (Ok (length (heap (world b)))) b1)
      as (Hd & Hc & Hca & Hf & Hctl & p & Hp & Hp1 & Hp2 & Hp3 & Hp4 & Hr & Hh & Hrec).
    cbn [part t_zone t_qry t_state]. split_and!; try done. right.
    eexists _, p, [[]]. rewrite Hr. split_and!; try done.
    + rewrite Hrec. cbn [default].
      rewrite (array_alloc (world b) [] (world b1)) by done.
      by rewrite (array_alloc (world b) [] _ Hh).
    + right. split; [done|]. split; [done|].
      exists []. split; [done|]. by left.
  - set (w1 := set_cache (<[cacheKey (t_zone t) (t_qry t)
                            := length (heap (world b))]> (cache (world b)))
                 (alloc records (world b)).2).
    set (b1 := {| world := w1; completedRequests := completedRequests b;
                  allData := allData b |}).
    destruct (settle_outcome env onProgress tot s (t_zone t) (t_qry t)
                (Ok (length (heap (world b)))) b1)
      as (Hd & Hc & Hca & Hf & Hctl & p & Hp & Hp1 & Hp2 & Hp3 & Hp4 & Hr & Hh & Hrec).
    cbn [part t_zone t_qry t_state]. split_and!; try done. right.
    eexists _, p, [records]. rewrite Hr. split_and!; try done.
    + rewrite Hrec. cbn [default].
      rewrite (array_alloc (world b) records (world b1)) by done.
      by rewrite (array_alloc (world b) records _ Hh).
    + right. split; [done|]. split; [done|].
      exists records. split; [done|]. right.
      split; [done|]. split; [|by eauto].
      unfold answer in Hans. by destruct (aborted s (world b)).
  - cbn [part t_zone t_qry t_state world allData completedRequests].
    split_and!; try done. left. exists (InFlight (S a) (fetch (t_zone t) (t_qry t) s (world b)).1).
    split_and!; try done.
    + unfold progressLog, fetch. cbn. by rewrite omap_app, app_nil_r.
    + right. exists (fetch (t_zone t) (t_qry t) s (world b)).1.
      split; [|done]. unfold fetchLog, fetch. cbn. by rewrite omap_app.
  - set (b1 := {| world := world b; completedRequests := completedRequests b;
                  allData := allData b |}).
    destruct (settle_outcome env onProgress tot s (t_zone t) (t_qry t) r b1)
      as (Hd & Hc & Hca & Hf & Hctl & p & Hp & Hp1 & Hp2 & Hp3 & Hp4 & Hres).
    change (world b1) with (world b) in *.
    cbn [part t_zone t_qry t_state]. split_and!; try done. right.
    destruct r as [r0|e].
    + destruct Hres as (Hr & Hh & Hrec).
      eexists _, p, []. rewrite Hr, app_nil_r. split_and!; try done.
      * rewrite Hrec. cbn [default]. unfold array. by rewrite Hh.
      * left. exists r0. done.
    + destruct Hres as (Hr & Hh & Hrec).
      eexists _, p, [[]]. rewrite Hr. split_and!; try done.
      * rewrite Hrec. cbn [default].
        by rewrite (array_alloc (world b) [] _ Hh).
      * right. split; [done|]. split; [done|].
        exists []. split; [done|]. by left.
Qed.

(** *** Every partition is reported once *)

Lemma waitingParts_app ts1 ts2 :
  waitingParts (ts1 ++ ts2) = waitingParts ts1 ++ waitingParts ts2.
Proof. unfold waitingParts. by rewrite filter_app, fmap_app. Qed.

Lemma insert_middle {A} (l : list A) i x y :
  l !! i = Some x ->
  l = take i l ++ x :: drop (S i) l /\
  <[i := y]> l = take i l ++ y :: drop (S i) l.
Proof.
  intros Hi. split.
  - symmetry. by apply take_drop_middle.
  - apply insert_take_drop. by eapply lookup_lt_Some.
Qed.

Lemma waitingParts_insert_waiting ts i t t' :
  ts !! i = Some t -> isWaiting t = true -> isWaiting t' = true ->
  part t' = part t ->
  waitingParts (<[i := t']> ts) = waitingParts ts.
Proof.
  intros Hi Hw Hw' Hp. destruct (insert_middle ts i t t' Hi) as [E1 E2].
  rewrite E2. rewrite E1 at 3.
  rewrite !waitingParts_app. f_equal.
  unfold waitingParts. rewrite !filter_cons, !decide_True by done.
  by rewrite !fmap_cons, Hp.
Qed.

Lemma waitingParts_insert_fulfilled ts i t t' :
  ts !! i = Some t -> isWaiting t = true -> isWaiting t' = false ->
  waitingParts ts ≡ₚ part t :: waitingParts (<[i := t']> ts).
Proof.
  intros Hi Hw Hw'. destruct (insert_middle ts i t t' Hi) as [E1 E2].
  rewrite E2. rewrite E1 at 1.
  rewrite !waitingParts_app.
  unfold waitingParts at 2 4. rewrite !filter_cons.
  rewrite decide_True by done. rewrite decide_False by (by rewrite Hw').
  rewrite fmap_cons. by rewrite Permutation_middle.
Qed.

Lemma batchResults_fulfilled_inv ts rs :
  batchResults ts = Some rs -> Forall (fun t => isWaiting t = false) ts.
Proof.
  unfold batchResults. intros H. apply mapM_Some in H.
  induction H as [|t r ts rs Ht _ IH]; constructor; [|done].
  unfold isWaiting. by destruct (t_state t).
Qed.

Lemma waitingParts_fulfilled ts :
  Forall (fun t => isWaiting t = false) ts -> waitingParts ts = [].
Proof.
  unfold waitingParts. induction 1 as [|t ts Ht _ IH]; [done|].
  rewrite filter_cons, decide_False by (by rewrite Ht). done.
Qed.

Section ReportInvariant.
Context (env : Env) (onProgress : bool) (tot : nat) (s : option nat)
  (w0 : World).

Lemma reportInv_start started ts b z q :
  reportInv onProgress tot w0 started ts b ->
  reportInv onProgress tot w0 (started ++ [(z, q)])
    (ts ++ [(startTask s q b z).1]) (startTask s q b z).2.
Proof.
  intros (ps & Hlog & Htot & Hparts).
  destruct (startTask_progress s q b z) as [Hp _].
  destruct (startTask_marks s q b z) as (_ & _ & _ & Hw).
  destruct (startTask_cases s q b z) as (Hpart & _).
  exists ps. rewrite Hp. split_and!; try done.
  destruct onProgress; [|done].
  rewrite waitingParts_app. unfold waitingParts at 2.
  rewrite filter_cons, decide_True, filter_nil by done.
  cbn [fmap list_fmap]. rewrite Hpart. by rewrite app_assoc, Hparts.
Qed.

Lemma reportInv_cancel started ts b :
  reportInv onProgress tot w0 started ts b ->
  reportInv onProgress tot w0 started ts (userCancel env s b).
Proof.
  intros (ps & Hlog & Htot & Hparts). exists ps.
  by rewrite progressLog_userCancel.
Qed.

Lemma reportInv_step started ts b i t :
  reportInv onProgress tot w0 started ts b -> ts !! i = Some t ->
  isWaiting t = true ->
  reportInv onProgress tot w0 started
    (<[i := (stepTask env onProgress tot s t (tickBatch b)).1]> ts)
    (stepTask env onProgress tot s t (tickBatch b)).2.
Proof.
  intros (ps & Hlog & Htot & Hparts) Hi Hw.
  destruct (stepTask_outcome env onProgress tot s t (tickBatch b) Hw)
    as (Hpart & _ & _ & Hcases).
  change (progressLog (world (tickBatch b))) with (progressLog (world b)) in *.
  destruct Hcases as [(f' & Hst & _ & _ & _ & _ & _ & _ & Hp & _)
                     |(r & p & x & Hst & _ & Hp & _ & _ & Hpt & Hpz & Hpq & _)].
  - exists ps. rewrite Hp. split_and!; try done.
    destruct onProgress; [|done].
    rewrite (waitingParts_insert_waiting ts i t); try done.
    unfold isWaiting. by rewrite Hst.
  - exists (ps ++ (if onProgress then [p] else [])).
    rewrite Hp, Hlog, app_assoc. split; [done|].
    destruct onProgress.
    + split; [apply Forall_app; split; [done|by repeat constructor]|].
      rewrite fmap_app. cbn [fmap list_fmap].
      rewrite <- Hparts.
      rewrite (waitingParts_insert_fulfilled ts i t
                 (stepTask env true tot s t (tickBatch b)).1); try done.
      * unfold eventPart. rewrite Hpz, Hpq.
        change (t_zone t, t_qry t) with (part t).
        by rewrite <- app_assoc.
      * unfold isWaiting. by rewrite Hst.
    + rewrite app_nil_r. done.
Qed.

Lemma reportInv_collect started ts b rs :
  reportInv onProgress tot w0 started ts b -> batchResults ts = Some rs ->
  reportInv onProgress tot w0 started [] (collect rs b).
Proof.
  intros (ps & Hlog & Htot & Hparts) Hrs. exists ps.
  split_and!; try done. destruct onProgress; [|done].
  by rewrite (waitingParts_fulfilled ts) in Hparts
    by (by eapply batchResults_fulfilled_inv).
Qed.

End ReportInvariant.

Lemma fetchBatchData_reports env zones queryTypes onProgress w :
  exists d w' ps,
    fetchBatchData env zones queryTypes onProgress w = Some (d, w') /\
    progressLog w' = progressLog w ++ ps /\
    Forall (fun p => total p = (length zones * length queryTypes)%nat) ps /\
    if onProgress then eventPart <$> ps ≡ₚ partitions zones queryTypes
    else ps = [].
Proof.
  destruct (fetchBatchData_invariant env onProgress
              (length zones * length queryTypes) (Some (length (controllers w)))
              (partitions zones queryTypes)
              (reportInv onProgress (length zones * length queryTypes) w)
              (fun started ts b z q _ =>
                 reportInv_start onProgress _ _ w started ts b z q)
              (reportInv_cancel env onProgress _ _ w)
              (reportInv_step env onProgress _ _ w)
              (reportInv_collect onProgress _ w)
              zones queryTypes w eq_refl eq_refl eq_refl)
    as (b' & Hrun & (ps & Hlog & Htot & Hparts)).
  - exists []. rewrite app_nil_r. split_and!; try done.
    by destruct onProgress.
  - exists (allData b'), (world b'), ps. split_and!; try done.
    destruct onProgress; [|done]. by rewrite app_nil_r in Hparts.
Qed.

Lemma length_batchPartitions queryTypes zoneBatch :
  length (batchPartitions queryTypes zoneBatch)
  = (length queryTypes * length zoneBatch)%nat.
Proof.
  induction queryTypes as [|q qs IH]; [done|].
  rewrite batchPartitions_cons, length_app, IH, length_group. cbn. lia.
Qed.

Lemma length_partitions zones queryTypes :
  length (partitions zones queryTypes)
  = (length zones * length queryTypes)%nat.
Proof.
  unfold partitions. rewrite <- (concat_zoneBatches zones) at 2.
  induction (zoneBatches zones) as [|zb bs IH]; [done|].
  rewrite fmap_cons. cbn [concat].
  rewrite !length_app, IH, length_batchPartitions. lia.
Qed.

Lemma completed_progressLog w :
  completed <$> progressLog w = omap completedOf (marks w).
Proof.
  unfold progressLog, marks. induction (trace w) as [|e l IH]; [done|].
  destruct e; cbn; by rewrite ?IH.
Qed.

Lemma completedOf_groupMarks offset gs :
  omap completedOf (groupMarks true offset gs)
  = seq (S offset) (length (concat gs)).
Proof.
  revert offset. induction gs as [|g gs IH]; intros offset; [done|].
  cbn [groupMarks concat]. rewrite !omap_app, IH, length_app, seq_app.
  replace (omap completedOf ((fun p : string * string => Started p.1 p.2) <$> g))
    with (@nil nat) by (by induction g).
  cbn [app]. f_equal.
  generalize (S offset). induction (length g) as [|n IHn]; intros k; [done|].
  cbn. by rewrite IHn.
Qed.

(** X21: in every environment (whatever the network answers, whenever
    the tasks are resumed, whether and whenever the user cancels) a batch
    with a progress callback calls it once for every partition: the
    events count 1, 2, ..., n in this order, each carries the total n =
    zones * query types, and the partitions they name are the partitions
    of the batch, each once.  Without a callback nothing is reported. *)
Theorem progress_reports_every_partition_once (env : Env)
    (zones queryTypes : list string) (w : World) :
  let n := (length zones * length queryTypes)%nat in
  (exists res w' ps,
     fetchSelectedZones env zones queryTypes true w = Some (res, w') /\
     progressLog w' = progressLog w ++ ps /\
     completed <$> ps = seq 1 n /\
     Forall (fun p => total p = n) ps /\
     eventPart <$> ps ≡ₚ partitions zones queryTypes) /\
  (exists res w',
     fetchSelectedZones env zones queryTypes false w = Some (res, w') /\
     progressLog w' = progressLog w).
Proof.
  cbv zeta. split.
  - destruct (fetchBatchData_reports env zones queryTypes true
                (set_isFetching true w))
      as (d & w' & ps & Hrun & Hlog & Htot & Hparts).
    pose proof (fetchBatchData_marks _ _ _ _ _ _ _ Hrun) as Hmarks.
    unfold fetchSelectedZones. rewrite Hrun.
    eexists _, _, ps. split; [reflexivity|].
    split_and!; try done.
    assert (H : completed <$> progressLog w'
                = (completed <$> progressLog (set_isFetching true w))
                  ++ seq 1 (length zones * length queryTypes)).
    { rewrite !completed_progressLog, Hmarks, omap_app.
      by rewrite completedOf_groupMarks, concat_groups, length_partitions. }
    rewrite Hlog, fmap_app in H. by apply app_inv_head in H.
  - destruct (fetchBatchData_reports env zones queryTypes false
                (set_isFetching true w))
      as (d & w' & ps & Hrun & Hlog & _ & ->).
    unfold fetchSelectedZones. rewrite Hrun.
    eexists _, _. split; [reflexivity|].
    change (progressLog w' = progressLog w). by rewrite Hlog, app_nil_r.
Qed.

(** *** A batch without partitions *)

Lemma forM_unchanged {A} (body : Batch -> A -> option Batch) l b :
  (forall b x, body b x = Some b) -> forM body l b = Some b.
Proof.
  intros H. induction l as [|x l IH]; [done|]. cbn. by rewrite H.
Qed.

(** X19: with no zones or no query types the batch has nothing to fetch:
    it resolves at once with [success: true] and no records, calls
    neither [fetch] nor [onProgress], and changes nothing in the service
    but the abort controller, which is a new one, and [isFetching], which
    is false. *)
Theorem empty_batch (env : Env) (zones queryTypes : list string)
    (onProgress : bool) (w : World) :
  zones = [] \/ queryTypes = [] ->
  fetchSelectedZones env zones queryTypes onProgress w
  = Some ({| success := true; error_ := None; data := []; totalRecords := 0 |},
          set_isFetching false (newAbortController (set_isFetching true w)).2)
  /\ trace (newAbortController (set_isFetching true w)).2 = trace w
  /\ cache (newAbortController (set_isFetching true w)).2 = cache w.
Proof.
  intros H. split; [|done].
  unfold fetchSelectedZones, fetchBatchData.
  destruct (newAbortController (set_isFetching true w)) as [c w1] eqn:E.
  destruct H as [->| ->].
  - reflexivity.
  - rewrite forM_unchanged; [done|]. intros b x. reflexivity.
Qed.

Lemma empty_batch_witness :
  fst <$> fetchSelectedZones deadEnv [] API_CONFIG.queryTypes true initial
  = Some {| success := true; error_ := None; data := []; totalRecords := 0 |}
  /\
  fst <$> fetchSelectedZones deadEnv API_CONFIG.zones [] true initial
  = Some {| success := true; error_ := None; data := []; totalRecords := 0 |}.
Proof.
  split.
  - by rewrite (proj1 (empty_batch deadEnv [] API_CONFIG.queryTypes true initial
                         (or_introl eq_refl))).
  - by rewrite (proj1 (empty_batch deadEnv API_CONFIG.zones [] true initial
                         (or_intror eq_refl))).
Defined.

(** *** A cancellation before the batch *)

Section SentInvariant.
Context (env : Env) (onProgress : bool) (tot : nat) (c0 : nat)
  (ctl : list bool) (w0 : World).
Hypothesis Hnone : cancelAt env = None.
Hypothesis Hlive : default false (ctl !! c0) = false.

Lemma sentInv_start started ts b z q :
  sentInv ctl w0 started ts b ->
  sentInv ctl w0 (started ++ [(z, q)]) (ts ++ [(startTask (Some c0) q b z).1])
    (startTask (Some c0) q b z).2.
Proof.
  intros (Hctl & cs & Hlog & Hsent).
  destruct (startTask_cases (Some c0) q b z)
    as (_ & _ & _ & _ & Hc & _ & _ & Htr).
  split; [by rewrite Hc|].
  destruct Htr as [(r & _ & _ & Htr)|(c & _ & _ & Htr & Hs)].
  - exists cs. rewrite (fetchLog_app_trace _ _ _ Htr). cbn.
    by rewrite app_nil_r.
  - exists (cs ++ [c]). rewrite (fetchLog_app_trace _ _ _ Htr). cbn.
    rewrite Hlog, app_assoc. split; [done|].
    apply Forall_app. split; [done|]. constructor; [|constructor].
    rewrite Hs. unfold aborted. by rewrite Hctl, Hlive.
Qed.

Lemma sentInv_cancel started ts b :
  sentInv ctl w0 started ts b ->
  sentInv ctl w0 started ts (userCancel env (Some c0) b).
Proof.
  intros (Hctl & cs & Hlog & Hsent).
  destruct (userCancel_trace env (Some c0) b)
    as (_ & _ & _ & _ & _ & _ & [[Htr Hc]|(_ & _ & Hat & _)]);
    [|by rewrite Hnone in Hat].
  split; [by rewrite Hc|]. exists cs. unfold fetchLog in *. by rewrite Htr.
Qed.

Lemma sentInv_step started ts b i t :
  sentInv ctl w0 started ts b -> ts !! i = Some t -> isWaiting t = true ->
  sentInv ctl w0 started
    (<[i := (stepTask env onProgress tot (Some c0) t (tickBatch b)).1]> ts)
    (stepTask env onProgress tot (Some c0) t (tickBatch b)).2.
Proof.
  intros (Hctl & cs & Hlog & Hsent) Hi Hw.
  destruct (stepTask_outcome env onProgress tot (Some c0) t (tickBatch b) Hw)
    as (_ & _ & Hc & Hcases).
  change (controllers (world (tickBatch b))) with (controllers (world b)) in *.
  change (fetchLog (world (tickBatch b))) with (fetchLog (world b)) in *.
  split; [by rewrite Hc|].
  destruct Hcases as [(f' & _ & _ & _ & _ & _ & _ & _ & _ & Hf)
                     |(r & p & x & _ & _ & _ & Hf & _)].
  - destruct Hf as [Hf|(c & Hf & Hs)].
    + exists cs. by rewrite Hf.
    + exists (cs ++ [c]). rewrite Hf, Hlog, app_assoc. split; [done|].
      apply Forall_app. split; [done|]. constructor; [|constructor].
      rewrite Hs. unfold aborted. cbn [world tickBatch tick controllers].
      by rewrite Hctl, Hlive.
  - exists cs. by rewrite Hf.
Qed.

End SentInvariant.

(** X23: a cancellation cancels the batch that is running and no other.
    A batch starts with an abort controller of its own, so in whatever
    state the service is, also right after [cancelFetch], every call of
    [fetch] of a batch during which the user does not cancel leaves. *)
Theorem batch_ignores_earlier_cancellation (env : Env)
    (zones queryTypes : list string) (onProgress : bool) (w : World) :
  cancelAt env = None ->
  exists res w' cs,
    fetchSelectedZones env zones queryTypes onProgress (cancelFetch w)
    = Some (res, w') /\
    fetchLog w' = fetchLog w ++ cs /\
    Forall (fun c => fc_sent c = true) cs.
Proof.
  intros Hnone.
  set (w1 := set_isFetching true (cancelFetch w)).
  destruct (newAbortController_spec w1) as (_ & _ & _ & _ & _ & Hlive).
  destruct (fetchBatchData_invariant env onProgress
              (length zones * length queryTypes)
              (Some (length (controllers w1)))
              (partitions zones queryTypes)
              (sentInv (controllers (newAbortController w1).2) w1)
              (fun started ts b z q _ =>
                 sentInv_start _ _ w1 Hlive started ts b z q)
              (sentInv_cancel env _ _ w1 Hnone)
              (sentInv_step env onProgress _ _ _ w1 Hnone Hlive)
              (fun started ts b rs H _ => H)
              zones queryTypes w1 eq_refl eq_refl eq_refl)
    as (b' & Hrun & (_ & cs & Hlog & Hsent)).
  - split; [done|]. exists []. by rewrite app_nil_r.
  - unfold fetchSelectedZones. fold w1. rewrite Hrun.
    eexists _, _, cs. split; [reflexivity|]. split; [|done].
    change (fetchLog (world b') = fetchLog w ++ cs). rewrite Hlog.
    f_equal. unfold w1, fetchLog, cancelFetch.
    destruct (abortController w); cbn; [|done].
    by rewrite omap_app, app_nil_r.
Qed.

Lemma batch_ignores_earlier_cancellation_witness :
  exists res w' cs,
    fetchSelectedZones calmEnv ["CR"; "ER"] twoQueryTypes true
      (cancelFetch afterFirstBatch)
    = Some (res, w') /\
    fetchLog w' = fetchLog afterFirstBatch ++ cs /\
    Forall (fun c => fc_sent c = true) cs.
Proof.
  apply (batch_ignores_earlier_cancellation calmEnv). reflexivity.
Defined.

Example cancelFetch_between_batches :
  (fun '(res, w) => (length (data res), fc_sent <$> fetchLog w))
    <$> fetchSelectedZones calmEnv ["ER"] ["ODR_RK_OTSG"] true
          (cancelFetch afterFirstBatch)
  = Some (1%nat, [true; true]).
Proof. reflexivity. Qed.

(** *** A batch on cached partitions *)

Lemma batchResults_served w0 w ts rs :
  batchResults ts = Some rs -> heap w = heap w0 ->
  Forall (servedFromCache w0) ts ->
  (fun r => array r w) <$> rs = cachedRecords w0 ∘ keyOf ∘ part <$> ts.
Proof.
  unfold batchResults. intros H Hh Hts. apply mapM_Some in H.
  induction H as [|t r ts rs Ht _ IH]; [done|].
  apply Forall_cons in Hts as [(r0 & Hc & Hst) Hts].
  rewrite !fmap_cons, IH by done. f_equal.
  destruct (t_state t) as [f|r1] eqn:E; [done|]. injection Ht as ->.
  destruct Hst as [?|[= ->]]; [done|].
  cbn. unfold cachedRecords. rewrite Hc. unfold array. by rewrite Hh.
Qed.

Section WarmInvariant.
Context (env : Env) (onProgress : bool) (tot : nat) (s : option nat)
  (w0 : World) (plan : list (string * string)).
Hypothesis Hwarm : forall p, p ∈ plan -> is_Some (cache w0 !! keyOf p).

Lemma warmInv_start started ts b z q :
  (exists rest, plan = started ++ (z, q) :: rest) ->
  warmInv w0 started ts b ->
  warmInv w0 (started ++ [(z, q)]) (ts ++ [(startTask s q b z).1])
    (startTask s q b z).2.
Proof.
  intros [rest Hplan] (Hca & Hh & Hf & (done_ & Hst & Hd) & Hts).
  destruct (startTask_cases s q b z)
    as (Hpart & Hd' & _ & _ & _ & Hh' & Hca' & Htr).
  destruct (Hwarm (z, q)) as [r Hr].
  { rewrite Hplan. apply elem_of_app. right. by left. }
  destruct Htr as [(r' & Hhit & Hstate & Htr)|(c & Hmiss & _)];
    [|by rewrite Hca in Hmiss; unfold keyOf in Hr; cbn in Hr;
         rewrite Hr in Hmiss].
  split_and!.
  - by rewrite Hca'.
  - by rewrite Hh'.
  - rewrite (fetchLog_app_trace _ _ _ Htr). cbn. by rewrite app_nil_r.
  - exists done_. rewrite Hd', fmap_app. cbn [fmap list_fmap].
    rewrite Hpart, Hst. by rewrite app_assoc.
  - apply Forall_app. split; [done|]. constructor; [|constructor].
    exists r'. rewrite Hpart. split; [by rewrite <- Hca|]. by left.
Qed.

Lemma warmInv_cancel started ts b :
  warmInv w0 started ts b -> warmInv w0 started ts (userCancel env s b).
Proof.
  intros (Hca & Hh & Hf & (done_ & Hst & Hd) & Hts).
  destruct (userCancel_trace env s b)
    as (_ & Hd' & _ & Hh' & Hca' & _ & Htr).
  split_and!; try congruence.
  - destruct Htr as [[Htr _]|(Htr & _)].
    + unfold fetchLog in *. by rewrite Htr.
    + rewrite (fetchLog_app_trace _ _ _ Htr). cbn. by rewrite app_nil_r.
  - exists done_. by rewrite Hd'.
Qed.

Lemma warmInv_step started ts b i t :
  warmInv w0 started ts b -> ts !! i = Some t -> isWaiting t = true ->
  warmInv w0 started
    (<[i := (stepTask env onProgress tot s t (tickBatch b)).1]> ts)
    (stepTask env onProgress tot s t (tickBatch b)).2.
Proof.
  intros (Hca & Hh & Hf & (done_ & Hst & Hd) & Hts) Hi Hw.
  destruct (Forall_lookup_1 _ _ _ _ Hts Hi) as (r & Hr & Hstate).
  destruct Hstate as [Hstate|Hstate];
    [|by unfold isWaiting in Hw; rewrite Hstate in Hw].
  destruct (stepTask_outcome env onProgress tot s t (tickBatch b) Hw)
    as (Hpart & Hd' & _ & Hcases).
  change (world (tickBatch b)) with (tick (world b)) in *.
  destruct Hcases as [(f' & _ & _ & Hno & _)
                     |(r1 & p & x & Hst' & _ & _ & Hf' & _ & _ & _ & _ & Hh' & _
                       & [(r0 & Hst0 & -> & -> & Hca')|(_ & Hno & _)])];
    [by destruct (Hno (Ok r))| |by destruct (Hno r)].
  rewrite Hstate in Hst0. injection Hst0 as <-.
  split_and!.
  - by rewrite Hca'.
  - by rewrite Hh', app_nil_r.
  - by rewrite Hf'.
  - exists done_. rewrite Hd'. split; [|done].
    rewrite list_fmap_insert, Hpart, list_insert_id; [done|].
    by rewrite list_lookup_fmap, Hi.
  - apply Forall_insert; [done|]. exists r. rewrite Hpart.
    split; [done|]. by right.
Qed.

Lemma warmInv_collect started ts b rs :
  warmInv w0 started ts b -> batchResults ts = Some rs ->
  warmInv w0 started [] (collect rs b).
Proof.
  intros (Hca & Hh & Hf & (done_ & Hst & Hd) & Hts) Hrs.
  split_and!; try done.
  exists (done_ ++ (part <$> ts)). rewrite app_nil_r. split; [done|].
  cbn [collect allData world].
  rewrite (batchResults_served w0 (world b) ts rs Hrs Hh Hts), Hd.
  by rewrite fmap_app, concat_app, <- list_fmap_compose.
Qed.

End WarmInvariant.

(** X20: a batch all of whose partitions are cached makes no request,
    in any environment: it resolves with the cached records of its
    partitions, in the order of the loops, and leaves the cache and the
    arrays as they were. *)
Theorem cached_batch_makes_no_request (env : Env)
    (zones queryTypes : list string) (onProgress : bool) (w : World) :
  (forall p, p ∈ partitions zones queryTypes -> is_Some (cache w !! keyOf p)) ->
  exists res w',
    fetchSelectedZones env zones queryTypes onProgress w = Some (res, w') /\
    success res = true /\
    data res
    = concat (cachedRecords w ∘ keyOf <$> partitions zones queryTypes) /\
    fetchLog w' = fetchLog w /\ cache w' = cache w /\ heap w' = heap w.
Proof.
  intros Hwarm.
  set (w1 := set_isFetching true w).
  destruct (fetchBatchData_invariant env onProgress
              (length zones * length queryTypes)
              (Some (length (controllers w1)))
              (partitions zones queryTypes)
              (warmInv w1)
              (warmInv_start _ w1 _ Hwarm)
              (warmInv_cancel env _ w1)
              (warmInv_step env onProgress _ _ w1)
              (warmInv_collect w1)
              zones queryTypes w1 eq_refl eq_refl eq_refl)
    as (b' & Hrun & (Hca & Hh & Hf & (done_ & Hst & Hd) & _)).
  - split_and!; try done. by exists [].
  - unfold fetchSelectedZones. fold w1. rewrite Hrun.
    eexists _, _. split; [reflexivity|]. cbn [success data].
    rewrite app_nil_r in Hst. subst done_.
    split_and!; try done.
Qed.

Lemma cached_batch_makes_no_request_witness :
  exists res w',
    fetchSelectedZones deadEnv ["CR"] ["ODR_RK_OTSG"] true afterFirstBatch
    = Some (res, w') /\
    success res = true /\
    data res
    = concat (cachedRecords afterFirstBatch ∘ keyOf
                <$> partitions ["CR"] ["ODR_RK_OTSG"]) /\
    fetchLog w' = fetchLog afterFirstBatch /\
    cache w' = cache afterFirstBatch /\ heap w' = heap afterFirstBatch.
Proof.
  apply (cached_batch_makes_no_request deadEnv).
  intros p Hp. vm_compute in Hp.
  apply list_elem_of_singleton in Hp as ->. by eexists.
Defined.

Example cached_batch_sample :
  (fun '(res, w) => (length (data res), length (fetchLog w)))
    <$> fetchSelectedZones deadEnv ["CR"] ["ODR_RK_OTSG"] true afterFirstBatch
  = Some (1%nat, 1%nat).
Proof. reflexivity. Qed.

(** *** The records that are reported *)

Lemma heldBy_stable w w' t x :
  heap w' = heap w ++ x -> taskValid w t -> heldBy w' t = heldBy w t.
Proof.
  intros Hh Hv. unfold heldBy. destruct (t_state t) as [f|r] eqn:E; [done|].
  f_equal. apply (array_stable r w w' x); [|done]. apply Hv. by left.
Qed.

Lemma taskValid_stable w w' t x :
  heap w' = heap w ++ x -> taskValid w t -> taskValid w' t.
Proof.
  intros Hh Hv r Hr. specialize (Hv r Hr). rewrite Hh, length_app. lia.
Qed.

Lemma list_sum_cons (n : nat) l : list_sum (n :: l) = (n + list_sum l)%nat.
Proof. reflexivity. Qed.

Lemma list_sum_heldBy_stable w w' ts x :
  heap w' = heap w ++ x -> Forall (taskValid w) ts ->
  list_sum (heldBy w' <$> ts) = list_sum (heldBy w <$> ts).
Proof.
  intros Hh. induction 1 as [|t ts Ht _ IH]; [done|].
  rewrite !fmap_cons, !list_sum_cons. by rewrite IH, (heldBy_stable w w' t x).
Qed.

Lemma heapValid_stable w w' x :
  heap w' = heap w ++ x -> cache w' = cache w -> heapValid w -> heapValid w'.
Proof.
  intros Hh Hc Hv k r Hk. rewrite Hc in Hk. specialize (Hv k r Hk).
  rewrite Hh, length_app. lia.
Qed.

Lemma reportedRecords_snoc ps p :
  reportedRecords (ps ++ [p])
  = (reportedRecords ps + default 0 (recordsFetched p))%nat.
Proof.
  unfold reportedRecords. rewrite fmap_app, list_sum_app. cbn. lia.
Qed.

Lemma batchResults_held w ts rs :
  batchResults ts = Some rs ->
  list_sum (heldBy w <$> ts)
  = length (concat ((fun r => array r w) <$> rs)).
Proof.
  unfold batchResults. intros H. apply mapM_Some in H.
  induction H as [|t r ts rs Ht _ IH]; [done|].
  rewrite !fmap_cons, list_sum_cons. cbn [concat]. rewrite length_app, IH.
  f_equal. unfold heldBy. destruct (t_state t); [done|]. by injection Ht as ->.
Qed.

Section RecordsInvariant.
Context (env : Env) (tot : nat) (s : option nat) (w0 : World).

Lemma recordsInv_start started ts b z q :
  recordsInv w0 started ts b ->
  recordsInv w0 (started ++ [(z, q)]) (ts ++ [(startTask s q b z).1])
    (startTask s q b z).2.
Proof.
  intros (Hv & Hts & ps & Hlog & Hsum).
  destruct (startTask_progress s q b z) as [Hp _].
  destruct (startTask_cases s q b z)
    as (_ & Hd & _ & _ & _ & Hh & Hca & Htr).
  assert (Hh' : heap (world (startTask s q b z).2) = heap (world b) ++ [])
    by by rewrite app_nil_r.
  split_and!.
  - by apply (heapValid_stable (world b) _ []).
  - apply Forall_app. split.
    + eapply Forall_impl; [done|]. intros t.
      by apply (taskValid_stable _ _ _ []).
    + constructor; [|constructor]. intros r Hr. rewrite Hh.
      destruct Htr as [(r' & Hhit & Hst & _)|(c & _ & Hst & _)];
        rewrite Hst in Hr; destruct Hr as [?|[= <-]]; try done.
      by apply (Hv _ _ Hhit).
  - exists ps. rewrite Hp, Hd. split; [done|].
    rewrite fmap_app, list_sum_app.
    rewrite (list_sum_heldBy_stable (world b) _ ts [] Hh' Hts), Hsum.
    cbn. unfold heldBy.
    destruct Htr as [(r' & _ & -> & _)|(c & _ & -> & _)]; lia.
Qed.

Lemma recordsInv_cancel started ts b :
  recordsInv w0 started ts b -> recordsInv w0 started ts (userCancel env s b).
Proof.
  intros (Hv & Hts & ps & Hlog & Hsum).
  destruct (userCancel_trace env s b) as (_ & Hd & _ & Hh & Hca & _).
  assert (Hh' : heap (world (userCancel env s b)) = heap (world b) ++ [])
    by by rewrite app_nil_r.
  split_and!.
  - by apply (heapValid_stable (world b) _ []).
  - eapply Forall_impl; [done|]. intros t.
    by apply (taskValid_stable _ _ _ []).
  - exists ps. rewrite progressLog_userCancel, Hd. split; [done|].
    by rewrite (list_sum_heldBy_stable (world b) _ ts [] Hh' Hts).
Qed.

Lemma recordsInv_step started ts b i t :
  recordsInv w0 started ts b -> ts !! i = Some t -> isWaiting t = true ->
  recordsInv w0 started
    (<[i := (stepTask env true tot s t (tickBatch b)).1]> ts)
    (stepTask env true tot s t (tickBatch b)).2.
Proof.
  intros (Hv & Hts & ps & Hlog & Hsum) Hi Hw.
  pose proof (Forall_lookup_1 _ _ _ _ Hts Hi) as Ht.
  destruct (stepTask_outcome env true tot s t (tickBatch b) Hw)
    as (_ & Hd & _ & Hcases).
  change (world (tickBatch b)) with (tick (world b)) in *.
  change (heap (tick (world b))) with (heap (world b)) in *.
  change (cache (tick (world b))) with (cache (world b)) in *.
  change (progressLog (tick (world b))) with (progressLog (world b)) in *.
  change (allData (tickBatch b)) with (allData b) in *.
  assert (H0 : heldBy (world b) t = 0%nat).
  { unfold heldBy, isWaiting in *. by destruct (t_state t). }
  set (t' := (stepTask env true tot s t (tickBatch b)).1) in *.
  set (b' := (stepTask env true tot s t (tickBatch b)).2) in *.
  assert (Hgrow : exists x, heap (world b') = heap (world b) ++ x /\
            (cache (world b') = cache (world b) \/
             exists r, cache (world b')
                       = <[keyOf (part t) := r]> (cache (world b)) /\
                       (r < length (heap (world b')))%nat) /\
            taskValid (world b') t' /\
            exists ps', progressLog (world b') = progressLog (world b) ++ ps' /\
              reportedRecords ps' = heldBy (world b') t').
  { destruct Hcases as [(f' & Hst & Hnr & _ & Hh & Hca & _ & _ & Hp & _)
                       |(r & p & x & Hst & _ & Hp & _ & _ & _ & _ & _ & Hh
                         & Hrec & Halt)].
    - exists []. rewrite app_nil_r. split_and!; try done; [by left| |].
      + intros r [Hr|Hr]; rewrite Hst in Hr; [done|].
        injection Hr as ->. by destruct (Hnr (Ok r)).
      + exists []. rewrite app_nil_r. split; [done|].
        unfold heldBy. by rewrite Hst.
    - exists x. split; [done|].
      assert (Hr : (r < length (heap (world b')))%nat).
      { destruct Halt as [(r0 & Hst0 & -> & _)|(-> & _ & records & -> & _)].
        - rewrite Hh, length_app. specialize (Ht r0 (or_intror Hst0)). lia.
        - rewrite Hh, length_app. cbn. lia. }
      split_and!.
      + destruct Halt as [(r0 & _ & _ & _ & Hca)|(_ & _ & records & _ & Hca)];
          [by left|].
        destruct Hca as [[Hca _]|(Hca & _)]; [by left|]. right. by exists r.
      + intros r1 [Hr1|Hr1]; rewrite Hst in Hr1; [|done].
        by injection Hr1 as <-.
      + exists [p]. split; [done|]. unfold reportedRecords, heldBy.
        rewrite Hst. cbn. lia. }
  destruct Hgrow as (x & Hh & Hca & Hvt & ps' & Hp & Hrep).
  split_and!.
  - destruct Hca as [Hca|(r & Hca & Hr)].
    + by apply (heapValid_stable (world b) _ x).
    + intros k r1 Hk. rewrite Hca in Hk.
      destruct (decide (k = keyOf (part t))) as [->|Hne].
      * rewrite lookup_insert_eq in Hk. by injection Hk as <-.
      * rewrite lookup_insert_ne in Hk by done.
        specialize (Hv k r1 Hk). rewrite Hh, length_app. lia.
  - apply Forall_insert; [|done].
    eapply Forall_impl; [done|]. intros t1.
    by apply (taskValid_stable _ _ _ x).
  - exists (ps ++ ps'). rewrite Hp, Hlog, app_assoc. split; [done|].
    unfold reportedRecords in *. rewrite fmap_app, list_sum_app, Hsum, Hrep, Hd.
    pose proof (list_sum_insert (heldBy (world b')) ts i t t' Hi) as Hins.
    rewrite (list_sum_heldBy_stable (world b) (world b') ts x Hh Hts) in Hins.
    rewrite (heldBy_stable (world b) (world b') t x Hh Ht), H0 in Hins.
    lia.
Qed.

Lemma recordsInv_collect started ts b rs :
  recordsInv w0 started ts b -> batchResults ts = Some rs ->
  recordsInv w0 started [] (collect rs b).
Proof.
  intros (Hv & Hts & ps & Hlog & Hsum) Hrs.
  split_and!; [done|constructor|]. exists ps. split; [done|].
  cbn [collect allData world fmap list_fmap list_sum].
  change (list_sum []) with 0%nat.
  rewrite Hsum, length_app, (batchResults_held _ _ _ Hrs). lia.
Qed.

End RecordsInvariant.

Lemma heapValid_newAbortController w :
  heapValid w -> heapValid (newAbortController w).2.
Proof. done. Qed.

(** X22: the record counts that a batch reports to its progress callback
    add up to the records it resolves with, in every environment: each
    partition reports the length of the array that is merged for it.
    This holds in a state in which the arrays of the cache are in the
    heap, which is so for a new service and stays so after the batch. *)
Theorem progress_records_add_up (env : Env) (zones queryTypes : list string)
    (w : World) :
  heapValid w ->
  exists res w' ps,
    fetchSelectedZones env zones queryTypes true w = Some (res, w') /\
    progressLog w' = progressLog w ++ ps /\
    reportedRecords ps = totalRecords res /\
    heapValid w'.
Proof.
  intros Hv.
  set (w1 := set_isFetching true w).
  destruct (fetchBatchData_invariant env true
              (length zones * length queryTypes)
              (Some (length (controllers w1)))
              (partitions zones queryTypes)
              (recordsInv w1)
              (fun started ts b z q _ =>
                 recordsInv_start _ w1 started ts b z q)
              (recordsInv_cancel env _ w1)
              (recordsInv_step env _ _ w1)
              (recordsInv_collect w1)
              zones queryTypes w1 eq_refl eq_refl eq_refl)
    as (b' & Hrun & (Hv' & _ & ps & Hlog & Hsum)).
  - split_and!; [done|constructor|]. exists []. by rewrite app_nil_r.
  - unfold fetchSelectedZones. fold w1. rewrite Hrun.
    eexists _, _, ps. split; [reflexivity|]. cbn [totalRecords].
    split_and!; try done. rewrite Hsum. cbn. lia.
Qed.

Lemma progress_records_add_up_witness :
  exists res w' ps,
    fetchSelectedZones scenarioC ["CR"; "ER"] twoQueryTypes true initial
    = Some (res, w') /\
    progressLog w' = progressLog initial ++ ps /\
    reportedRecords ps = totalRecords res /\
    heapValid w'.
Proof.
  apply (progress_records_add_up scenarioC). intros k r Hk. done.
Defined.

(** *** The size of the cache *)

Section DomInvariant.
Context (env : Env) (onProgress : bool) (tot : nat) (s : option nat)
  (w0 : World).

Lemma domInv_start started ts b z q :
  domInv w0 started ts b ->
  domInv w0 (started ++ [(z, q)]) (ts ++ [(startTask s q b z).1])
    (startTask s q b z).2.
Proof.
  intros [Hc Hts].
  destruct (startTask_cases s q b z) as (Hpart & _ & _ & _ & _ & _ & Hca & _).
  split.
  - intros k Hk. rewrite Hca in Hk. destruct (Hc k Hk) as [?|?]; [by left|].
    right. rewrite fmap_app. apply elem_of_app. by left.
  - apply Forall_app. split.
    + eapply Forall_impl; [done|]. intros t Ht. apply elem_of_app. by left.
    + constructor; [|constructor]. rewrite Hpart. apply elem_of_app.
      right. by left.
Qed.

Lemma domInv_cancel started ts b :
  domInv w0 started ts b -> domInv w0 started ts (userCancel env s b).
Proof.
  intros [Hc Hts]. split; [|done]. intros k Hk.
  rewrite cache_userCancel in Hk. by apply Hc.
Qed.

Lemma domInv_step started ts b i t :
  domInv w0 started ts b -> ts !! i = Some t -> isWaiting t = true ->
  domInv w0 started
    (<[i := (stepTask env onProgress tot s t (tickBatch b)).1]> ts)
    (stepTask env onProgress tot s t (tickBatch b)).2.
Proof.
  intros [Hc Hts] Hi Hw.
  pose proof (Forall_lookup_1 _ _ _ _ Hts Hi) as Ht.
  destruct (stepTask_outcome env onProgress tot s t (tickBatch b) Hw)
    as (Hpart & _ & _ & Hcases).
  change (cache (world (tickBatch b))) with (cache (world b)) in *.
  split; [|apply Forall_insert; [done|by rewrite Hpart]].
  assert (Hca : cache (stepTask env onProgress tot s t (tickBatch b)).2.(world)
                = cache (world b) \/
                exists r, cache (stepTask env onProgress tot s t (tickBatch b)).2.(world)
                          = <[keyOf (part t) := r]> (cache (world b))).
  { destruct Hcases as [(f' & _ & _ & _ & _ & Hca & _)
                       |(r & p & x & _ & _ & _ & _ & _ & _ & _ & _ & _ & _
                         & [(r0 & _ & _ & _ & Hca)
                           |(_ & _ & records & _ & [[Hca _]|[Hca _]])])];
      eauto. }
  intros k Hk. destruct Hca as [Hca|[r Hca]]; rewrite Hca in Hk.
  - by apply Hc.
  - destruct (decide (k = keyOf (part t))) as [->|Hne].
    + right. by apply list_elem_of_fmap_2.
    + rewrite lookup_insert_ne in Hk by done. by apply Hc.
Qed.

End DomInvariant.

Lemma fetchBatchData_cacheWithin env zones queryTypes onProgress w :
  exists d w',
    fetchBatchData env zones queryTypes onProgress w = Some (d, w') /\
    cacheWithin w (partitions zones queryTypes) w'.
Proof.
  destruct (fetchBatchData_invariant env onProgress
              (length zones * length queryTypes)
              (Some (length (controllers w)))
              (partitions zones queryTypes)
              (domInv w)
              (fun started ts b z q _ => domInv_start _ w started ts b z q)
              (domInv_cancel env _ w)
              (domInv_step env onProgress _ _ w)
              (fun started ts b rs H _ => conj (proj1 H) (List.Forall_nil _))
              zones queryTypes w eq_refl eq_refl eq_refl)
    as (b' & Hrun & [Hc _]).
  - split; [|constructor]. intros k Hk. by left.
  - eauto.
Qed.

Lemma list_sum_lookup_insert (m : gmap string aref) (f : aref -> nat) i x ks :
  NoDup ks -> i ∈ ks -> m !! i = None ->
  list_sum ((fun k => from_option f 0%nat (<[i := x]> m !! k)) <$> ks)
  = (f x + list_sum ((fun k => from_option f 0%nat (m !! k)) <$> ks))%nat.
Proof.
  intros Hnd Hin Hi. induction ks as [|k ks IH]; [by apply elem_of_nil in Hin|].
  apply NoDup_cons in Hnd as [Hk Hnd]. rewrite !fmap_cons, !list_sum_cons.
  destruct (decide (k = i)) as [->|Hne].
  - rewrite lookup_insert_eq, Hi. cbn [from_option]. rewrite Nat.add_0_l.
    do 2 f_equal. apply list_fmap_ext. intros j k Hj.
    rewrite lookup_insert_ne; [done|]. intros <-. apply Hk.
    by eapply list_elem_of_lookup_2.
  - rewrite lookup_insert_ne by done. rewrite IH; [lia|done|].
    by apply elem_of_cons in Hin as [->|?].
Qed.

Lemma map_fold_sum (m : gmap string aref) (f : aref -> nat) ks :
  NoDup ks -> (forall k, is_Some (m !! k) -> k ∈ ks) ->
  map_fold (fun _ r acc => (acc + f r)%nat) 0%nat m
  = list_sum ((fun k => from_option f 0%nat (m !! k)) <$> ks).
Proof.
  intros Hnd. induction m as [|i x m Hi IH] using map_ind; intros Hks.
  - rewrite map_fold_empty. induction ks as [|k ks IHk]; [done|].
    apply NoDup_cons in Hnd as [_ Hnd].
    rewrite fmap_cons, list_sum_cons, lookup_empty. cbn [from_option].
    rewrite <- IHk; [done|done|]. intros k' [? Hk']. by rewrite lookup_empty in Hk'.
  - rewrite map_fold_insert_L; [|intros; lia|done].
    rewrite IH, list_sum_lookup_insert; [lia|done| |done|].
    + apply Hks. rewrite lookup_insert_eq. by eexists.
    + intros k Hk. apply Hks.
      destruct (decide (k = i)) as [->|Hne].
      * rewrite lookup_insert_eq. by eexists.
      * by rewrite lookup_insert_ne.
Qed.

Lemma length_cachedRecords w (plan : list (string * string)) :
  length (concat (cachedRecords w ∘ keyOf <$> plan))
  = list_sum ((fun k => from_option (fun r => length (array r w)) 0%nat
                          (cache w !! k)) <$> (keyOf <$> plan)).
Proof.
  induction plan as [|p plan IH]; [done|].
  rewrite !fmap_cons, list_sum_cons. cbn [concat].
  rewrite length_app, IH. f_equal. cbn. unfold cachedRecords.
  by destruct (cache w !! keyOf p).
Qed.

(** X24: after a batch on an empty cache whose partitions have different
    keys, [getCacheSize] counts what the batch resolved with: the records
    of the cache are the records of the result, and the cache has at most
    one entry for each partition (one for each partition whose fetch
    succeeded). *)
Theorem cache_size_after_batch (env : Env) (zones queryTypes : list string)
    (onProgress : bool) (w : World) :
  cache w = ∅ -> NoDup (keyOf <$> partitions zones queryTypes) ->
  exists res w',
    fetchSelectedZones env zones queryTypes onProgress w = Some (res, w') /\
    (getCacheSize w').2 = totalRecords res /\
    ((getCacheSize w').1 <= length zones * length queryTypes)%nat.
Proof.
  intros Hempty Hnd.
  set (w1 := set_isFetching true w).
  assert (Hfresh : fresh w1 (partitions zones queryTypes)).
  { split; [done|]. intros p _. cbn. by rewrite Hempty. }
  destruct (fetchBatchData_fresh env zones queryTypes onProgress w1 Hfresh)
    as (d & w' & l & Hrun & _ & _ & Hd).
  destruct (fetchBatchData_cacheWithin env zones queryTypes onProgress w1)
    as (d2 & w2 & Hrun2 & Hwithin).
  rewrite Hrun in Hrun2. injection Hrun2 as <- <-.
  assert (Hkeys : forall k, is_Some (cache w' !! k) ->
                    k ∈ keyOf <$> partitions zones queryTypes).
  { intros k Hk. destruct (Hwithin k Hk) as [[r Hr]|?]; [|done].
    cbn in Hr. by rewrite Hempty in Hr. }
  unfold fetchSelectedZones. fold w1. rewrite Hrun.
  eexists _, _. split; [reflexivity|]. cbn [totalRecords].
  unfold getCacheSize. cbn [fst snd]. split.
  - change (cache (set_isFetching false w')) with (cache w').
    rewrite (map_fold_sum (cache w')
               (fun r => length (array r (set_isFetching false w')))
               (keyOf <$> partitions zones queryTypes) Hnd Hkeys).
    rewrite Hd. symmetry. exact (length_cachedRecords w' _).
  - change (cache (set_isFetching false w')) with (cache w').
    rewrite <- length_partitions, <- (length_fmap keyOf).
    rewrite <- (size_list_to_set (C:=gset string)) by done.
    rewrite <- size_dom. apply subseteq_size.
    intros k Hk. apply elem_of_list_to_set, Hkeys. by apply elem_of_dom.
Qed.

Lemma cache_size_after_batch_witness :
  exists res w',
    fetchSelectedZones scenarioC ["CR"; "ER"] twoQueryTypes true initial
    = Some (res, w') /\
    (getCacheSize w').2 = totalRecords res /\
    ((getCacheSize w').1 <= 2 * 2)%nat.
Proof.
  apply (cache_size_after_batch scenarioC ["CR"; "ER"] twoQueryTypes true);
    [reflexivity|].
  refine (bool_decide_unpack (NoDup _) _). vm_compute. exact I.
Defined.

Example getCacheSize_sample :
  (fun '(res, w) => (getCacheSize w, totalRecords res))
    <$> fetchSelectedZones scenarioC ["CR"; "ER"] twoQueryTypes true initial
  = Some ((3%nat, 3%nat), 3%nat).
Proof. vm_compute. reflexivity. Qed.

(** *** The attempts of a fetch *)

Lemma fetchZoneData_await_attempts env fuel z q s f w0 w r w' :
  fetchZoneData_await env fuel z q s f w = Some (r, w') ->
  controllers w = controllers w0 -> mayRetry f -> pending_for z q f ->
  exists calls,
    trace w' = trace w ++ (EFetch <$> calls) /\
    (length calls <= attemptsLeft f)%nat /\
    Forall (fun c => fc_zone c = z /\ fc_qry c = q /\
                     fc_sent c = negb (aborted s w0)) calls /\
    (rejects env s w0 z q -> length calls = attemptsLeft f).
Proof.
  revert f w. induction fuel as [|fuel IH]; intros f w Hrun Hctl Hmay Hpend.
  - destruct f; try done. cbn in Hrun. injection Hrun as <- <-.
    exists []. cbn. by rewrite app_nil_r.
  - destruct f as [a c|a|r0]; cbn [fetchZoneData_await] in Hrun;
      [| |injection Hrun as <- <-; exists []; cbn; by rewrite app_nil_r].
    + destruct (fetchZoneData_resume_cases env z q s (InFlight a c) w)
        as [(a' & c' & e & [= <- <-] & _ & Ha & Hres)|[(a' & c' & [= <- <-] & Hwhy & Hres)|
            [(a' & c' & j & records & [= <- <-] & Hans & _ & Hres)|[(a' & ? & _)|(? & ? & _)]]]];
        try done; rewrite Hres in Hrun.
      * apply IH in Hrun as (calls & Htr & Hlen & Hall & Hrej); try done.
        exists calls. cbn [attemptsLeft] in *. done.
      * destruct fuel; cbn in Hrun; injection Hrun as <- <-.
        all: exists []; cbn [fmap list_fmap length attemptsLeft];
          rewrite app_nil_r; split_and!; try done; try lia; try constructor.
        all: intros Hrej; destruct Hwhy as [(e & _ & Hge)|(j & e & Hans & _)];
          try lia.
        all: destruct (Hpend a c eq_refl) as [Hz Hq];
          destruct (answer_rejects env s w0 z q c w Hrej Hctl Hz Hq) as [e' He'];
          congruence.
      * destruct fuel; cbn in Hrun; injection Hrun as <- <-.
        all: exists []; cbn [fmap list_fmap length attemptsLeft];
          rewrite app_nil_r; split_and!; try done; try lia; try constructor.
        all: intros Hrej; destruct (Hpend a c eq_refl) as [Hz Hq];
          destruct (answer_rejects env s w0 z q c w Hrej Hctl Hz Hq) as [e' He'];
          congruence.
    + cbn [fetchZoneData_resume] in Hrun.
      destruct (fetch z q s w) as [c w1] eqn:Ef.
      assert (Hc : fc_zone c = z /\ fc_qry c = q /\
                   fc_sent c = negb (aborted s w0) /\
                   trace w1 = trace w ++ [EFetch c] /\
                   controllers w1 = controllers w).
      { unfold fetch in Ef. injection Ef as <- <-. cbn.
        split_and!; try done. unfold aborted. by rewrite Hctl. }
      destruct Hc as (Hz & Hq & Hs & Htr & Hctl1).
      apply IH in Hrun as (calls & Htr' & Hlen & Hall & Hrej).
      * exists (c :: calls). rewrite Htr', Htr, <- app_assoc.
        cbn [mayRetry attemptsLeft length] in *. split_and!; try done.
        -- lia.
        -- by constructor.
        -- intros H. specialize (Hrej H). lia.
      * congruence.
      * done.
      * intros a' c' [= <- <-]. done.
Qed.

(** X18: a miss of [fetchZoneData] calls [fetch] at least once and at
    most [retryAttempts] = 3 times, for its own partition, and then
    resolves with an array; when every attempt fails (the network never
    answers the partition with a successful response that is JSON, or the
    signal is aborted) it calls [fetch] exactly 3 times.  An aborted
    signal does not stop the retries: the three calls are made, and none
    of them leaves. *)
Theorem fetchZoneData_attempts (env : Env) (z q : string) (s : option nat)
    (w : World) :
  cache w !! cacheKey z q = None ->
  exists r w' calls,
    fetchZoneData env z q s w = Some (Ok r, w') /\
    trace w' = trace w ++ (EFetch <$> calls) /\
    (1 <= length calls <= API_CONFIG.retryAttempts)%nat /\
    Forall (fun c => fc_zone c = z /\ fc_qry c = q /\
                     fc_sent c = negb (aborted s w)) calls /\
    (rejects env s w z q -> length calls = API_CONFIG.retryAttempts).
Proof.
  intros Hmiss.
  destruct (fetchZoneData_total env z q s w) as (r & w' & Hrun).
  exists r, w'. unfold fetchZoneData, fetchZoneData_begin in Hrun |- *.
  rewrite Hmiss in Hrun |- *.
  destruct (fetch z q s w) as [c w1] eqn:Ef.
  assert (Hc : fc_zone c = z /\ fc_qry c = q /\
               fc_sent c = negb (aborted s w) /\
               trace w1 = trace w ++ [EFetch c] /\
               controllers w1 = controllers w).
  { unfold fetch in Ef. injection Ef as <- <-. by cbn. }
  destruct Hc as (Hz & Hq & Hs & Htr & Hctl).
  destruct (fetchZoneData_await_attempts env _ z q s (InFlight 1 c) w w1 _ _
              Hrun Hctl I) as (calls & Htr' & Hlen & Hall & Hrej).
  { intros a' c' [= <- <-]. done. }
  exists (c :: calls). rewrite Htr', Htr, <- app_assoc.
  cbn [attemptsLeft length] in *. split_and!; try done.
  - lia.
  - unfold API_CONFIG.retryAttempts in *. lia.
  - by constructor.
  - intros H. specialize (Hrej H). unfold API_CONFIG.retryAttempts in *. lia.
Qed.

Lemma fetchZoneData_attempts_witness :
  exists r w' calls,
    fetchZoneData deadEnv "CR" "ODR_RK_OTSG" None initial = Some (Ok r, w') /\
    trace w' = trace initial ++ (EFetch <$> calls) /\
    (1 <= length calls <= API_CONFIG.retryAttempts)%nat /\
    Forall (fun c => fc_zone c = "CR" /\ fc_qry c = "ODR_RK_OTSG" /\
                     fc_sent c = negb (aborted None initial)) calls /\
    (rejects deadEnv None initial "CR" "ODR_RK_OTSG" ->
     length calls = API_CONFIG.retryAttempts).
Proof.
  apply (fetchZoneData_attempts deadEnv "CR" "ODR_RK_OTSG" None initial).
  reflexivity.
Defined.

(** X25: a successful response whose body the normalizer rejects is not
    retried: on a miss with a live signal, [fetchZoneData] makes that one
    request, resolves with a new empty array and leaves the cache as it
    was, so a later call for the partition asks again. *)
Theorem fetchZoneData_malformed_body (env : Env) (z q : string)
    (s : option nat) (w : World) (status : Z) (response : json) (e : exn) :
  cache w !! cacheKey z q = None ->
  aborted s w = false ->
  network env z q (length (List.filter (is_fetch_of z q) (trace w)))
  = Http status (Some response) ->
  (200 <=? status) && (status <=? 299) = true ->
  processData (dates env) q z response = Throw e ->
  exists c w',
    fetchZoneData env z q s w = Some (Ok (length (heap w)), w') /\
    trace w' = trace w ++ [EFetch c] /\ fc_sent c = true /\
    array (length (heap w)) w' = [] /\
    cache w' = cache w.
Proof.
  intros Hmiss Hlive Hnet Hok Hbad.
  unfold fetchZoneData, fetchZoneData_begin. rewrite Hmiss.
  unfold fetch. rewrite Hlive.
  set (c := {| fc_zone := z; fc_qry := q;
               fc_seq := length (List.filter (is_fetch_of z q) (trace w));
               fc_sent := negb false |}).
  exists c. cbn [fetchZoneData_await Nat.mul API_CONFIG.retryAttempts Nat.add].
  cbn [fetchZoneData_resume].
  assert (Hans : answer env s c (emit (EFetch c) w) = Ok response).
  { unfold answer. change (aborted s (emit (EFetch c) w)) with (aborted s w).
    rewrite Hlive. cbn [fc_zone fc_qry fc_seq c]. by rewrite Hnet, Hok. }
  rewrite Hans, Hbad. unfold fetchZoneData_catch, alloc. cbn.
  eexists. split; [reflexivity|]. cbn. split_and!; try done.
  unfold array. cbn. by rewrite lookup_app_r, Nat.sub_diag by lia.
Qed.

Lemma fetchZoneData_malformed_body_witness :
  exists c w',
    fetchZoneData malformedEnv "CR" "ODR_RK_OTSG" None initial
    = Some (Ok (length (heap initial)), w') /\
    trace w' = trace initial ++ [EFetch c] /\ fc_sent c = true /\
    array (length (heap initial)) w' = [] /\
    cache w' = cache initial.
Proof.
  apply (fetchZoneData_malformed_body malformedEnv "CR" "ODR_RK_OTSG" None
           initial 200 JNotArray
           (TypeError "(response.data || []).filter is not a function"));
    reflexivity.
Defined.

